(** * SRF weather integration: token cache, forecast merge, symbol and bearing tables

    A shallow embedding of [custom_components/srf_weather/weather.py].

    - Python values that travel through JSON documents and dictionaries are
      [pyval]; dictionaries are [gmap string pyval].
    - A Python [float] is an IEEE binary64 number, held as a [spec_float]
      with the operations of the standard library's [SpecFloat] at precision
      53 and maximal exponent 1024.
    - Exceptions are values of [exn]; code that only logs and raises runs in
      the writer monad [W], code that also mutates the entity or its
      credential dictionary runs in the state monad [M].  The state survives
      a raised exception, as it does in Python. *)

From Stdlib Require Import ZArith QArith Lia List String.
From Stdlib Require Import Floats.SpecFloat.
From stdpp Require Import base gmap strings list sorting.

Local Open Scope string_scope.
Local Open Scope list_scope.
Local Open Scope Z_scope.

(** ** Python values and exceptions *)

Inductive pyval :=
| VNone
| VBool (b : bool)
| VInt (z : Z)
| VFloat (f : spec_float)
| VStr (s : string)
| VOther.                    (* a JSON array or object where a scalar is expected *)

(** A raw forecast record, and the three arrays of a forecast document. *)
Abbreviation raw := (gmap string pyval).

Inductive exn :=
| KeyError (key : string)
| IndexError
| TypeError
| ValueError
| OverflowError
| MissingKeys (missing : gset string)
    (* ValueError("client credentials response missing keys", missing) *)
| HTTPError (status : Z)     (* resp.raise_for_status() *)
| ClientError (reason : string)  (* the transport failed, or the body is not JSON *)
| CancelledError.            (* asyncio.CancelledError: not an [Exception] *)

(** [except Exception] catches everything but the cancellation signal. *)
Definition is_Exception (e : exn) : bool :=
  match e with CancelledError => false | _ => true end.

Inductive result (A : Type) :=
| Ok (a : A)
| Raise (e : exn).
Arguments Ok {A} a.
Arguments Raise {A} e.

(** ** Binary64 arithmetic, as far as the bearing converter uses it *)

Module Float.

Definition prec : Z := 53.
Definition emax : Z := 1024.

(** [float(z)] for an [int] that fits; every int below 2^53 converts exactly. *)
Definition of_int (z : Z) : spec_float := binary_normalize prec emax z 0 false.

Definition div : spec_float -> spec_float -> spec_float := SFdiv prec emax.
Definition add : spec_float -> spec_float -> spec_float := SFadd prec emax.

(** The exact remainder of [m * 2^e] by the positive integer [d], as an
    integer mantissa together with its exponent. C's [fmod] is exact. *)
Definition fmod_pos (m : positive) (e : Z) (d : positive) : Z * Z :=
  if 0 <=? e then ((Zpos m * 2 ^ e) mod Zpos d, 0)
  else (Zpos m mod (Zpos d * 2 ^ (- e)), e).

(** [x % d] for a float [x] and a positive int [d] (CPython's [float_rem]):
    [fmod], then the divisor is added once when the remainder is negative,
    and a zero remainder takes the sign of the divisor. *)
Definition rem (x : spec_float) (d : positive) : spec_float :=
  match x with
  | S754_nan | S754_infinity _ => S754_nan
  | S754_zero _ => S754_zero false
  | S754_finite s m e =>
      let '(r, er) := fmod_pos m e d in
      if r =? 0 then S754_zero false
      else if s then add (binary_normalize prec emax (- r) er false) (of_int (Zpos d))
      else binary_normalize prec emax r er false
  end.

(** The integer nearest to [m * 2^e], ties going to the even one. *)
Definition round_half_even (m e : Z) : Z :=
  if 0 <=? e then m * 2 ^ e
  else
    let d := 2 ^ (- e) in
    let q := m / d in
    match 2 * (m mod d) ?= d with
    | Lt => q
    | Gt => q + 1
    | Eq => if Z.even q then q else q + 1
    end.

(** [round(x)] with one argument: an [int], or an exception on nan and inf. *)
Definition round (x : spec_float) : result Z :=
  match x with
  | S754_nan => Raise ValueError
  | S754_infinity _ => Raise OverflowError
  | S754_zero _ => Ok 0
  | S754_finite s m e =>
      Ok (if s then - round_half_even (Zpos m) e else round_half_even (Zpos m) e)
  end.

(** [int(x)]: truncation towards zero. *)
Definition trunc (x : spec_float) : result Z :=
  match x with
  | S754_nan => Raise ValueError
  | S754_infinity _ => Raise OverflowError
  | S754_zero _ => Ok 0
  | S754_finite s m e =>
      let a := if 0 <=? e then Zpos m * 2 ^ e else Zpos m / 2 ^ (- e) in
      Ok (if s then - a else a)
  end.

(** The exact value of a finite float, for comparisons against an int. *)
Definition to_Q (x : spec_float) : option Q :=
  match x with
  | S754_zero _ => Some 0%Q
  | S754_finite s m e =>
      let a := if 0 <=? e then inject_Z (Zpos m * 2 ^ e)
               else Qmake (Zpos m) (Z.to_pos (2 ^ (- e))) in
      Some (if s then Qopp a else a)
  | _ => None
  end.

Definition is_finite (x : spec_float) : bool :=
  match x with
  | S754_zero _ | S754_finite _ _ _ => true
  | _ => false
  end.

End Float.

(** A Python number: the bearing converter is annotated for [float] and is
    called with the [int] that [parse_forecast] stores. *)
Inductive number :=
| NInt (z : Z)
| NFloat (f : spec_float).

(** ** Bearing converter *)

Definition CARDINALS : list string :=
  [ "N"; "NNE"; "NE"; "ENE"; "E"; "ESE"; "SE"; "SSE";
    "S"; "SSW"; "SW"; "WSW"; "W"; "WNW"; "NW"; "NNW" ].

Definition DEG_HALF_CIRCLE : Z := 180.
Definition DEG_FULL_CIRCLE : Z := 2 * DEG_HALF_CIRCLE.

(** [DEG_FULL_CIRCLE / len(CARDINALS)]: true division of two ints. *)
Definition _CARDINAL_DEGREE : spec_float :=
  Float.div (Float.of_int DEG_FULL_CIRCLE) (Float.of_int (Z.of_nat (length CARDINALS))).

(** [deg % DEG_FULL_CIRCLE]: an int for an int, a float for a float. *)
Definition mod_full_circle (deg : number) : number :=
  match deg with
  | NInt z => NInt (z mod DEG_FULL_CIRCLE)
  | NFloat f => NFloat (Float.rem f (Z.to_pos DEG_FULL_CIRCLE))
  end.

(** [x / _CARDINAL_DEGREE]: an int operand is converted first. *)
Definition div_cardinal_degree (x : number) : spec_float :=
  match x with
  | NInt z => Float.div (Float.of_int z) _CARDINAL_DEGREE
  | NFloat f => Float.div f _CARDINAL_DEGREE
  end.

Definition deg_to_cardinal (deg : number) : result string :=
  match Float.round (div_cardinal_degree (mod_full_circle deg)) with
  | Raise e => Raise e
  | Ok i =>
      match CARDINALS !! Z.to_nat (i mod Z.of_nat (length CARDINALS)) with
      | Some c => Ok c
      | None => Raise IndexError
      end
  end.

(** [deg + 360] as Python computes it. *)
Definition add_full_circle (deg : number) : number :=
  match deg with
  | NInt z => NInt (z + DEG_FULL_CIRCLE)
  | NFloat f => NFloat (Float.add f (Float.of_int DEG_FULL_CIRCLE))
  end.

(** ** Condition mapper *)

Definition STATE_UNAVAILABLE : string := "unavailable".

Definition SYMBOL_STATE_TABLE : list (Z * string) :=
  [ (1, "sunny"); (2, "fog"); (3, "partlycloudy"); (4, "rainy");
    (5, "lightning-rainy"); (6, "snowy"); (7, "snowy-rainy");
    (8, "snowy-rainy"); (9, "snowy-rainy"); (10, "sunny");
    (11, "partlycloudy"); (12, "sunny"); (13, "sunny"); (14, "sunny");
    (15, "sunny"); (16, "sunny"); (17, "fog"); (18, "cloudy");
    (19, "cloudy"); (20, "rainy"); (21, "snowy"); (22, "snowy-rainy");
    (23, "pouring"); (24, "snowy"); (25, "rainy"); (26, "lightning");
    (27, "snowy"); (28, "cloudy"); (29, "snowy-rainy"); (30, "snowy-rainy");
    (-1, "clear-night"); (-2, "fog"); (-3, "cloudy"); (-4, "rainy");
    (-5, "lightning-rainy"); (-6, "snowy"); (-7, "snowy");
    (-8, "snowy-rainy"); (-9, "lightning-rainy"); (-10, "partlycloudy");
    (-11, "rainy"); (-12, "lightning"); (-13, "snowy"); (-14, "snowy");
    (-15, "snowy-rainy"); (-16, "partlycloudy"); (-17, "fog");
    (-18, "cloudy"); (-19, "cloudy"); (-20, "rainy"); (-21, "snowy");
    (-22, "snowy-rainy"); (-23, "pouring"); (-24, "snowy"); (-25, "rainy");
    (-26, "lightning"); (-27, "rainy"); (-28, "lightning-rainy");
    (-29, "snowy-rainy"); (-30, "snowy-rainy") ].

Definition SYMBOL_STATE_MAP : gmap Z string := list_to_map SYMBOL_STATE_TABLE.

(** ** Log records

    Only the records of level info and above are kept. A debug line has no
    effect on what follows it, unless the evaluation of its arguments raises:
    that happens in [_get] only, where it is modelled. *)

Inductive source := Hourly | TripleHourly | Daily.

Inductive event :=
| InfoRenewing                               (* "Renewing API key" *)
| WarnMissingKeys (missing : gset string) (d : gmap string pyval)
| ExcTokenResponse (token_data : gmap string pyval)
| WarnParseFailed (src : source) (r : raw)   (* "failed to parse ... forecast" *)
| WarnNoCondition (symbol_id : Z)            (* "No condition entry for symbol id" *)
| ExcUpdateFailed (e : exn).                 (* "failed to update weather" *)

(** ** Code that logs and raises: a writer monad with exceptions *)

Definition W (A : Type) : Type := list event * result A.

#[global] Instance W_ret : MRet W := λ A a, ([], Ok a).
#[global] Instance W_bind : MBind W := λ A B f m,
  match m with
  | (l, Ok a) => let '(l', r) := f a in (l ++ l', r)
  | (l, Raise e) => (l, Raise e)
  end.

Definition wlog (ev : event) : W unit := ([ev], Ok tt).
Definition wlift {A} (r : result A) : W A := ([], r).

(** [d[key]] on a dictionary. *)
Definition getitem {V} (d : gmap string V) (key : string) : result V :=
  match d !! key with
  | Some v => Ok v
  | None => Raise (KeyError key)
  end.

(** ** Dates

    A [datetime] is its wall-clock reading in microseconds since the epoch of
    the proleptic calendar, and the offset from UTC of its [tzinfo] when it
    is aware. [astimezone()] without argument attaches a fixed offset, so
    arithmetic on [now] is arithmetic on the wall clock. *)

Record datetime := { wall : Z; utcoffset : option Z }.

Definition usec_per_hour : Z := 3600 * 1000000.
Definition usec_per_day : Z := 24 * usec_per_hour.

(** The instant an aware datetime denotes. *)
Definition instant (d : datetime) : option Z :=
  match utcoffset d with
  | Some off => Some (wall d - off)
  | None => None
  end.

(** Ordering of two datetimes: aware ones by instant, naive ones by wall
    clock, and a [TypeError] for a naive one against an aware one. *)
Definition dt_compare (a b : datetime) : result comparison :=
  match utcoffset a, utcoffset b with
  | Some oa, Some ob => Ok ((wall a - oa) ?= (wall b - ob))
  | None, None => Ok (wall a ?= wall b)
  | _, _ => Raise TypeError
  end.

Definition dt_lt (a b : datetime) : result bool :=
  match dt_compare a b with
  | Ok Lt => Ok true
  | Ok _ => Ok false
  | Raise e => Raise e
  end.

Definition dt_gt (a b : datetime) : result bool :=
  match dt_compare a b with
  | Ok Gt => Ok true
  | Ok _ => Ok false
  | Raise e => Raise e
  end.

Definition dt_le (a b : datetime) : result bool :=
  match dt_compare a b with
  | Ok Gt => Ok false
  | Ok _ => Ok true
  | Raise e => Raise e
  end.

(** [d + timedelta(...)], the delta given in microseconds. *)
Definition dt_add (d : datetime) (delta : Z) : datetime :=
  {| wall := wall d + delta; utcoffset := utcoffset d |}.

(** [d.hour]. *)
Definition dt_hour (d : datetime) : Z := (wall d / usec_per_hour) mod 24.

(** [d.replace(hour=0)]. *)
Definition replace_hour_0 (d : datetime) : datetime :=
  {| wall := wall d - dt_hour d * usec_per_hour; utcoffset := utcoffset d |}.

(** [d.replace(minute=0, second=0, microsecond=0)]. *)
Definition replace_minute_second_microsecond_0 (d : datetime) : datetime :=
  {| wall := wall d - wall d mod usec_per_hour; utcoffset := utcoffset d |}.

(** ** Forecast points: the dictionaries that [parse_forecast] builds *)

Record point := {
  p_datetime : string;
  p_condition : string;
  p_symbol_id : Z;
  p_precipitation : spec_float;
  p_wind_speed : spec_float;
  p_precipitation_probability : spec_float;
  p_wind_bearing : option Z;            (* present when the record has DD_DEG *)
  p_temperature : option spec_float;    (* added by the hour and day parsers *)
  p_templow : option spec_float         (* added by the day parser *)
}.

(** [data.update({"temperature": t})] and the two-key form of the day parser. *)
Definition update_temperature (t : spec_float) (p : point) : point :=
  {| p_datetime := p_datetime p; p_condition := p_condition p;
     p_symbol_id := p_symbol_id p; p_precipitation := p_precipitation p;
     p_wind_speed := p_wind_speed p;
     p_precipitation_probability := p_precipitation_probability p;
     p_wind_bearing := p_wind_bearing p;
     p_temperature := Some t; p_templow := p_templow p |}.

Definition update_temperature_templow (hi lo : spec_float) (p : point) : point :=
  {| p_datetime := p_datetime p; p_condition := p_condition p;
     p_symbol_id := p_symbol_id p; p_precipitation := p_precipitation p;
     p_wind_speed := p_wind_speed p;
     p_precipitation_probability := p_precipitation_probability p;
     p_wind_bearing := p_wind_bearing p;
     p_temperature := Some hi; p_templow := Some lo |}.

(** [point[key]] for the optional keys. *)
Definition point_item {A} (key : string) (field : option A) : result A :=
  match field with
  | Some v => Ok v
  | None => Raise (KeyError key)
  end.

Definition get_condition_from_symbol (symbol_id : Z) : W string :=
  match SYMBOL_STATE_MAP !! symbol_id with
  | Some condition => mret condition
  | None => _ ← wlog (WarnNoCondition symbol_id); mret STATE_UNAVAILABLE
  end.

(** ** The entity, its credential dictionary and the clock

    [SRFWeather] keeps its published attributes, and [_api_data], the
    dictionary the token cache reads and writes. [ticks] counts the readings
    of the clock taken so far and [log] is what the logger has received. *)

Record state := {
  ticks : nat;
  log : list event;
  _api_data : gmap string pyval;
  _geolocation_id : pyval;
  _forecast : list point;
  _hourly_forecast : list point;
  _state : option string;
  _temperature : option spec_float;
  _wind_speed : option spec_float;
  _wind_bearing : option string;
  _state_attrs : gmap string pyval
}.

Definition M (A : Type) : Type := state -> state * result A.

#[global] Instance M_ret : MRet M := λ A a s, (s, Ok a).
#[global] Instance M_bind : MBind M := λ A B f m s,
  match m s with
  | (s', Ok a) => f a s'
  | (s', Raise e) => (s', Raise e)
  end.

Definition raise {A} (e : exn) : M A := λ s, (s, Raise e).
Definition lift {A} (r : result A) : M A := λ s, (s, r).
Definition get_state : M state := λ s, (s, Ok s).
Definition modify (f : state -> state) : M unit := λ s, (f s, Ok tt).

Definition add_log (l : list event) (s : state) : state :=
  {| ticks := ticks s; log := log s ++ l; _api_data := _api_data s;
     _geolocation_id := _geolocation_id s; _forecast := _forecast s;
     _hourly_forecast := _hourly_forecast s; _state := _state s;
     _temperature := _temperature s; _wind_speed := _wind_speed s;
     _wind_bearing := _wind_bearing s; _state_attrs := _state_attrs s |}.

Definition tick (s : state) : state :=
  {| ticks := S (ticks s); log := log s; _api_data := _api_data s;
     _geolocation_id := _geolocation_id s; _forecast := _forecast s;
     _hourly_forecast := _hourly_forecast s; _state := _state s;
     _temperature := _temperature s; _wind_speed := _wind_speed s;
     _wind_bearing := _wind_bearing s; _state_attrs := _state_attrs s |}.

Definition set_api_data (d : gmap string pyval) (s : state) : state :=
  {| ticks := ticks s; log := log s; _api_data := d;
     _geolocation_id := _geolocation_id s; _forecast := _forecast s;
     _hourly_forecast := _hourly_forecast s; _state := _state s;
     _temperature := _temperature s; _wind_speed := _wind_speed s;
     _wind_bearing := _wind_bearing s; _state_attrs := _state_attrs s |}.

Definition set_forecast (f : list point) (s : state) : state :=
  {| ticks := ticks s; log := log s; _api_data := _api_data s;
     _geolocation_id := _geolocation_id s; _forecast := f;
     _hourly_forecast := _hourly_forecast s; _state := _state s;
     _temperature := _temperature s; _wind_speed := _wind_speed s;
     _wind_bearing := _wind_bearing s; _state_attrs := _state_attrs s |}.

Definition set_state (c : string) (s : state) : state :=
  {| ticks := ticks s; log := log s; _api_data := _api_data s;
     _geolocation_id := _geolocation_id s; _forecast := _forecast s;
     _hourly_forecast := _hourly_forecast s; _state := Some c;
     _temperature := _temperature s; _wind_speed := _wind_speed s;
     _wind_bearing := _wind_bearing s; _state_attrs := _state_attrs s |}.

Definition set_temperature (t : spec_float) (s : state) : state :=
  {| ticks := ticks s; log := log s; _api_data := _api_data s;
     _geolocation_id := _geolocation_id s; _forecast := _forecast s;
     _hourly_forecast := _hourly_forecast s; _state := _state s;
     _temperature := Some t; _wind_speed := _wind_speed s;
     _wind_bearing := _wind_bearing s; _state_attrs := _state_attrs s |}.

Definition set_wind_speed (w : spec_float) (s : state) : state :=
  {| ticks := ticks s; log := log s; _api_data := _api_data s;
     _geolocation_id := _geolocation_id s; _forecast := _forecast s;
     _hourly_forecast := _hourly_forecast s; _state := _state s;
     _temperature := _temperature s; _wind_speed := Some w;
     _wind_bearing := _wind_bearing s; _state_attrs := _state_attrs s |}.

Definition set_wind_bearing (b : string) (s : state) : state :=
  {| ticks := ticks s; log := log s; _api_data := _api_data s;
     _geolocation_id := _geolocation_id s; _forecast := _forecast s;
     _hourly_forecast := _hourly_forecast s; _state := _state s;
     _temperature := _temperature s; _wind_speed := _wind_speed s;
     _wind_bearing := Some b; _state_attrs := _state_attrs s |}.

Definition set_state_attrs (a : gmap string pyval) (s : state) : state :=
  {| ticks := ticks s; log := log s; _api_data := _api_data s;
     _geolocation_id := _geolocation_id s; _forecast := _forecast s;
     _hourly_forecast := _hourly_forecast s; _state := _state s;
     _temperature := _temperature s; _wind_speed := _wind_speed s;
     _wind_bearing := _wind_bearing s; _state_attrs := a |}.

(** A logger call, and a [W] computation run inside [M]. *)
Definition logger (ev : event) : M unit := modify (add_log [ev]).
Definition run_W {A} (m : W A) : M A := λ s, (add_log (fst m) s, snd m).

(** What the host reads from the entity: the published state. *)
Definition published (s : state) :=
  (_state s, _temperature s, _wind_speed s, _wind_bearing s,
   _state_attrs s, _forecast s).

(** The decoded body of a forecast response, and an HTTP response as [_get]
    uses it: the status, the headers and the decoding of the body. *)
Abbreviation document := (gmap string (gmap string (list raw))).

Record response := {
  status : Z;
  headers : gmap string string;
  json : result document      (* [await resp.json()] *)
}.

(** [int(t)] for a clock reading. *)
Definition Qtrunc (t : Q) : Z := Z.quot (Qnum t) (Zpos (Qden t)).

(** [t >= v] for a clock reading [t]; Python compares a float with an int
    or another float exactly and refuses the other types. *)
Definition float_ge (t : Q) (v : pyval) : result bool :=
  match v with
  | VInt z => Ok (Qle_bool (inject_Z z) t)
  | VBool b => Ok (Qle_bool (inject_Z (Z.b2z b)) t)
  | VFloat f =>
      match f with
      | S754_nan => Ok false
      | S754_infinity sign => Ok sign
      | _ => match Float.to_Q f with
             | Some q => Ok (Qle_bool q t)
             | None => Ok false
             end
      end
  | _ => Raise TypeError
  end.


(** ** Keyword arguments of a request

    [weak_update(d, key, value)]: the entries that [d] already holds under
    [key] are copied over those of [value], and [value] is stored under
    [key]. Both dictionaries are changed in place; the result is [d] after
    the call, whose entry at [key] is the changed [value]. *)
Definition weak_update {V} (d : gmap string (gmap string V)) (key : string)
    (value : gmap string V) : gmap string (gmap string V) :=
  let value :=
    match d !! key with
    | Some existing => existing ∪ value      (* [value.update(existing)] *)
    | None => value                           (* [except KeyError: pass] *)
    end in
  <[key := value]> d.

(** The keyword arguments [_get] hands to [session.get], [authorization]
    being the formatted [Bearer] string. *)
Definition _get_kwargs (kwargs : gmap string (gmap string string))
    (authorization : string) : gmap string (gmap string string) :=
  weak_update kwargs "headers" {[ "Authorization" := authorization ]}.

(** ** Observations used by the statements *)

Definition is_renewing (ev : event) : bool :=
  match ev with InfoRenewing => true | _ => false end.

(** The number of renewals the log records. *)
Definition renewals (l : list event) : nat := length (List.filter is_renewing l).

(** [m] keeps the relation [R] between the state it starts from and the
    state it leaves, whether it returns or raises. *)
Definition preserves {A} (R : relation state) (m : M A) : Prop :=
  ∀ s, R s (m s).1.

Definition same_renewals : relation state :=
  λ s s', renewals (log s') = renewals (log s).

Definition same_published : relation state :=
  λ s s', published s' = published s.

(** The forecast document with its three arrays. *)
Definition forecast_document (hourly tri_hourly daily : list raw) : document :=
  {[ "forecast" :=
       <["60minutes" := hourly]> (<["hour" := tri_hourly]> {[ "day" := daily ]}) ]}.

(** The instant and the point a parser yields for a record, when it
    succeeds with a timezone-aware timestamp. *)
Definition stamped (m : W (datetime * point)) : option (Z * point) :=
  match m.2 with
  | Ok (d, p) =>
      match instant d with
      | Some i => Some (i, p)
      | None => None
      end
  | Raise _ => None
  end.

Definition stamps (parse : raw -> W (datetime * point)) (l : list raw)
  : list (Z * point) :=
  omap (λ r, stamped (parse r)) l.

Definition parseable (parse : raw -> W (datetime * point)) (l : list raw) : Prop :=
  Forall (λ r, is_Some (stamped (parse r))) l.

Definition ascending (l : list (Z * point)) : Prop := Sorted Z.le l.*1.
Definition strictly_ascending (l : list (Z * point)) : Prop := Sorted Z.lt l.*1.

(** The three windows of the merge, on instants. *)
Definition in_hourly_window (n hc : Z) (x : Z * point) : Prop := n ≤ x.1 ∧ x.1 ≤ hc.
Definition in_triple_window (hc dc : Z) (x : Z * point) : Prop := hc < x.1 ∧ x.1 ≤ dc.
Definition in_daily_window (dc : Z) (x : Z * point) : Prop := dc < x.1.

#[global] Instance in_hourly_window_dec n hc x : Decision (in_hourly_window n hc x).
Proof. unfold in_hourly_window. apply _. Defined.
#[global] Instance in_triple_window_dec hc dc x : Decision (in_triple_window hc dc x).
Proof. unfold in_triple_window. apply _. Defined.
#[global] Instance in_daily_window_dec dc x : Decision (in_daily_window dc x).
Proof. unfold in_daily_window. apply _. Defined.

(** [l1] is [l2] with the records [extra] inserted at one place, or [l2]
    itself. *)
Definition log_with_skip (extra l1 l2 : list event) : Prop :=
  ∃ la lb, l2 = la ++ lb ∧ (l1 = la ++ lb ∨ l1 = la ++ extra ++ lb).

(** Two runs with the same outcome whose logs differ by [extra] at most. *)
Definition skip_rel {A} (extra : list event) (x1 x2 : W A) : Prop :=
  x1.2 = x2.2 ∧ log_with_skip extra x1.1 x2.1.

(** A computation that raises nothing but instances of [Exception]. *)
Definition raises_Exception {A} (m : W A) : Prop :=
  ∀ e, m.2 = Raise e -> is_Exception e = true.

(** The document in which the array of the source [src] is [l]. *)
Definition document_with (src : source) (l hourly tri_hourly daily : list raw)
  : document :=
  match src with
  | Hourly => forecast_document l tri_hourly daily
  | TripleHourly => forecast_document hourly l daily
  | Daily => forecast_document hourly tri_hourly l
  end.

(** The categories of the enumeration other than [unavailable], under the
    names the table gives them. *)
Definition CONDITION_CATEGORIES : list string :=
  [ "sunny"; "clear-night"; "partlycloudy"; "cloudy"; "fog"; "rainy";
    "pouring"; "snowy"; "snowy-rainy"; "lightning"; "lightning-rainy" ].

Definition day_and_night_defined (k : Z) : bool :=
  match SYMBOL_STATE_MAP !! k, SYMBOL_STATE_MAP !! (- k) with
  | Some c, Some c' =>
      bool_decide (c ∈ CONDITION_CATEGORIES) && bool_decide (c' ∈ CONDITION_CATEGORIES)
  | _, _ => false
  end.

(** A float that is a zero, or finite with digits plus exponent at most [B]. *)
Definition small (B : Z) (x : spec_float) : Prop :=
  match x with
  | S754_zero _ => True
  | S754_finite _ m e => Zpos (digits2_pos m) + e ≤ B
  | _ => False
  end.

(** The binary64 number just below 33.75, written 33.74999999999999. *)
Definition below_33_75 : spec_float := S754_finite false 4749890231992319 (-47).

(** The value a record holds at [key] as [conv] reads it; [None] when the
    key is absent or the conversion raises. *)
Definition reads {A} (conv : pyval -> result A) (r : raw) (key : string)
  : option A :=
  r !! key ≫= λ v, match conv v with Ok a => Some a | Raise _ => None end.

(** The exception that stands in the way when [reads] has no value. *)
Definition read_error {A} (conv : pyval -> result A) (r : raw) (key : string)
  : exn :=
  match r !! key with
  | None => KeyError key
  | Some v => match conv v with Raise e => e | Ok _ => KeyError key end
  end.

(** What the logger receives for a symbol code. *)
Definition condition_log (symbol_id : Z) : list event :=
  match SYMBOL_STATE_MAP !! symbol_id with
  | Some _ => []
  | None => [WarnNoCondition symbol_id]
  end.

(** A point as the entity can publish it: the temperature is there, and the
    condition is the one the table gives for the symbol code, [unavailable]
    when it gives none. *)
Definition publishable (p : point) : Prop :=
  is_Some (p_temperature p)
  ∧ p_condition p
    = default STATE_UNAVAILABLE (SYMBOL_STATE_MAP !! p_symbol_id p).

(** A stateful computation that raises nothing but instances of
    [Exception], and a result that does. *)
Definition only_Exception {A} (m : M A) : Prop :=
  ∀ s e, (m s).2 = Raise e -> is_Exception e = true.

Definition result_only_Exception {A} (r : result A) : Prop :=
  ∀ e, r = Raise e -> is_Exception e = true.

(** The place in [CARDINALS] of a whole number of degrees, in integer
    arithmetic: sixteen sectors of 22.5 degrees, the first centred on 0. *)
Definition cardinal_index (deg : Z) : Z :=
  ((4 * (deg mod 360) + 45) / 90) mod 16.

(** The rounding of the converter on [k] degrees agrees with integer
    arithmetic, and the sector of [k + 180] lies opposite that of [k]. *)
Definition round_agrees (k : Z) : bool :=
  match Float.round (div_cardinal_degree (NInt k)) with
  | Ok i => (i =? (4 * k + 45) / 90)
            && (cardinal_index (k + 180) =? (cardinal_index k + 8) mod 16)
  | Raise _ => false
  end.


(** The parse warnings in a log, in order: the source and the record each
    one names. *)
Definition parse_warnings (l : list event) : list (source * raw) :=
  omap (λ ev, match ev with
              | WarnParseFailed src r => Some (src, r)
              | _ => None
              end) l.

(** The name of the array of a source in the document. *)
Definition array_key (src : source) : string :=
  match src with
  | Hourly => "60minutes"
  | TripleHourly => "hour"
  | Daily => "day"
  end.

(** The three arrays of [document_with src l hourly tri_hourly daily]. *)
Definition hourly_of (src : source) (l hourly : list raw) : list raw :=
  match src with Hourly => l | _ => hourly end.
Definition tri_hourly_of (src : source) (l tri_hourly : list raw) : list raw :=
  match src with TripleHourly => l | _ => tri_hourly end.
Definition daily_of (src : source) (l daily : list raw) : list raw :=
  match src with Daily => l | _ => daily end.

(** The loop of [src] gets as far as the record that follows the stamped
    records [pre]: none of them lies past the cutoff at which the loop
    breaks. The daily loop has no break. *)
Definition reaches (src : source) (hc dc : Z) (pre : list (Z * point)) : Prop :=
  match src with
  | Hourly => Forall (λ x, x.1 ≤ hc) pre
  | TripleHourly => Forall (λ x, x.1 ≤ dc) pre
  | Daily => True
  end.

(** ** A sample instance of the parameters

    Timestamps are written as a count of hours, numbers as unsigned decimal
    literals; the clock stands at 1_700_000_000 seconds and the wall clock at
    hour 100 of a zone without offset. *)

Module Sample.

Fixpoint digits (s : string) (acc : Z) : option Z :=
  match s with
  | EmptyString => Some acc
  | String c rest =>
      let n := Z.of_N (Ascii.N_of_ascii c) - 48 in
      if (0 <=? n) && (n <=? 9) then digits rest (10 * acc + n) else None
  end.

Definition int_of_str (s : string) : option Z :=
  match s with
  | EmptyString => None
  | _ => digits s 0
  end.

Definition float_of_str (s : string) : option spec_float :=
  Float.of_int <$> int_of_str s.

Definition fromisoformat (s : string) : option datetime :=
  (λ h, {| wall := h * usec_per_hour; utcoffset := Some 0 |}) <$> int_of_str s.

Definition isoformat (d : datetime) : string := "".

Definition fromtimestamp (t : Q) : result datetime :=
  Ok {| wall := Qtrunc t * 1000000; utcoffset := None |}.

Definition HTTP_OK : Z := 200.

Definition clock (k : nat) : Q := inject_Z 1700000000.
Definition localtime (k : nat) : Z * Z := (100 * usec_per_hour, 0).

(** A token response without [issued_at], and one without [access_token]. *)
Definition token_response : gmap string pyval :=
  {[ "expires_in" := VInt 3600; "access_token" := VStr "t1" ]}.
Definition session_post (key secret : pyval) : result (gmap string pyval) :=
  Ok token_response.
Definition session_post_no_token (key secret : pyval)
  : result (gmap string pyval) :=
  Ok {[ "expires_in" := VInt 3600 ]}.

(** A token response with [issued_at] in milliseconds, as the endpoint sends
    it: a string of digits. *)
Definition session_post_issued (key secret : pyval)
  : result (gmap string pyval) :=
  Ok (<["issued_at" := VStr "1700000000123"]> token_response).

(** A forecast endpoint that answers with three empty arrays, and one that
    does not answer. *)
Definition session_get_empty (geolocation_id api_key : pyval) : result response :=
  Ok {| status := 200; headers := ∅;
        json := Ok (forecast_document [] [] []) |}.
Definition session_get_down (geolocation_id api_key : pyval) : result response :=
  Raise (ClientError "connection refused").

Definition record (stamp : string) : raw :=
  {[ "local_date_time" := VStr stamp; "SYMBOL_CODE" := VInt 1;
     "RRR_MM" := VStr "0"; "FF_KMH" := VInt 5; "PROBPCP_PERCENT" := VInt 10;
     "DD_DEG" := VInt 90; "TTT_C" := VInt 20; "TX_C" := VInt 25;
     "TN_C" := VInt 12 ]}.

(** The same record with a precipitation total that is not a number. *)
Definition bad_record (stamp : string) : raw :=
  <["RRR_MM" := VStr "n/a"]> (record stamp).

Definition store_fresh : gmap string pyval :=
  {[ "consumer_key" := VStr "k"; "consumer_secret" := VStr "s" ]}.
Definition store_valid : gmap string pyval :=
  <["expires_at" := VInt 1800000000]> (<["api_key" := VStr "t0"]> store_fresh).
Definition store_no_token : gmap string pyval :=
  <["expires_at" := VInt 1800000000]> store_fresh.
Definition store_due : gmap string pyval :=
  <["expires_at" := VInt 1700000000]> (<["api_key" := VStr "t0"]> store_fresh).

Definition point0 : point :=
  {| p_datetime := ""; p_condition := "cloudy"; p_symbol_id := 19;
     p_precipitation := Float.of_int 0; p_wind_speed := Float.of_int 7;
     p_precipitation_probability := Float.of_int 30;
     p_wind_bearing := Some 180; p_temperature := Some (Float.of_int 11);
     p_templow := None |}.

(** An entity that has published [point0] as current and [forecast] ahead. *)
Definition entity (data : gmap string pyval) (forecast : list point) : state :=
  {| ticks := 0; log := []; _api_data := data; _geolocation_id := VStr "101,1";
     _forecast := forecast; _hourly_forecast := [];
     _state := Some "cloudy"; _temperature := Some (Float.of_int 11);
     _wind_speed := Some (Float.of_int 7); _wind_bearing := Some "S";
     _state_attrs := {[ "symbol_id" := VInt 19 ]} |}.

End Sample.

(** ** Further answers of the outside world, on the sample instance *)

Module Scenario.

(** A record without wind direction. *)
Definition calm_record (stamp : string) : raw :=
  delete "DD_DEG" (Sample.record stamp).

(** Timestamps read without a timezone. *)
Definition fromisoformat_naive (s : string) : option datetime :=
  (λ h, {| wall := h * usec_per_hour; utcoffset := None |})
    <$> Sample.int_of_str s.

(** Forecast endpoints: one that answers with records in all three arrays,
    one whose first hourly record has no wind direction, one whose document
    has no [forecast] entry, and one that is cancelled. *)
Definition session_get_forecast (geolocation_id api_key : pyval)
  : result response :=
  Ok {| status := 200; headers := ∅;
        json := Ok (forecast_document
                      (Sample.record <$> ["100"; "101"])
                      (Sample.record <$> ["114"])
                      (Sample.record <$> ["168"])) |}.

Definition session_get_calm (geolocation_id api_key : pyval)
  : result response :=
  Ok {| status := 200; headers := ∅;
        json := Ok (forecast_document
                      [calm_record "100"; Sample.record "101"] [] []) |}.

Definition session_get_no_forecast (geolocation_id api_key : pyval)
  : result response :=
  Ok {| status := 200; headers := ∅; json := Ok ∅ |}.

Definition session_get_cancelled (geolocation_id api_key : pyval)
  : result response :=
  Raise CancelledError.

(** Hourly records out of order. *)
Definition shuffled : list raw :=
  Sample.record <$> ["105"; "99"; "113"; "100"].

End Scenario.

(** ** The integration, over the builtins, the constants and the outside world *)

Section Integration.

(** The string parsers of the builtins [int], [float],
    [datetime.fromisoformat], and [datetime.isoformat]; [None] stands for
    the [ValueError] they raise. [datetime.fromtimestamp] is applied to the
    exact quotient of two ints and stands for its rounding to a float
    followed by the conversion, which raises out of the calendar's range. *)
Variable int_of_str : string -> option Z.
Variable float_of_str : string -> option spec_float.
Variable fromisoformat : string -> option datetime.
Variable isoformat : datetime -> string.
Variable fromtimestamp : Q -> result datetime.

(** The constants of [const.py]. *)
Variables ATTR_API_KEY ATTR_EXPIRES_AT : string.
Variables CONF_CONSUMER_KEY CONF_CONSUMER_SECRET : string.
Variable HTTP_OK : Z.

(** The outside world: successive readings of [time.time()] and of the local
    wall clock with its offset, the token endpoint answering a key and a
    secret, and the forecast endpoint answering a location id and a bearer
    token. *)
Variable clock : nat -> Q.
Variable localtime : nat -> Z * Z.
Variable session_post : pyval -> pyval -> result (gmap string pyval).
Variable session_get : pyval -> pyval -> result response.

(** *** Builtin conversions *)

Definition py_int (v : pyval) : result Z :=
  match v with
  | VInt z => Ok z
  | VBool b => Ok (Z.b2z b)
  | VFloat f => Float.trunc f
  | VStr s => match int_of_str s with Some z => Ok z | None => Raise ValueError end
  | VNone | VOther => Raise TypeError
  end.

Definition py_float (v : pyval) : result spec_float :=
  match v with
  | VFloat f => Ok f
  | VInt z =>
      if Float.is_finite (Float.of_int z) then Ok (Float.of_int z)
      else Raise OverflowError
  | VBool b => Ok (Float.of_int (Z.b2z b))
  | VStr s => match float_of_str s with Some f => Ok f | None => Raise ValueError end
  | VNone | VOther => Raise TypeError
  end.

Definition datetime_fromisoformat (v : pyval) : result datetime :=
  match v with
  | VStr s => match fromisoformat s with Some d => Ok d | None => Raise ValueError end
  | _ => Raise TypeError
  end.

(** *** Forecast parser *)

Definition parse_forecast (forecast : raw) : W (datetime * point) :=
  v ← wlift (getitem forecast "local_date_time");
  date ← wlift (datetime_fromisoformat v);
  v ← wlift (getitem forecast "SYMBOL_CODE");
  symbol_id ← wlift (py_int v);
  condition ← get_condition_from_symbol symbol_id;
  v ← wlift (getitem forecast "RRR_MM");
  precip_total ← wlift (py_float v);
  v ← wlift (getitem forecast "FF_KMH");
  wind_speed ← wlift (py_float v);
  v ← wlift (getitem forecast "PROBPCP_PERCENT");
  percip_probability ← wlift (py_float v);
  wind_bearing ←
    match forecast !! "DD_DEG" with
    | Some v => b ← wlift (py_int v); mret (Some b)
    | None => mret None
    end;
  mret (date,
        {| p_datetime := isoformat date; p_condition := condition;
           p_symbol_id := symbol_id; p_precipitation := precip_total;
           p_wind_speed := wind_speed;
           p_precipitation_probability := percip_probability;
           p_wind_bearing := wind_bearing;
           p_temperature := None; p_templow := None |}).

Definition parse_forecast_day (day : raw) : W (datetime * point) :=
  '(date, data) ← parse_forecast day;
  v ← wlift (getitem day "TX_C");
  temp_high ← wlift (py_float v);
  v ← wlift (getitem day "TN_C");
  temp_low ← wlift (py_float v);
  mret (date, update_temperature_templow temp_high temp_low data).

Definition parse_forecast_hour (hour : raw) : W (datetime * point) :=
  '(date, data) ← parse_forecast hour;
  v ← wlift (getitem hour "TTT_C");
  temperature ← wlift (py_float v);
  mret (date, update_temperature temperature data).

(** *** Forecast merge: the three loops of [__update]

    [try: ... except Exception: logger.warning(...); continue] around a
    parser: [None] stands for the [continue]. *)
Definition try_parse (src : source) (r : raw) (m : W (datetime * point))
  : W (option (datetime * point)) :=
  match m with
  | (l, Ok x) => (l, Ok (Some x))
  | (l, Raise e) =>
      if is_Exception e then (l ++ [WarnParseFailed src r], Ok None)
      else (l, Raise e)
  end.

Fixpoint hourly_loop (now hourly_split : datetime) (raws : list raw)
    (forecast : list point) : W (list point) :=
  match raws with
  | [] => mret forecast
  | raw_hour :: rest =>
      parsed ← try_parse Hourly raw_hour (parse_forecast_hour raw_hour);
      match parsed with
      | None => hourly_loop now hourly_split rest forecast
      | Some (fdate, hour) =>
          past ← wlift (dt_lt fdate now);
          if (past : bool) then hourly_loop now hourly_split rest forecast
          else
            late ← wlift (dt_gt fdate hourly_split);
            if (late : bool) then mret forecast
            else hourly_loop now hourly_split rest (forecast ++ [hour])
      end
  end.

Fixpoint triple_hour_loop (hourly_split triple_hour_split : datetime)
    (raws : list raw) (forecast : list point) : W (list point) :=
  match raws with
  | [] => mret forecast
  | raw_three_hour :: rest =>
      parsed ← try_parse TripleHourly raw_three_hour
                 (parse_forecast_hour raw_three_hour);
      match parsed with
      | None => triple_hour_loop hourly_split triple_hour_split rest forecast
      | Some (fdate, three_hour) =>
          early ← wlift (dt_le fdate hourly_split);
          if (early : bool)
          then triple_hour_loop hourly_split triple_hour_split rest forecast
          else
            late ← wlift (dt_gt fdate triple_hour_split);
            if (late : bool) then mret forecast
            else triple_hour_loop hourly_split triple_hour_split rest
                   (forecast ++ [three_hour])
      end
  end.

Fixpoint daily_loop (triple_hour_split : datetime) (raws : list raw)
    (forecast : list point) : W (list point) :=
  match raws with
  | [] => mret forecast
  | raw_day :: rest =>
      parsed ← try_parse Daily raw_day (parse_forecast_day raw_day);
      match parsed with
      | None => daily_loop triple_hour_split rest forecast
      | Some (fdate, day) =>
          early ← wlift (dt_le fdate triple_hour_split);
          if (early : bool) then daily_loop triple_hour_split rest forecast
          else daily_loop triple_hour_split rest (forecast ++ [day])
      end
  end.

Definition hourly_cutoff (now : datetime) : datetime :=
  dt_add now (12 * usec_per_hour).

Definition daily_cutoff (now : datetime) : datetime :=
  replace_hour_0 (dt_add now (2 * usec_per_day)).

(** Lines 214 to 272 of [__update], [now] being already read and truncated. *)
Definition merge (now : datetime) (data : document) : W (list point) :=
  let forecast := [] in
  let hourly_split := hourly_cutoff now in
  f ← wlift (getitem data "forecast");
  raws ← wlift (getitem f "60minutes");
  forecast ← hourly_loop now hourly_split raws forecast;
  let triple_hour_split := daily_cutoff now in
  f ← wlift (getitem data "forecast");
  raws ← wlift (getitem f "hour");
  forecast ← triple_hour_loop hourly_split triple_hour_split raws forecast;
  f ← wlift (getitem data "forecast");
  raws ← wlift (getitem f "day");
  forecast ← daily_loop triple_hour_split raws forecast;
  mret forecast.

(** *** Token cache *)

Definition time_time : M Q := λ s, (tick s, Ok (clock (ticks s))).

Definition datetime_now_astimezone : M datetime := λ s,
  (tick s, Ok {| wall := fst (localtime (ticks s));
                 utcoffset := Some (snd (localtime (ticks s))) |}).

Definition EXPECTED_KEYS : gset string :=
  {[ "issued_at"; "expires_in"; "access_token" ]}.

(** The dictionary is changed in place; the changed dictionary is returned
    for the caller, who holds the same object. *)
Definition _check_client_credentials_response (d : gmap string pyval)
  : M (gmap string pyval) :=
  d ← (if decide ("issued_at" ∈ dom d) then mret d
       else t ← time_time; mret (<["issued_at" := VInt (Qtrunc t)]> d));
  let missing := EXPECTED_KEYS ∖ dom d in
  if decide (missing = ∅) then mret d
  else _ ← logger (WarnMissingKeys missing d); raise (MissingKeys missing).

Definition request_access_token (key secret : pyval) : M (gmap string pyval) :=
  data ← lift (session_post key secret);
  _check_client_credentials_response data.

(** [try: body except Exception: logger.exception(...); raise]. *)
Definition reraise_logged {A} (body : M A) (ev : event) : M A := λ s,
  match body s with
  | (s', Raise e) =>
      if is_Exception e then (add_log [ev] s', Raise e) else (s', Raise e)
  | r => r
  end.

(** [data[key] = v] on the credential dictionary. *)
Definition setitem (key : string) (v : pyval) : M unit :=
  modify (λ s, set_api_data (<[key := v]> (_api_data s)) s).

Definition _renew_api_key : M unit :=
  s ← get_state;
  key ← lift (getitem (_api_data s) CONF_CONSUMER_KEY);
  secret ← lift (getitem (_api_data s) CONF_CONSUMER_SECRET);
  token_data ← request_access_token key secret;
  reraise_logged
    (v ← lift (getitem token_data "expires_in");
     expires_in ← lift (py_int v);
     v ← lift (getitem token_data "issued_at");
     issued_at ← lift (py_int v);
     _ ← setitem ATTR_EXPIRES_AT (VInt (expires_in + issued_at / 1000));
     v ← lift (getitem token_data "access_token");
     setitem ATTR_API_KEY v)
    (ExcTokenResponse token_data).

Definition get_api_key : M pyval :=
  s ← get_state;
  renew ←
    match _api_data s !! ATTR_EXPIRES_AT with
    | None => mret true
    | Some expires_at => t ← time_time; lift (float_ge t expires_at)
    end;
  _ ← (if (renew : bool) then _ ← logger InfoRenewing; _renew_api_key
       else mret tt);
  s ← get_state;
  lift (getitem (_api_data s) ATTR_API_KEY).

(** [_get] on the forecast URL of a location. On [HTTP_OK] the arguments of
    the debug line on the rate limit are evaluated: [int] of the reset header,
    0 when it is absent, divided by 1000 and given to [fromtimestamp].
    [raise_for_status] raises on a status of 400 and above, after the body
    has been decoded. *)
Definition _get (geolocation_id : pyval) : M document :=
  api_key ← get_api_key;
  resp ← lift (session_get geolocation_id api_key);
  _ ← (if status resp =? HTTP_OK then
         reset ← lift (py_int
                         (default (VInt 0)
                            (VStr <$> headers resp !! "x-ratelimit-reset-time")));
         _ ← lift (fromtimestamp (Qmake reset 1000));
         mret tt
       else mret tt);
  data ← lift (json resp);
  _ ← (if 400 <=? status resp then raise (HTTPError (status resp))
       else mret tt);
  mret data.

(** *** The refresh cycle *)

Definition __update : M unit :=
  s ← get_state;
  data ← _get (_geolocation_id s);
  now ← datetime_now_astimezone;
  let now := replace_minute_second_microsecond_0 now in
  forecast ← run_W (merge now data);
  _ ← modify (set_forecast forecast);
  (* [forecast.pop(0)]: [self._forecast] is the same list object *)
  match forecast with
  | [] => raise IndexError
  | forecastnow :: rest =>
      _ ← modify (set_forecast rest);
      _ ← modify (set_state (p_condition forecastnow));
      t ← lift (point_item "temperature" (p_temperature forecastnow));
      _ ← modify (set_temperature t);
      _ ← modify (set_wind_speed (p_wind_speed forecastnow));
      b ← lift (point_item "wind_bearing" (p_wind_bearing forecastnow));
      c ← lift (deg_to_cardinal (NInt b));
      _ ← modify (set_wind_bearing c);
      b ← lift (point_item "wind_bearing" (p_wind_bearing forecastnow));
      modify (λ s, set_state_attrs
        (<["precipitation_probability" :=
             VFloat (p_precipitation_probability forecastnow)]>
         (<["precipitation" := VFloat (p_precipitation forecastnow)]>
          (<["symbol_id" := VInt (p_symbol_id forecastnow)]>
           (<["wind_direction" := VInt b]> (_state_attrs s))))) s)
  end.

Definition async_update : M unit := λ s,
  match __update s with
  | (s', Raise e) =>
      if is_Exception e then (add_log [ExcUpdateFailed e] s', Ok tt)
      else (s', Raise e)
  | r => r
  end.

(** *** Observations that depend on the parameters *)

(** The store holds no expiry, or the clock has reached the one it holds. *)
Definition expired (s : state) : Prop :=
  _api_data s !! ATTR_EXPIRES_AT = None
  ∨ ∃ e, _api_data s !! ATTR_EXPIRES_AT = Some (VInt e)
         ∧ (inject_Z e <= clock (ticks s))%Q.

(** The parser a source is read with. *)
Definition parse_of (src : source) : raw -> W (datetime * point) :=
  match src with
  | Daily => parse_forecast_day
  | Hourly | TripleHourly => parse_forecast_hour
  end.

(** [now] as [__update] computes it at the reading numbered [k]. *)
Definition now_at (k : nat) : datetime :=
  replace_minute_second_microsecond_0
    {| wall := (localtime k).1; utcoffset := Some (localtime k).2 |}.

(** * Properties *)

(** ** Token cache *)

Lemma elem_of_EXPECTED_KEYS k :
  k ∈ EXPECTED_KEYS ↔ k = "issued_at" ∨ k = "expires_in" ∨ k = "access_token".
Proof using Type. clear. unfold EXPECTED_KEYS. rewrite !elem_of_union, !elem_of_singleton. naive_solver. Qed.

Lemma elem_of_required k :
  k ∈ ({[ "expires_in"; "access_token" ]} : gset string)
  ↔ k = "expires_in" ∨ k = "access_token".
Proof using Type. clear. rewrite !elem_of_union, !elem_of_singleton. naive_solver. Qed.

Lemma missing_without_issued_at (D : gset string) :
  "issued_at" ∈ D ->
  EXPECTED_KEYS ∖ D = ({[ "expires_in"; "access_token" ]} : gset string) ∖ D.
Proof using Type. clear.
  intros Hi. apply set_eq. intros k.
  rewrite !elem_of_difference, elem_of_EXPECTED_KEYS, elem_of_required.
  split; [|naive_solver]. intros [[Hk|Hk] Hn]; [subst; naive_solver | naive_solver].
Qed.

Lemma missing_insert_issued_at (D : gset string) :
  EXPECTED_KEYS ∖ ({[ "issued_at" ]} ∪ D)
  = ({[ "expires_in"; "access_token" ]} : gset string) ∖ D.
Proof using Type. clear.
  rewrite missing_without_issued_at by (apply elem_of_union_l, elem_of_singleton; reflexivity).
  apply set_eq. intros k.
  rewrite !elem_of_difference, elem_of_required, elem_of_union, elem_of_singleton.
  split; [naive_solver|]. intros [Hk Hn]. split; [done|]. intros [Hi|HD]; [|done].
  subst k. destruct Hk as [Hk|Hk]; discriminate Hk.
Qed.

Lemma missing_nonempty (D : gset string) :
  "access_token" ∉ D ∨ "expires_in" ∉ D ->
  ({[ "expires_in"; "access_token" ]} : gset string) ∖ D ≠ ∅.
Proof using Type. clear.
  intros Hm He.
  assert (Hx : ∀ k, k ∉ ({[ "expires_in"; "access_token" ]} : gset string) ∖ D).
  { intros k. rewrite He. apply not_elem_of_empty. }
  destruct Hm as [Hm|Hm].
  - apply (Hx "access_token"). rewrite elem_of_difference, elem_of_required. naive_solver.
  - apply (Hx "expires_in"). rewrite elem_of_difference, elem_of_required. naive_solver.
Qed.

Lemma missing_empty (D : gset string) :
  "expires_in" ∈ D -> "access_token" ∈ D ->
  ({[ "expires_in"; "access_token" ]} : gset string) ∖ D = ∅.
Proof using Type. clear.
  intros H1 H2. apply set_eq. intros k.
  rewrite elem_of_difference, elem_of_required. split.
  - intros [[->| ->] Hn]; naive_solver.
  - intros H. by apply not_elem_of_empty in H.
Qed.

Lemma add_log_nil s : add_log [] s = s.
Proof using Type. clear. destruct s; unfold add_log; simpl. by rewrite app_nil_r. Qed.

(** What a renewal writes when the exchange response is complete: the
    expiry is [expires_in] plus the thousandth of [issued_at], whichever way
    [issued_at] was obtained. *)
Lemma renew_stores_expiry (s : state) (d : gmap string pyval)
    (key secret v_in tok : pyval) (expires_in issued_at : Z) :
  _api_data s !! CONF_CONSUMER_KEY = Some key ->
  _api_data s !! CONF_CONSUMER_SECRET = Some secret ->
  session_post key secret = Ok d ->
  d !! "expires_in" = Some v_in ->
  py_int v_in = Ok expires_in ->
  d !! "access_token" = Some tok ->
  match d !! "issued_at" with
  | Some v => py_int v
  | None => Ok (Qtrunc (clock (ticks s)))
  end = Ok issued_at ->
  ATTR_API_KEY ≠ ATTR_EXPIRES_AT ->
  ∃ s', _renew_api_key s = (s', Ok tt)
        ∧ _api_data s' !! ATTR_EXPIRES_AT
          = Some (VInt (expires_in + issued_at / 1000))
        ∧ _api_data s' !! ATTR_API_KEY = Some tok.
Proof using Type. clear.
  intros Hk Hs Hp Hin Hint Htok Hiss Hne.
  assert (Hd1 : "expires_in" ∈ dom d) by (apply elem_of_dom; eauto).
  assert (Hd2 : "access_token" ∈ dom d) by (apply elem_of_dom; eauto).
  unfold _renew_api_key, request_access_token, _check_client_credentials_response.
  unfold mbind, M_bind, get_state, lift, getitem. rewrite Hk, Hs. simpl. rewrite Hp.
  destruct (decide ("issued_at" ∈ dom d)) as [Hi|Hi]; simpl.
  - apply elem_of_dom in Hi as Hi'. destruct Hi' as [v Hv]. rewrite Hv in Hiss.
    rewrite (missing_without_issued_at _ Hi), (missing_empty _ Hd1 Hd2).
    rewrite decide_True by done.
    unfold reraise_logged, setitem, modify; simpl.
    rewrite Hin, Hint, Hv, Hiss, Htok. eexists; split; [reflexivity|]. simpl.
    split; [by rewrite lookup_insert_ne, lookup_insert_eq | by rewrite lookup_insert_eq].
  - apply not_elem_of_dom in Hi as Hi'. rewrite Hi' in Hiss. injection Hiss as <-.
    rewrite dom_insert_L, missing_insert_issued_at, (missing_empty _ Hd1 Hd2).
    rewrite decide_True by done.
    unfold reraise_logged, setitem, modify; simpl.
    rewrite lookup_insert_eq.
    rewrite !lookup_insert_ne by done. rewrite Hin, Hint, Htok.
    eexists; split; [reflexivity|]. simpl.
    split; [by rewrite lookup_insert_ne, lookup_insert_eq | by rewrite lookup_insert_eq].
Qed.

(** C5: an exchange response that lacks [access_token] or [expires_in] makes
    the renewal fail with the missing-keys error (the spec's
    MalformedCredentialResponse), and the credential dictionary, token and
    expiry included, is what it was before. *)
Theorem renew_missing_keys_store_untouched (s : state) (d : gmap string pyval)
    (key secret : pyval) :
  _api_data s !! CONF_CONSUMER_KEY = Some key ->
  _api_data s !! CONF_CONSUMER_SECRET = Some secret ->
  session_post key secret = Ok d ->
  "access_token" ∉ dom d ∨ "expires_in" ∉ dom d ->
  ∃ s' missing,
    _renew_api_key s = (s', Raise (MissingKeys missing))
    ∧ missing = ({[ "expires_in"; "access_token" ]} : gset string) ∖ dom d
    ∧ missing ≠ ∅
    ∧ _api_data s' = _api_data s
    ∧ published s' = published s.
Proof using Type. clear.
  intros Hk Hs Hp Hm. apply missing_nonempty in Hm.
  unfold _renew_api_key, request_access_token, _check_client_credentials_response.
  unfold mbind, M_bind, get_state, lift, getitem. rewrite Hk, Hs. simpl. rewrite Hp.
  destruct (decide ("issued_at" ∈ dom d)) as [Hi|Hi]; simpl.
  - rewrite (missing_without_issued_at _ Hi). rewrite decide_False by done.
    simpl. by do 2 eexists.
  - rewrite dom_insert_L, missing_insert_issued_at. rewrite decide_False by done.
    simpl. by do 2 eexists.
Qed.

Lemma renewals_app l1 l2 : renewals (l1 ++ l2) = (renewals l1 + renewals l2)%nat.
Proof using Type. clear. unfold renewals. by rewrite List.filter_app, length_app. Qed.

Lemma renewals_singleton ev :
  renewals [ev] = if is_renewing ev then 1%nat else 0%nat.
Proof using Type. clear. unfold renewals; simpl. by destruct (is_renewing ev). Qed.

#[local] Arguments renewals : simpl never.

#[local] Instance same_renewals_preorder : PreOrder same_renewals.
Proof using Type. clear. split; unfold same_renewals; [done | intros x y z; congruence]. Qed.

#[local] Instance same_published_preorder : PreOrder same_published.
Proof using Type. clear. split; unfold same_published; [done | intros x y z; congruence]. Qed.

Section Preserves.
Context (R : relation state) `{!PreOrder R}.

Lemma preserves_ret {A} (a : A) : preserves R (mret a).
Proof. intros s. simpl. reflexivity. Qed.

Lemma preserves_raise {A} (e : exn) : preserves R (raise (A:=A) e).
Proof. intros s. simpl. reflexivity. Qed.

Lemma preserves_lift {A} (r : result A) : preserves R (lift r).
Proof. intros s. simpl. reflexivity. Qed.

Lemma preserves_get_state : preserves R get_state.
Proof. intros s. simpl. reflexivity. Qed.

Lemma preserves_bind {A B} (m : M A) (f : A -> M B) :
  preserves R m -> (∀ a, preserves R (f a)) -> preserves R (m ≫= f).
Proof.
  intros Hm Hf s. unfold mbind, M_bind. specialize (Hm s).
  destruct (m s) as [s' [a|e]]; simpl in *; [|done].
  by etrans; [|apply Hf].
Qed.

Lemma preserves_modify (f : state -> state) :
  (∀ s, R s (f s)) -> preserves R (modify f).
Proof. intros Hf s. apply Hf. Qed.

Lemma preserves_if {A} (b : bool) (m1 m2 : M A) :
  preserves R m1 -> preserves R m2 -> preserves R (if b then m1 else m2).
Proof. by destruct b. Qed.

Lemma preserves_reraise_logged {A} (m : M A) ev :
  preserves R m -> (∀ s, R s (add_log [ev] s)) ->
  preserves R (reraise_logged m ev).
Proof.
  intros Hm Hl s. unfold reraise_logged. specialize (Hm s).
  destruct (m s) as [s' [a|e]]; simpl in *; [done|].
  destruct (is_Exception e); simpl; [|done]. by etrans.
Qed.
End Preserves.

Ltac preserves_step :=
  first
  [ apply preserves_ret
  | apply preserves_raise
  | apply preserves_lift
  | apply preserves_get_state
  | apply preserves_bind; [| |intros ?]
  | apply preserves_reraise_logged
  | apply preserves_if ];
  try apply _.

Lemma time_time_same_renewals : preserves same_renewals time_time.
Proof using Type. clear. done. Qed.

Lemma time_time_same_published : preserves same_published time_time.
Proof using Type. clear. done. Qed.

Lemma logger_same_renewals ev :
  is_renewing ev = false -> preserves same_renewals (logger ev).
Proof using Type. clear.
  intros Hev s. unfold same_renewals; simpl.
  rewrite renewals_app, renewals_singleton, Hev. lia.
Qed.

Lemma logger_same_published ev : preserves same_published (logger ev).
Proof using Type. clear. done. Qed.

Lemma setitem_same_renewals k v : preserves same_renewals (setitem k v).
Proof using Type. clear. done. Qed.

Lemma setitem_same_published k v : preserves same_published (setitem k v).
Proof using Type. clear. done. Qed.

Lemma check_same_renewals d :
  preserves same_renewals (_check_client_credentials_response d).
Proof using Type. clear.
  unfold _check_client_credentials_response.
  preserves_step.
  - case_decide; repeat preserves_step. apply time_time_same_renewals.
  - case_decide; repeat preserves_step. by apply logger_same_renewals.
Qed.

Lemma renew_same_renewals : preserves same_renewals _renew_api_key.
Proof using Type. clear.
  unfold _renew_api_key, request_access_token.
  repeat first
    [ apply setitem_same_renewals | apply check_same_renewals | preserves_step ].
  intros s. unfold same_renewals; simpl.
  rewrite renewals_app, renewals_singleton. simpl. lia.
Qed.

Lemma Qle_bool_false_iff (a b : Q) : Qle_bool a b = false ↔ (b < a)%Q.
Proof using Type. clear.
  split.
  - intros Hf. apply Qnot_le_lt. intros Hle. apply Qle_bool_iff in Hle. congruence.
  - intros Hlt. destruct (Qle_bool a b) eqn:E; [|done].
    apply Qle_bool_iff in E. exfalso. by apply (Qlt_not_le _ _ Hlt).
Qed.

(** C10: a recorded expiry in the future without a stored token: no renewal
    is started, the dictionary is not written, and the lookup of the cached
    token raises [KeyError]. *)
Theorem get_api_key_expiry_without_token (s : state) (e : Z) :
  _api_data s !! ATTR_EXPIRES_AT = Some (VInt e) ->
  (clock (ticks s) < inject_Z e)%Q ->
  _api_data s !! ATTR_API_KEY = None ->
  get_api_key s = (tick s, Raise (KeyError ATTR_API_KEY))
  ∧ renewals (log (get_api_key s).1) = renewals (log s)
  ∧ _api_data (get_api_key s).1 = _api_data s.
Proof using Type. clear.
  intros He Hlt Hk. apply Qle_bool_false_iff in Hlt.
  assert (Heq : get_api_key s = (tick s, Raise (KeyError ATTR_API_KEY))).
  { unfold get_api_key, mbind, M_bind, get_state, time_time, lift, getitem; simpl.
    rewrite He; simpl. rewrite Hlt; simpl. by rewrite Hk. }
  by rewrite Heq.
Qed.

(** C6: [get_api_key] starts a renewal exactly when the store has no expiry
    or the clock reading is at or past it, the boundary included; otherwise
    it answers with the lookup of the cached token and writes nothing. *)
Theorem get_api_key_renews_iff_expired (s : state) :
  (∀ v, _api_data s !! ATTR_EXPIRES_AT = Some v -> ∃ e, v = VInt e) ->
  (renewals (log (get_api_key s).1) = S (renewals (log s)) ↔ expired s)
  ∧ (expired s ->
     ∃ s0, (s0 = s ∨ s0 = tick s)
       ∧ get_api_key s
         = (_ ← _renew_api_key; s' ← get_state;
            lift (getitem (_api_data s') ATTR_API_KEY)) (add_log [InfoRenewing] s0))
  ∧ (¬ expired s ->
     get_api_key s = (tick s, getitem (_api_data s) ATTR_API_KEY)
     ∧ (∀ tok, _api_data s !! ATTR_API_KEY = Some tok ->
               (get_api_key s).2 = Ok tok)).
Proof using Type. clear.
  intros Hint.
  assert (Hrun : ∀ s0, same_renewals s s0 ->
    renewals (log ((_ ← _renew_api_key; s' ← get_state;
            lift (getitem (_api_data s') ATTR_API_KEY)) (add_log [InfoRenewing] s0)).1)
    = S (renewals (log s))).
  { intros s0 Hs0.
    assert (Hp : preserves same_renewals
              (_ ← _renew_api_key; s' ← get_state;
               lift (getitem (_api_data s') ATTR_API_KEY))).
    { repeat first [ apply renew_same_renewals | preserves_step ]. }
    rewrite (Hp (add_log [InfoRenewing] s0)). simpl.
    rewrite renewals_app, renewals_singleton. simpl.
    unfold same_renewals in Hs0. lia. }
  destruct (_api_data s !! ATTR_EXPIRES_AT) as [v|] eqn:Hv.
  - destruct (Hint v eq_refl) as [e ->].
    assert (Heq : get_api_key s =
      if Qle_bool (inject_Z e) (clock (ticks s))
      then (_ ← _renew_api_key; s' ← get_state;
            lift (getitem (_api_data s') ATTR_API_KEY)) (add_log [InfoRenewing] (tick s))
      else (tick s, getitem (_api_data s) ATTR_API_KEY)).
    { unfold get_api_key at 1. unfold mbind at 1 2 3, M_bind at 1 2 3.
      unfold get_state at 1. simpl. rewrite Hv. simpl.
      destruct (Qle_bool (inject_Z e) (clock (ticks s))); reflexivity. }
    destruct (Qle_bool (inject_Z e) (clock (ticks s))) eqn:Hle.
    + assert (Hex : expired s).
      { right. exists e. split; [done|]. by apply Qle_bool_iff. }
      split_and!.
      * rewrite Heq. split; [done|]. intros _. by apply Hrun.
      * intros _. exists (tick s). split; [by right|done].
      * intros Hn. by destruct Hn.
    + assert (Hex : ¬ expired s).
      { intros [Hn|(e' & He' & Hle')]; [congruence|].
        rewrite Hv in He'. simplify_eq. apply Qle_bool_iff in Hle'. congruence. }
      split_and!.
      * rewrite Heq. simpl. split; [lia|done].
      * intros Hn. by destruct Hex.
      * intros _. rewrite Heq. split; [done|]. intros tok Htok. simpl.
        unfold getitem. by rewrite Htok.
  - assert (Heq : get_api_key s =
      (_ ← _renew_api_key; s' ← get_state;
            lift (getitem (_api_data s') ATTR_API_KEY)) (add_log [InfoRenewing] s)).
    { unfold get_api_key at 1. unfold mbind at 1 2 3, M_bind at 1 2 3.
      unfold get_state at 1. simpl. rewrite Hv. reflexivity. }
    assert (Hex : expired s) by (by left).
    split_and!.
    + rewrite Heq. split; [done|]. intros _. by apply Hrun.
    + intros _. exists s. split; [by left|done].
    + intros Hn. by destruct Hn.
Qed.

(** ** Forecast merge *)

Lemma W_bind_Ok {A B} (m : W A) (f : A -> W B) l a :
  m = (l, Ok a) -> m ≫= f = (l ++ (f a).1, (f a).2).
Proof using Type. clear. intros ->. unfold mbind, W_bind. by destruct (f a). Qed.

Lemma W_bind_Raise {A B} (m : W A) (f : A -> W B) l e :
  m = (l, Raise e) -> m ≫= f = (l, Raise e).
Proof using Type. clear. by intros ->. Qed.

Lemma wlift_bind {A B} (r : result A) (f : A -> W B) a :
  r = Ok a -> wlift r ≫= f = f a.
Proof using Type. clear. intros ->. unfold wlift, mbind, W_bind. by destruct (f a). Qed.

Lemma stamped_Some parse (r : raw) i p :
  stamped (parse r) = Some (i, p) ->
  ∃ l d off, parse r = (l, Ok (d, p)) ∧ utcoffset d = Some off ∧ i = wall d - off.
Proof using Type. clear.
  unfold stamped, instant. destruct (parse r) as [l [[d p']|e]]; simpl; [|done].
  destruct (utcoffset d) as [off|] eqn:Hoff; [|done].
  intros [= <- <-]. by exists l, d, off.
Qed.

Section Aware.
Variables (a b : datetime) (oa ob : Z).
Hypothesis Ha : utcoffset a = Some oa.
Hypothesis Hb : utcoffset b = Some ob.

Lemma dt_lt_aware : dt_lt a b = Ok (wall a - oa <? wall b - ob).
Proof.
  unfold dt_lt, dt_compare. rewrite Ha, Hb, Z.ltb_compare.
  by destruct (wall a - oa ?= wall b - ob).
Qed.

Lemma dt_gt_aware : dt_gt a b = Ok (wall b - ob <? wall a - oa).
Proof.
  unfold dt_gt, dt_compare. rewrite Ha, Hb, Z.ltb_antisym, Z.leb_compare.
  by destruct (wall a - oa ?= wall b - ob).
Qed.

Lemma dt_le_aware : dt_le a b = Ok (wall a - oa <=? wall b - ob).
Proof.
  unfold dt_le, dt_compare. rewrite Ha, Hb, Z.leb_compare.
  by destruct (wall a - oa ?= wall b - ob).
Qed.
End Aware.

Lemma filter_none {A} (P : A -> Prop) `{∀ x, Decision (P x)} (l : list A) :
  Forall (λ x, ¬ P x) l -> filter P l = [].
Proof using Type. clear.
  induction 1 as [|x l Hx _ IH]; [done|]. by rewrite filter_cons_False.
Qed.

Lemma Forall_fst_stamps (Q : Z -> Prop) (l : list (Z * point)) :
  Forall Q l.*1 -> Forall (λ x, Q x.1) l.
Proof using Type. clear. by rewrite Forall_fmap. Qed.

Lemma stamps_cons_Some parse (r : raw) l x :
  stamped (parse r) = Some x -> stamps parse (r :: l) = x :: stamps parse l.
Proof using Type. clear. intros H. unfold stamps; simpl. by rewrite H. Qed.

Lemma hourly_loop_cons now hs raw_hour rest forecast :
  hourly_loop now hs (raw_hour :: rest) forecast
  = (parsed ← try_parse Hourly raw_hour (parse_forecast_hour raw_hour);
     match parsed with
     | None => hourly_loop now hs rest forecast
     | Some (fdate, hour) =>
         past ← wlift (dt_lt fdate now);
         if (past : bool) then hourly_loop now hs rest forecast
         else
           late ← wlift (dt_gt fdate hs);
           if (late : bool) then mret forecast
           else hourly_loop now hs rest (forecast ++ [hour])
     end).
Proof using Type. clear. reflexivity. Qed.

Lemma triple_hour_loop_cons hs ts raw_three_hour rest forecast :
  triple_hour_loop hs ts (raw_three_hour :: rest) forecast
  = (parsed ← try_parse TripleHourly raw_three_hour
                (parse_forecast_hour raw_three_hour);
     match parsed with
     | None => triple_hour_loop hs ts rest forecast
     | Some (fdate, three_hour) =>
         early ← wlift (dt_le fdate hs);
         if (early : bool) then triple_hour_loop hs ts rest forecast
         else
           late ← wlift (dt_gt fdate ts);
           if (late : bool) then mret forecast
           else triple_hour_loop hs ts rest (forecast ++ [three_hour])
     end).
Proof using Type. clear. reflexivity. Qed.

Lemma daily_loop_cons ts raw_day rest forecast :
  daily_loop ts (raw_day :: rest) forecast
  = (parsed ← try_parse Daily raw_day (parse_forecast_day raw_day);
     match parsed with
     | None => daily_loop ts rest forecast
     | Some (fdate, day) =>
         early ← wlift (dt_le fdate ts);
         if (early : bool) then daily_loop ts rest forecast
         else daily_loop ts rest (forecast ++ [day])
     end).
Proof using Type. clear. reflexivity. Qed.

Lemma try_parse_Ok src r l x : try_parse src r (l, Ok x) = (l, Ok (Some x)).
Proof using Type. clear. reflexivity. Qed.

Lemma hourly_loop_spec now hs on ohs raws forecast :
  utcoffset now = Some on -> utcoffset hs = Some ohs ->
  let n := wall now - on in
  let hc := wall hs - ohs in
  parseable parse_forecast_hour raws ->
  StronglySorted Z.le (stamps parse_forecast_hour raws).*1 ->
  (hourly_loop now hs raws forecast).2
  = Ok (forecast
        ++ (filter (in_hourly_window n hc) (stamps parse_forecast_hour raws)).*2).
Proof.
  intros Hnow Hhs n hc Hp Hs. revert forecast Hp Hs.
  induction raws as [|r rest IH]; intros forecast Hp Hs.
  { simpl. by rewrite app_nil_r. }
  apply Forall_cons in Hp as [[[i p] Hr] Hp].
  rewrite (stamps_cons_Some _ _ _ _ Hr) in Hs |- *. rewrite fmap_cons in Hs.
  apply StronglySorted_cons in Hs as [Hall Hs].
  destruct (stamped_Some _ _ _ _ Hr) as (l & d & off & Hparse & Hoff & ->).
  rewrite hourly_loop_cons, Hparse, try_parse_Ok.
  erewrite W_bind_Ok by reflexivity. cbn [snd fst].
  rewrite (dt_lt_aware _ _ _ _ Hoff Hnow). erewrite wlift_bind by reflexivity.
  fold n. destruct (wall d - off <? n) eqn:Hlt.
  - apply Z.ltb_lt in Hlt. rewrite IH by done.
    rewrite filter_cons_False; [done|]. unfold in_hourly_window; simpl. lia.
  - apply Z.ltb_ge in Hlt.
    rewrite (dt_gt_aware _ _ _ _ Hoff Hhs). erewrite wlift_bind by reflexivity.
    fold hc. destruct (hc <? wall d - off) eqn:Hgt.
    + apply Z.ltb_lt in Hgt. cbn [mret W_ret snd].
      rewrite filter_cons_False by (unfold in_hourly_window; simpl; lia).
      rewrite filter_none; [by rewrite fmap_nil, app_nil_r|].
      apply Forall_fst_stamps in Hall. eapply Forall_impl; [exact Hall|].
      intros x Hx. unfold in_hourly_window; simpl in *. lia.
    + apply Z.ltb_ge in Hgt. rewrite IH by done.
      rewrite filter_cons_True by (unfold in_hourly_window; simpl; lia).
      rewrite fmap_cons. cbn [snd]. by rewrite <- app_assoc.
Qed.

Lemma triple_hour_loop_spec hs ts ohs ots raws forecast :
  utcoffset hs = Some ohs -> utcoffset ts = Some ots ->
  let hc := wall hs - ohs in
  let dc := wall ts - ots in
  parseable parse_forecast_hour raws ->
  StronglySorted Z.le (stamps parse_forecast_hour raws).*1 ->
  (triple_hour_loop hs ts raws forecast).2
  = Ok (forecast
        ++ (filter (in_triple_window hc dc) (stamps parse_forecast_hour raws)).*2).
Proof.
  intros Hhs Hts hc dc Hp Hs. revert forecast Hp Hs.
  induction raws as [|r rest IH]; intros forecast Hp Hs.
  { simpl. by rewrite app_nil_r. }
  apply Forall_cons in Hp as [[[i p] Hr] Hp].
  rewrite (stamps_cons_Some _ _ _ _ Hr) in Hs |- *. rewrite fmap_cons in Hs.
  apply StronglySorted_cons in Hs as [Hall Hs].
  destruct (stamped_Some _ _ _ _ Hr) as (l & d & off & Hparse & Hoff & ->).
  rewrite triple_hour_loop_cons, Hparse, try_parse_Ok.
  erewrite W_bind_Ok by reflexivity. cbn [snd fst].
  rewrite (dt_le_aware _ _ _ _ Hoff Hhs). erewrite wlift_bind by reflexivity.
  fold hc. destruct (wall d - off <=? hc) eqn:Hle.
  - apply Z.leb_le in Hle. rewrite IH by done.
    rewrite filter_cons_False; [done|]. unfold in_triple_window; simpl. lia.
  - apply Z.leb_gt in Hle.
    rewrite (dt_gt_aware _ _ _ _ Hoff Hts). erewrite wlift_bind by reflexivity.
    fold dc. destruct (dc <? wall d - off) eqn:Hgt.
    + apply Z.ltb_lt in Hgt. cbn [mret W_ret snd].
      rewrite filter_cons_False by (unfold in_triple_window; simpl; lia).
      rewrite filter_none; [by rewrite fmap_nil, app_nil_r|].
      apply Forall_fst_stamps in Hall. eapply Forall_impl; [exact Hall|].
      intros x Hx. unfold in_triple_window; simpl in *. lia.
    + apply Z.ltb_ge in Hgt. rewrite IH by done.
      rewrite filter_cons_True by (unfold in_triple_window; simpl; lia).
      rewrite fmap_cons. cbn [snd]. by rewrite <- app_assoc.
Qed.

Lemma daily_loop_spec ts ots raws forecast :
  utcoffset ts = Some ots ->
  let dc := wall ts - ots in
  parseable parse_forecast_day raws ->
  (daily_loop ts raws forecast).2
  = Ok (forecast
        ++ (filter (in_daily_window dc) (stamps parse_forecast_day raws)).*2).
Proof.
  intros Hts dc Hp. revert forecast Hp.
  induction raws as [|r rest IH]; intros forecast Hp.
  { simpl. by rewrite app_nil_r. }
  apply Forall_cons in Hp as [[[i p] Hr] Hp].
  rewrite (stamps_cons_Some _ _ _ _ Hr).
  destruct (stamped_Some _ _ _ _ Hr) as (l & d & off & Hparse & Hoff & ->).
  rewrite daily_loop_cons, Hparse, try_parse_Ok.
  erewrite W_bind_Ok by reflexivity. cbn [snd fst].
  rewrite (dt_le_aware _ _ _ _ Hoff Hts). erewrite wlift_bind by reflexivity.
  fold dc. destruct (wall d - off <=? dc) eqn:Hle.
  - apply Z.leb_le in Hle. rewrite IH by done.
    rewrite filter_cons_False; [done|]. unfold in_daily_window; simpl. lia.
  - apply Z.leb_gt in Hle. rewrite IH by done.
    rewrite filter_cons_True by (unfold in_daily_window; simpl; lia).
    rewrite fmap_cons. cbn [snd]. by rewrite <- app_assoc.
Qed.

Lemma W_bind_snd_Ok {A B} (m : W A) (f : A -> W B) a :
  m.2 = Ok a -> (m ≫= f).2 = (f a).2.
Proof using Type. clear.
  destruct m as [l r]; simpl; intros ->. unfold mbind, W_bind. by destruct (f a).
Qed.

Lemma forecast_document_forecast h t d :
  getitem (forecast_document h t d) "forecast"
  = Ok (<["60minutes" := h]> (<["hour" := t]> {[ "day" := d ]})).
Proof using Type. clear. unfold getitem, forecast_document. by rewrite lookup_singleton_eq. Qed.

Lemma forecast_arrays (h t d : list raw) :
  let f : gmap string (list raw) :=
    <["60minutes" := h]> (<["hour" := t]> {[ "day" := d ]}) in
  getitem f "60minutes" = Ok h ∧ getitem f "hour" = Ok t ∧ getitem f "day" = Ok d.
Proof using Type. clear.
  unfold getitem. split_and!.
  - by rewrite lookup_insert_eq.
  - by rewrite lookup_insert_ne, lookup_insert_eq.
  - by rewrite !lookup_insert_ne, lookup_singleton_eq.
Qed.

Lemma dt_hour_range d : 0 ≤ dt_hour d < 24.
Proof using Type. clear. unfold dt_hour. by apply Z.mod_pos_bound. Qed.

(** The hourly cutoff lies at least thirteen hours before the daily one. *)
Lemma cutoffs_ordered now :
  wall (hourly_cutoff now) + 13 * usec_per_hour ≤ wall (daily_cutoff now).
Proof using Type. clear.
  unfold hourly_cutoff, daily_cutoff, replace_hour_0. cbn [wall dt_add].
  pose proof (dt_hour_range (dt_add now (2 * usec_per_day))) as Hh.
  unfold usec_per_day, usec_per_hour in *. cbn [wall dt_add] in *. nia.
Qed.

(** For a [now] on the hour, the daily cutoff is the local midnight that
    begins the day of [now] plus two days. *)
Lemma daily_cutoff_is_midnight now :
  wall now mod usec_per_hour = 0 ->
  wall (daily_cutoff now) mod usec_per_day = 0
  ∧ wall (daily_cutoff now) ≤ wall now + 2 * usec_per_day
      < wall (daily_cutoff now) + usec_per_day.
Proof using Type. clear.
  intros Hh. unfold daily_cutoff, replace_hour_0, dt_hour. cbn [wall dt_add].
  unfold usec_per_day in *. set (H := usec_per_hour) in *.
  assert (HH : 0 < H) by (unfold H, usec_per_hour; lia).
  set (x := wall now + 2 * (24 * H)).
  assert (Hx : x mod H = 0).
  { unfold x. replace (wall now + 2 * (24 * H)) with (wall now + 48 * H) by lia.
    by rewrite Z.mod_add by lia. }
  assert (Hq : x = H * (x / H)) by (rewrite (Z.div_mod x H) at 1 by lia; lia).
  pose proof (Z.div_mod (x / H) 24 ltac:(lia)) as Hd.
  pose proof (Z.mod_pos_bound (x / H) 24 ltac:(lia)) as Hb.
  set (q := x / H) in *. set (h := q mod 24) in *. set (k := q / 24) in *.
  assert (Hval : x - h * H = k * (24 * H)) by nia.
  split.
  - rewrite Hval. by apply Z.mod_mul; lia.
  - nia.
Qed.

Section SortedSelection.
Variable R : relation Z.
Context `{!Transitive R}.
Hypothesis R_of_lt : ∀ x y, x < y -> R x y.

Lemma StronglySorted_filter_stamps (P : Z * point -> Prop)
    `{∀ x, Decision (P x)} (l : list (Z * point)) :
  StronglySorted R l.*1 -> StronglySorted R (filter P l).*1.
Proof.
  induction l as [|x l IH]; [done|].
  rewrite fmap_cons. intros [Hall Hs]%StronglySorted_cons.
  destruct (decide (P x)).
  - rewrite filter_cons_True by done. rewrite fmap_cons.
    apply StronglySorted_cons. split; [|by apply IH].
    rewrite Forall_fmap, Forall_forall in Hall |- *.
    intros y [_ Hy]%list_elem_of_filter. by apply Hall.
  - rewrite filter_cons_False by done. by apply IH.
Qed.

Lemma selection_sorted (n hc dc : Z) (h t d : list (Z * point)) :
  hc ≤ dc ->
  Sorted R h.*1 -> Sorted R t.*1 -> Sorted R d.*1 ->
  Sorted R (filter (in_hourly_window n hc) h
            ++ filter (in_triple_window hc dc) t
            ++ filter (in_daily_window dc) d).*1.
Proof.
  intros Hcd Hh Ht Hd. apply StronglySorted_Sorted.
  rewrite !fmap_app.
  apply StronglySorted_app_2; [|by apply StronglySorted_filter_stamps, Sorted_StronglySorted|].
  - intros x y [[x1 px] [-> [Hx _]%list_elem_of_filter]]%list_elem_of_fmap Hy.
    apply R_of_lt. unfold in_hourly_window in Hx. simpl in *.
    apply elem_of_app in Hy
      as [[[y1 py] [-> [Hy _]%list_elem_of_filter]]%list_elem_of_fmap
         |[[y1 py] [-> [Hy _]%list_elem_of_filter]]%list_elem_of_fmap].
    + unfold in_triple_window in Hy. simpl in *. lia.
    + unfold in_daily_window in Hy. simpl in *. lia.
  - apply StronglySorted_app_2;
      [|by apply StronglySorted_filter_stamps, Sorted_StronglySorted..].
    intros x y [[x1 px] [-> [Hx _]%list_elem_of_filter]]%list_elem_of_fmap
               [[y1 py] [-> [Hy _]%list_elem_of_filter]]%list_elem_of_fmap.
    apply R_of_lt. unfold in_triple_window, in_daily_window in *. simpl in *. lia.
Qed.
End SortedSelection.

(** C1: for a timezone-aware [now] and three arrays of records that parse to
    timezone-aware timestamps in ascending order, the merged sequence is the
    hourly points with [now <= t <= now+12h], then the tri-hourly points with
    [now+12h < t <= daily cutoff], then the daily points with
    [t > daily cutoff]; the sequence is ascending, and strictly so when the
    arrays are. The daily cutoff is [now + 48h] with its hour set to 0: for a
    [now] on the hour, as [__update] makes it, the midnight that begins that
    day. *)
Theorem merge_is_windowed_concatenation
    (now : datetime) (off : Z) (hourly tri_hourly daily : list raw) :
  utcoffset now = Some off ->
  parseable parse_forecast_hour hourly ->
  parseable parse_forecast_hour tri_hourly ->
  parseable parse_forecast_day daily ->
  ascending (stamps parse_forecast_hour hourly) ->
  ascending (stamps parse_forecast_hour tri_hourly) ->
  ascending (stamps parse_forecast_day daily) ->
  let n := wall now - off in
  let hc := n + 12 * usec_per_hour in
  let dc := wall (daily_cutoff now) - off in
  let merged :=
    filter (in_hourly_window n hc) (stamps parse_forecast_hour hourly)
    ++ filter (in_triple_window hc dc) (stamps parse_forecast_hour tri_hourly)
    ++ filter (in_daily_window dc) (stamps parse_forecast_day daily) in
  (merge now (forecast_document hourly tri_hourly daily)).2 = Ok merged.*2
  ∧ ascending merged
  ∧ (strictly_ascending (stamps parse_forecast_hour hourly) ->
     strictly_ascending (stamps parse_forecast_hour tri_hourly) ->
     strictly_ascending (stamps parse_forecast_day daily) ->
     strictly_ascending merged)
  ∧ (wall now mod usec_per_hour = 0 ->
     wall (daily_cutoff now) mod usec_per_day = 0
     ∧ wall (daily_cutoff now) ≤ wall now + 2 * usec_per_day
         < wall (daily_cutoff now) + usec_per_day).
Proof using Type. clear.
  intros Hoff Hph Hpt Hpd Hsh Hst Hsd n hc dc merged.
  assert (Hcd : hc ≤ dc).
  { pose proof (cutoffs_ordered now) as Hc. unfold hc, dc, n.
    unfold hourly_cutoff in Hc. cbn [wall dt_add] in Hc.
    unfold usec_per_hour in *. lia. }
  split_and!.
  - unfold merge. rewrite forecast_document_forecast.
    destruct (forecast_arrays hourly tri_hourly daily) as (H1 & H2 & H3).
    assert (Hhs : utcoffset (hourly_cutoff now) = Some off) by done.
    assert (Hts : utcoffset (daily_cutoff now) = Some off) by done.
    rewrite (wlift_bind _ _ _ eq_refl), H1, (wlift_bind _ _ _ eq_refl).
    erewrite W_bind_snd_Ok;
      [|apply (hourly_loop_spec now (hourly_cutoff now) off off _ _ Hoff Hhs);
        [done|by apply Sorted_StronglySorted; [apply _|]]].
    rewrite (wlift_bind _ _ _ eq_refl), H2, (wlift_bind _ _ _ eq_refl).
    erewrite W_bind_snd_Ok;
      [|apply (triple_hour_loop_spec (hourly_cutoff now) (daily_cutoff now)
                 off off _ _ Hhs Hts);
        [done|by apply Sorted_StronglySorted; [apply _|]]].
    rewrite (wlift_bind _ _ _ eq_refl), H3, (wlift_bind _ _ _ eq_refl).
    erewrite W_bind_snd_Ok;
      [|by apply (daily_loop_spec (daily_cutoff now) off _ _ Hts)].
    cbn [mret W_ret snd]. unfold merged. rewrite !fmap_app, app_nil_l, app_assoc.
    assert (E : wall (hourly_cutoff now) - off = hc).
    { unfold hc, n, hourly_cutoff. cbn [wall dt_add]. lia. }
    by rewrite E.
  - apply selection_sorted; [apply _|lia|done..].
  - intros Hh' Ht' Hd'. apply selection_sorted; [apply _|done|done..].
  - apply daily_cutoff_is_midnight.
Qed.

(** *** A record that fails to parse *)

Lemma raises_Exception_bind {A B} (m : W A) (f : A -> W B) :
  raises_Exception m -> (∀ a, raises_Exception (f a)) ->
  raises_Exception (m ≫= f).
Proof using Type. clear.
  intros Hm Hf e. destruct m as [l [a|e']]; unfold mbind, W_bind.
  - specialize (Hf a e). destruct (f a); simpl in *. done.
  - simpl. intros [= <-]. by apply Hm.
Qed.

Lemma raises_Exception_ret {A} (a : A) : raises_Exception (mret a).
Proof using Type. clear. by intros e. Qed.

Lemma raises_Exception_getitem {V} (d : gmap string V) k :
  raises_Exception (wlift (getitem d k)).
Proof using Type. clear. intros e. unfold getitem. destruct (d !! k); simpl; [done|]. by intros [= <-]. Qed.

Lemma raises_Exception_py_int v : raises_Exception (wlift (py_int v)).
Proof using Type. clear.
  intros e. destruct v as [| | |f|s|]; simpl; try done; try by intros [= <-].
  - destruct f; simpl; try done; by intros [= <-].
  - destruct (int_of_str s); simpl; [done|]. by intros [= <-].
Qed.

Lemma raises_Exception_py_float v : raises_Exception (wlift (py_float v)).
Proof using Type. clear.
  intros e. destruct v as [| |z| |s|]; simpl; try done; try by intros [= <-].
  - destruct (Float.is_finite _); simpl; [done|]. by intros [= <-].
  - destruct (float_of_str s); simpl; [done|]. by intros [= <-].
Qed.

Lemma raises_Exception_fromisoformat v :
  raises_Exception (wlift (datetime_fromisoformat v)).
Proof using Type. clear.
  intros e. destruct v as [| | | |s|]; simpl; try by intros [= <-].
  destruct (fromisoformat s); simpl; [done|]. by intros [= <-].
Qed.

Lemma raises_Exception_condition k : raises_Exception (get_condition_from_symbol k).
Proof using Type. clear.
  intros e. unfold get_condition_from_symbol.
  by destruct (SYMBOL_STATE_MAP !! k).
Qed.

Ltac raises_Exception_step :=
  first
  [ apply raises_Exception_ret
  | apply raises_Exception_getitem
  | apply raises_Exception_py_int
  | apply raises_Exception_py_float
  | apply raises_Exception_fromisoformat
  | apply raises_Exception_condition
  | apply raises_Exception_bind; [|intros ?] ].

Lemma parse_forecast_raises_Exception r : raises_Exception (parse_forecast r).
Proof using Type. clear.
  unfold parse_forecast. repeat raises_Exception_step.
  destruct (r !! "DD_DEG"); repeat raises_Exception_step.
Qed.

Lemma parse_of_raises_Exception src r : raises_Exception (parse_of src r).
Proof using Type. clear.
  destruct src; unfold parse_of, parse_forecast_hour, parse_forecast_day;
    (apply raises_Exception_bind; [apply parse_forecast_raises_Exception|]);
    intros [d p]; repeat raises_Exception_step.
Qed.

Lemma try_parse_failed src r e :
  (parse_of src r).2 = Raise e ->
  try_parse src r (parse_of src r)
  = ((parse_of src r).1 ++ [WarnParseFailed src r], Ok None).
Proof using Type. clear.
  intros He. pose proof (parse_of_raises_Exception src r e He) as Hex.
  unfold try_parse. destruct (parse_of src r) as [l res]; simpl in *.
  subst res. by rewrite Hex.
Qed.

Lemma skip_rel_refl {A} extra (x : W A) : skip_rel extra x x.
Proof using Type. clear. split; [done|]. exists x.1, []. rewrite app_nil_r. by split; [|left]. Qed.

Lemma skip_rel_here {A} extra (x : W A) : skip_rel extra ((extra ++ x.1), x.2) x.
Proof using Type. clear. split; [done|]. exists [], x.1. split; [done|]. by right. Qed.

Lemma skip_rel_bind_l {A B} extra (m : W B) (f1 f2 : B -> W A) :
  (∀ b, skip_rel extra (f1 b) (f2 b)) ->
  skip_rel extra (m ≫= f1) (m ≫= f2).
Proof using Type. clear.
  intros Hf. destruct m as [l [b|e]]; [|apply skip_rel_refl].
  rewrite !(W_bind_Ok _ _ l b eq_refl).
  destruct (Hf b) as (Hr & la & lb & H2 & H1).
  split; [done|]. cbn [fst]. exists (l ++ la), lb. rewrite H2.
  split; [by rewrite app_assoc|].
  destruct H1 as [-> | ->]; [left|right]; by rewrite <- !app_assoc.
Qed.

Lemma skip_rel_bind_r {A B} extra (x1 x2 : W B) (f : B -> W A) :
  skip_rel extra x1 x2 -> skip_rel extra (x1 ≫= f) (x2 ≫= f).
Proof using Type. clear.
  destruct x1 as [l1 r1], x2 as [l2 r2]. unfold skip_rel at 1. cbn [fst snd].
  intros [-> (la & lb & -> & H1)]. destruct r2 as [b|e].
  - rewrite !(W_bind_Ok _ _ _ b eq_refl). split; [done|]. cbn [fst].
    exists la, (lb ++ (f b).1). split; [by rewrite app_assoc|].
    destruct H1 as [-> | ->]; [left|right]; by rewrite <- !app_assoc.
  - split; [done|]. exists la, lb. by split.
Qed.

Lemma W_bind_ext {A B} (m : W A) (f g : A -> W B) :
  (∀ a, f a = g a) -> m ≫= f = m ≫= g.
Proof using Type. clear.
  intros Hfg. destruct m as [l [a|e]]; [|done].
  unfold mbind, W_bind. by rewrite Hfg.
Qed.

Lemma W_bind_ret {A} (m : W A) : m ≫= mret = m.
Proof using Type. clear.
  destruct m as [l [a|e]]; [|done].
  unfold mbind, W_bind, mret, W_ret. by rewrite app_nil_r.
Qed.

(** The merge of a document that has its three arrays is the three loops
    in sequence. *)
Lemma merge_forecast_document now hourly tri_hourly daily :
  merge now (forecast_document hourly tri_hourly daily)
  = (forecast ← hourly_loop now (hourly_cutoff now) hourly [];
     forecast ← triple_hour_loop (hourly_cutoff now) (daily_cutoff now)
                  tri_hourly forecast;
     daily_loop (daily_cutoff now) daily forecast).
Proof using Type. clear.
  unfold merge. rewrite !forecast_document_forecast.
  destruct (forecast_arrays hourly tri_hourly daily) as (H1 & H2 & H3).
  rewrite (wlift_bind _ _ _ eq_refl), H1, (wlift_bind _ _ _ eq_refl).
  apply W_bind_ext. intros forecast.
  rewrite (wlift_bind _ _ _ eq_refl), H2, (wlift_bind _ _ _ eq_refl).
  apply W_bind_ext. intros forecast'.
  rewrite (wlift_bind _ _ _ eq_refl), H3, (wlift_bind _ _ _ eq_refl).
  apply W_bind_ret.
Qed.


Lemma hourly_loop_skip now hs pre r post forecast e :
  (parse_forecast_hour r).2 = Raise e ->
  skip_rel ((parse_forecast_hour r).1 ++ [WarnParseFailed Hourly r])
    (hourly_loop now hs (pre ++ r :: post) forecast)
    (hourly_loop now hs (pre ++ post) forecast).
Proof using Type. clear.
  intros He. revert forecast. induction pre as [|x pre IH]; intros forecast.
  - rewrite !app_nil_l, hourly_loop_cons.
    pose proof (try_parse_failed Hourly r e He) as Ht. unfold parse_of in Ht. rewrite Ht.
    erewrite W_bind_Ok by reflexivity. apply skip_rel_here.
  - rewrite <- !app_comm_cons, !hourly_loop_cons.
    apply skip_rel_bind_l. intros [[fdate hour]|]; [|apply IH].
    apply skip_rel_bind_l. intros [|]; [apply IH|].
    apply skip_rel_bind_l. intros [|]; [apply skip_rel_refl|apply IH].
Qed.

Lemma triple_hour_loop_skip hs ts pre r post forecast e :
  (parse_forecast_hour r).2 = Raise e ->
  skip_rel ((parse_forecast_hour r).1 ++ [WarnParseFailed TripleHourly r])
    (triple_hour_loop hs ts (pre ++ r :: post) forecast)
    (triple_hour_loop hs ts (pre ++ post) forecast).
Proof using Type. clear.
  intros He. revert forecast. induction pre as [|x pre IH]; intros forecast.
  - rewrite !app_nil_l, triple_hour_loop_cons.
    pose proof (try_parse_failed TripleHourly r e He) as Ht. unfold parse_of in Ht. rewrite Ht.
    erewrite W_bind_Ok by reflexivity. apply skip_rel_here.
  - rewrite <- !app_comm_cons, !triple_hour_loop_cons.
    apply skip_rel_bind_l. intros [[fdate hour]|]; [|apply IH].
    apply skip_rel_bind_l. intros [|]; [apply IH|].
    apply skip_rel_bind_l. intros [|]; [apply skip_rel_refl|apply IH].
Qed.

Lemma daily_loop_skip ts pre r post forecast e :
  (parse_forecast_day r).2 = Raise e ->
  skip_rel ((parse_forecast_day r).1 ++ [WarnParseFailed Daily r])
    (daily_loop ts (pre ++ r :: post) forecast)
    (daily_loop ts (pre ++ post) forecast).
Proof using Type. clear.
  intros He. revert forecast. induction pre as [|x pre IH]; intros forecast.
  - rewrite !app_nil_l, daily_loop_cons.
    pose proof (try_parse_failed Daily r e He) as Ht. unfold parse_of in Ht. rewrite Ht.
    erewrite W_bind_Ok by reflexivity. apply skip_rel_here.
  - rewrite <- !app_comm_cons, !daily_loop_cons.
    apply skip_rel_bind_l. intros [[fdate day]|]; [|apply IH].
    apply skip_rel_bind_l. intros [|]; apply IH.
Qed.

(** When a record of one of the three arrays fails to parse, the merge
    gives what it gives for the document without that record, and the log
    differs at most by the records of the failed parse, closed by the
    warning that names the source and the record. *)
Lemma merge_skip_rel
    (now : datetime) (src : source) (pre post hourly tri_hourly daily : list raw)
    (r : raw) (e : exn) :
  (parse_of src r).2 = Raise e ->
  skip_rel ((parse_of src r).1 ++ [WarnParseFailed src r])
    (merge now (document_with src (pre ++ r :: post) hourly tri_hourly daily))
    (merge now (document_with src (pre ++ post) hourly tri_hourly daily)).
Proof using Type. clear.
  intros He.
  destruct src; unfold document_with; unfold parse_of in *;
    rewrite !merge_forecast_document.
  - eapply skip_rel_bind_r, hourly_loop_skip, He.
  - apply skip_rel_bind_l. intros forecast.
    eapply skip_rel_bind_r, triple_hour_loop_skip, He.
  - apply skip_rel_bind_l. intros forecast.
    apply skip_rel_bind_l. intros forecast'.
    eapply daily_loop_skip, He.
Qed.

(** ** The refresh cycle *)

Lemma renew_same_published : preserves same_published _renew_api_key.
Proof using Type. clear.
  unfold _renew_api_key, request_access_token, _check_client_credentials_response.
  repeat first
    [ apply setitem_same_published | apply time_time_same_published
    | apply logger_same_published | preserves_step | case_decide ].
Qed.

Lemma get_api_key_same_published : preserves same_published get_api_key.
Proof using Type. clear.
  unfold get_api_key.
  repeat first
    [ apply renew_same_published | apply time_time_same_published
    | apply logger_same_published | preserves_step | case_match ].
Qed.

Lemma _get_same_published geo : preserves same_published (_get geo).
Proof using Type. clear.
  unfold _get.
  repeat first [ apply get_api_key_same_published | preserves_step ].
Qed.

Lemma merge_empty now : merge now (forecast_document [] [] []) = ([], Ok []).
Proof using Type. clear. by rewrite merge_forecast_document. Qed.

Lemma update_after_get (s s1 : state) (data : document) :
  _get (_geolocation_id s) s = (s1, Ok data) ->
  __update s
  = (forecast ← run_W (merge (now_at (ticks s1)) data);
     _ ← modify (set_forecast forecast);
     match forecast with
     | [] => raise IndexError
     | forecastnow :: rest =>
         _ ← modify (set_forecast rest);
         _ ← modify (set_state (p_condition forecastnow));
         t ← lift (point_item "temperature" (p_temperature forecastnow));
         _ ← modify (set_temperature t);
         _ ← modify (set_wind_speed (p_wind_speed forecastnow));
         b ← lift (point_item "wind_bearing" (p_wind_bearing forecastnow));
         c ← lift (deg_to_cardinal (NInt b));
         _ ← modify (set_wind_bearing c);
         b ← lift (point_item "wind_bearing" (p_wind_bearing forecastnow));
         modify (λ s, set_state_attrs
           (<["precipitation_probability" :=
                VFloat (p_precipitation_probability forecastnow)]>
            (<["precipitation" := VFloat (p_precipitation forecastnow)]>
             (<["symbol_id" := VInt (p_symbol_id forecastnow)]>
              (<["wind_direction" := VInt b]> (_state_attrs s))))) s)
     end) (tick s1).
Proof using Type. clear.
  intros Hget. unfold __update at 1. unfold mbind at 1 2 3, M_bind at 1 2 3.
  unfold get_state at 1. rewrite Hget. reflexivity.
Qed.

Lemma update_get_failed (s s1 : state) (e : exn) :
  _get (_geolocation_id s) s = (s1, Raise e) -> __update s = (s1, Raise e).
Proof using Type. clear.
  intros Hget. unfold __update. unfold mbind at 1 2, M_bind at 1 2.
  unfold get_state at 1. by rewrite Hget.
Qed.

(** C4: when the three arrays of the fetched document are empty, the merged
    sequence is empty and [__update] raises [IndexError] from
    [forecast.pop(0)], the place where current conditions are split off (the
    spec's NoForecastDataAvailable); [async_update] logs it. *)
Theorem update_empty_arrays_raises (s s1 : state) :
  _get (_geolocation_id s) s = (s1, Ok (forecast_document [] [] [])) ->
  (merge (now_at (ticks s1)) (forecast_document [] [] [])).2 = Ok []
  ∧ __update s = (set_forecast [] (tick s1), Raise IndexError)
  ∧ async_update s
    = (add_log [ExcUpdateFailed IndexError] (set_forecast [] (tick s1)), Ok tt).
Proof using Type. clear.
  intros Hget.
  assert (Hup : __update s = (set_forecast [] (tick s1), Raise IndexError)).
  { rewrite (update_after_get _ _ _ Hget), merge_empty.
    unfold mbind, M_bind, run_W, modify; simpl. by rewrite add_log_nil. }
  split_and!; [by rewrite merge_empty | done |].
  unfold async_update. by rewrite Hup.
Qed.

(** C3, as the code has it: a cycle that fails while the token is obtained
    or the document is fetched leaves the published state as it was; a cycle
    whose merged sequence is empty leaves condition, temperature, wind speed,
    wind bearing and extra attributes as they were and has replaced the
    forecast list by the empty list. In both cases [async_update] returns
    after logging the exception. *)
Theorem failed_cycle_published_state (s : state) :
  (∀ s1 e,
      _get (_geolocation_id s) s = (s1, Raise e) ->
      is_Exception e = true ->
      async_update s = (add_log [ExcUpdateFailed e] s1, Ok tt)
      ∧ published (async_update s).1 = published s)
  ∧ (∀ s1 data,
      _get (_geolocation_id s) s = (s1, Ok data) ->
      (merge (now_at (ticks s1)) data).2 = Ok [] ->
      (∃ l, log (async_update s).1 = l ++ [ExcUpdateFailed IndexError])
      ∧ (async_update s).2 = Ok tt
      ∧ published (async_update s).1
        = (_state s, _temperature s, _wind_speed s, _wind_bearing s,
           _state_attrs s, [])).
Proof using Type. clear.
  split.
  - intros s1 e Hget He.
    assert (Ha : async_update s = (add_log [ExcUpdateFailed e] s1, Ok tt)).
    { unfold async_update. by rewrite (update_get_failed _ _ _ Hget), He. }
    split; [done|]. rewrite Ha. simpl.
    pose proof (_get_same_published (_geolocation_id s) s) as Hp.
    rewrite Hget in Hp. exact Hp.
  - intros s1 data Hget Hm.
    pose proof (_get_same_published (_geolocation_id s) s) as Hp.
    rewrite Hget in Hp. unfold same_published, published in Hp. simpl in Hp.
    injection Hp as H1 H2 H3 H4 H5 H6.
    unfold async_update. rewrite (update_after_get _ _ _ Hget).
    destruct (merge (now_at (ticks s1)) data) as [l r] eqn:Em. simpl in Hm. subst r.
    unfold mbind, M_bind, run_W, modify; simpl.
    split_and!; [by eexists | done |].
    unfold published; simpl. congruence.
Qed.

(** * Further properties *)

(** ** Token cache: what a renewal writes, and when *)

(** What a call of [_renew_api_key] leaves behind, by outcome. *)
Lemma renew_outcome (s : state) :
  match _renew_api_key s with
  | (s', Ok _) =>
      ∃ key secret d tok expires_in issued_at,
        _api_data s !! CONF_CONSUMER_KEY = Some key
        ∧ _api_data s !! CONF_CONSUMER_SECRET = Some secret
        ∧ session_post key secret = Ok d
        ∧ d !! "access_token" = Some tok
        ∧ (d !! "expires_in" ≫= λ v, match py_int v with Ok z => Some z | _ => None end)
          = Some expires_in
        ∧ (match d !! "issued_at" with
           | Some v => py_int v
           | None => Ok (Qtrunc (clock (ticks s)))
           end = Ok issued_at)
        ∧ _api_data s'
          = <[ATTR_API_KEY := tok]>
              (<[ATTR_EXPIRES_AT := VInt (expires_in + issued_at / 1000)]>
                 (_api_data s))
        ∧ published s' = published s
        ∧ log s' = log s
  | (s', Raise e) => _api_data s' = _api_data s ∧ published s' = published s
  end.
Proof using Type. clear.
  unfold _renew_api_key. unfold mbind at 1 2 3 4, M_bind at 1 2 3 4.
  unfold get_state, lift, getitem.
  destruct (_api_data s !! CONF_CONSUMER_KEY) as [key|] eqn:Hk; [|done].
  destruct (_api_data s !! CONF_CONSUMER_SECRET) as [secret|] eqn:Hs; [|done].
  unfold request_access_token, mbind at 1, M_bind at 1, lift.
  destruct (session_post key secret) as [d|e] eqn:Hp; [|done].
  unfold _check_client_credentials_response, mbind, M_bind, time_time, logger,
    modify, raise, mret, M_ret, reraise_logged, setitem, modify, lift, getitem.
  destruct (decide ("issued_at" ∈ dom d)) as [Hi|Hi]; cbn beta iota.
  - apply elem_of_dom in Hi as [vi Hvi].
    destruct (decide (EXPECTED_KEYS ∖ dom d = ∅)) as [He|He]; cbn; [|done].
    assert (Hin : ∀ k, k ∈ EXPECTED_KEYS -> is_Some (d !! k)).
    { intros k Hk'. apply elem_of_dom.
      destruct (decide (k ∈ dom d)) as [|Hn]; [done|exfalso].
      assert (Hd : k ∈ EXPECTED_KEYS ∖ dom d) by (by apply elem_of_difference).
      rewrite He in Hd. by apply not_elem_of_empty in Hd. }
    destruct (Hin "expires_in") as [ve Hve]; [apply elem_of_EXPECTED_KEYS; auto|].
    destruct (Hin "access_token") as [tok Htok]; [apply elem_of_EXPECTED_KEYS; auto|].
    rewrite Hve, Hvi, Htok.
    destruct (py_int ve) as [ei|e1] eqn:Hei; cbn.
    2:{ by destruct (is_Exception e1). }
    destruct (py_int vi) as [ia|e2] eqn:Hia; cbn.
    2:{ by destruct (is_Exception e2). }
    exists key, secret, d, tok, ei, ia. rewrite Hve, Hvi. cbn. rewrite Hei.
    by split_and!.
  - apply not_elem_of_dom in Hi.
    destruct (decide (EXPECTED_KEYS ∖ dom (<["issued_at":=VInt (Qtrunc (clock (ticks s)))]> d) = ∅))
      as [He|He]; cbn; [|done].
    assert (Hin : ∀ k, k ∈ EXPECTED_KEYS -> k ≠ "issued_at" -> is_Some (d !! k)).
    { intros k Hk' Hne. apply elem_of_dom.
      destruct (decide (k ∈ dom d)) as [|Hn]; [done|exfalso].
      assert (Hd : k ∈ EXPECTED_KEYS ∖ dom (<["issued_at":=VInt (Qtrunc (clock (ticks s)))]> d)).
      { apply elem_of_difference. split; [done|].
        rewrite dom_insert_L, elem_of_union, elem_of_singleton. naive_solver. }
      rewrite He in Hd. by apply not_elem_of_empty in Hd. }
    destruct (Hin "expires_in") as [ve Hve]; [apply elem_of_EXPECTED_KEYS; auto|done|].
    destruct (Hin "access_token") as [tok Htok]; [apply elem_of_EXPECTED_KEYS; auto|done|].
    rewrite lookup_insert_eq, !lookup_insert_ne by done. rewrite Hve, Htok.
    destruct (py_int ve) as [ei|e1] eqn:Hei; cbn.
    2:{ by destruct (is_Exception e1). }
    exists key, secret, d, tok, ei, (Qtrunc (clock (ticks s))).
    rewrite Hve, Hi. cbn. rewrite Hei. by split_and!.
Qed.

(** X1: a renewal is all or nothing: when [_renew_api_key] returns, the store is
    the old one with the expiry and then the access token of the response
    written, every other entry as it was; when it raises, whatever the
    exception, the store is the one it started from. Either way the
    published weather and forecast are untouched. *)
Theorem renewal_is_all_or_nothing (s : state) :
  match _renew_api_key s with
  | (s', Ok _) =>
      (∃ key secret d tok expires_in issued_at,
         _api_data s !! CONF_CONSUMER_KEY = Some key
         ∧ _api_data s !! CONF_CONSUMER_SECRET = Some secret
         ∧ session_post key secret = Ok d
         ∧ d !! "access_token" = Some tok
         ∧ (d !! "expires_in" ≫= λ v, match py_int v with Ok z => Some z | _ => None end)
           = Some expires_in
         ∧ (match d !! "issued_at" with
            | Some v => py_int v
            | None => Ok (Qtrunc (clock (ticks s)))
            end = Ok issued_at)
         ∧ _api_data s'
           = <[ATTR_API_KEY := tok]>
               (<[ATTR_EXPIRES_AT := VInt (expires_in + issued_at / 1000)]>
                  (_api_data s)))
      ∧ (∀ k, k ≠ ATTR_API_KEY -> k ≠ ATTR_EXPIRES_AT ->
              _api_data s' !! k = _api_data s !! k)
      ∧ published s' = published s
  | (s', Raise e) => _api_data s' = _api_data s ∧ published s' = published s
  end.
Proof using Type. clear.
  pose proof (renew_outcome s) as H.
  destruct (_renew_api_key s) as [s' [[]|e]]; [|done].
  destruct H as (key & secret & d & tok & ei & ia & Hk & Hs & Hp & Htok & Hei & Hia
                 & Hst & Hpub & _).
  split_and!; [|intros k Hk1 Hk2; rewrite Hst; by rewrite !lookup_insert_ne by done|done].
  exists key, secret, d, tok, ei, ia. by split_and!.
Qed.

Lemma get_api_key_unfold (s : state) :
  get_api_key s
  = match _api_data s !! ATTR_EXPIRES_AT with
    | None =>
        (_ ← _renew_api_key; s' ← get_state;
         lift (getitem (_api_data s') ATTR_API_KEY)) (add_log [InfoRenewing] s)
    | Some v =>
        match float_ge (clock (ticks s)) v with
        | Ok true =>
            (_ ← _renew_api_key; s' ← get_state;
             lift (getitem (_api_data s') ATTR_API_KEY))
              (add_log [InfoRenewing] (tick s))
        | Ok false => (tick s, getitem (_api_data s) ATTR_API_KEY)
        | Raise e => (tick s, Raise e)
        end
    end.
Proof using Type. clear.
  unfold get_api_key at 1. unfold mbind at 1 2 3, M_bind at 1 2 3.
  unfold get_state at 1. simpl.
  destruct (_api_data s !! ATTR_EXPIRES_AT) as [v|]; [|done]. simpl.
  by destruct (float_ge (clock (ticks s)) v) as [[]|].
Qed.

Lemma renew_then_lookup (s0 : state) :
  match (_ ← _renew_api_key; s' ← get_state;
         lift (getitem (_api_data s') ATTR_API_KEY)) s0 with
  | (s', Ok tok) => _api_data s' !! ATTR_API_KEY = Some tok
  | (s', Raise e) => _api_data s' = _api_data s0
  end.
Proof using Type. clear.
  unfold mbind at 1, M_bind at 1.
  pose proof (renew_outcome s0) as H.
  destruct (_renew_api_key s0) as [s1 [[]|e]]; [|apply H].
  destruct H as (key & secret & d & tok & ei & ia & _ & _ & _ & _ & _ & _ & Hst & _).
  unfold mbind, M_bind, get_state, lift, getitem.
  by rewrite Hst, lookup_insert_eq.
Qed.

(** X2: what [get_api_key] leaves in the store: the token it returns is the one
    the store holds afterwards, and a call that raises has written nothing.
    The published weather and forecast are never touched. *)
Theorem get_api_key_returns_stored_token (s : state) :
  match get_api_key s with
  | (s', Ok tok) => _api_data s' !! ATTR_API_KEY = Some tok
  | (s', Raise e) => _api_data s' = _api_data s
  end
  ∧ published (get_api_key s).1 = published s.
Proof using Type. clear.
  split; [|apply (get_api_key_same_published s)].
  rewrite get_api_key_unfold.
  assert (Hr : ∀ s0, _api_data s0 = _api_data s ->
     match (_ ← _renew_api_key; s' ← get_state;
            lift (getitem (_api_data s') ATTR_API_KEY)) s0 with
     | (s', Ok tok) => _api_data s' !! ATTR_API_KEY = Some tok
     | (s', Raise e) => _api_data s' = _api_data s
     end).
  { intros s0 Hs0. pose proof (renew_then_lookup s0) as H.
    destruct ((_ ← _renew_api_key; s' ← get_state;
               lift (getitem (_api_data s') ATTR_API_KEY)) s0) as [s' [tok|e]];
      [done|congruence]. }
  destruct (_api_data s !! ATTR_EXPIRES_AT) as [v|] eqn:Hv; [|by apply Hr].
  destruct (float_ge (clock (ticks s)) v) as [[]|e]; [by apply Hr| |done].
  unfold getitem. by destruct (_api_data s !! ATTR_API_KEY) eqn:Ht.
Qed.

(** X3: a token the cache has just handed out is handed out again, without a new
    request, as long as the clock reads before the stored expiry: the second
    call returns the same token and leaves the store and the log alone. *)
Theorem get_api_key_second_call_hits_cache (s s1 : state) (tok : pyval) (e : Z) :
  get_api_key s = (s1, Ok tok) ->
  _api_data s1 !! ATTR_EXPIRES_AT = Some (VInt e) ->
  (clock (ticks s1) < inject_Z e)%Q ->
  get_api_key s1 = (tick s1, Ok tok)
  ∧ renewals (log (get_api_key s1).1) = renewals (log s1).
Proof using Type. clear.
  intros Hfirst He Hlt.
  pose proof (get_api_key_returns_stored_token s) as [Hst _].
  rewrite Hfirst in Hst.
  assert (Heq : get_api_key s1 = (tick s1, Ok tok)).
  { rewrite get_api_key_unfold, He. cbn [float_ge].
    destruct (Qle_bool (inject_Z e) (clock (ticks s1))) eqn:Hle.
    - apply Qle_bool_iff in Hle. exfalso. by apply (Qlt_not_le _ _ Hlt).
    - unfold getitem. by rewrite Hst. }
  by rewrite Heq.
Qed.

(** X4: with [issued_at] absent from the response, the expiry a renewal stores
    is already behind the clock: for a duration of at most half the clock
    reading, every later call of [get_api_key] on that store finds the token
    expired and starts another renewal. *)
Theorem synthesized_issue_time_never_caches
    (s s1 s2 : state) (key secret v_in : pyval) (d : gmap string pyval)
    (expires_in : Z) :
  _api_data s !! CONF_CONSUMER_KEY = Some key ->
  _api_data s !! CONF_CONSUMER_SECRET = Some secret ->
  session_post key secret = Ok d ->
  d !! "issued_at" = None ->
  d !! "expires_in" = Some v_in ->
  py_int v_in = Ok expires_in ->
  0 < expires_in ->
  2 * expires_in <= Qtrunc (clock (ticks s)) ->
  ATTR_API_KEY ≠ ATTR_EXPIRES_AT ->
  _renew_api_key s = (s1, Ok tt) ->
  _api_data s2 = _api_data s1 ->
  (clock (ticks s) <= clock (ticks s2))%Q ->
  expired s2
  ∧ renewals (log (get_api_key s2).1) = S (renewals (log s2)).
Proof using Type. clear.
  intros Hk Hs Hp Hi Hin Hei H0 H2 Hne Hrenew Hs2 Hclock.
  pose proof (renew_outcome s) as H. rewrite Hrenew in H.
  destruct H as (key' & secret' & d' & tok & ei & ia & Hk' & Hs' & Hp' & Htok & Hei'
                 & Hia & Hst & _).
  rewrite Hk in Hk'. rewrite Hs in Hs'. simplify_eq. rewrite Hp in Hp'. simplify_eq.
  rewrite Hin in Hei'. cbn in Hei'. rewrite Hei in Hei'. simplify_eq.
  rewrite Hi in Hia. simplify_eq.
  set (T := Qtrunc (clock (ticks s))) in *.
  assert (Hexp : _api_data s2 !! ATTR_EXPIRES_AT = Some (VInt (ei + T / 1000))).
  { rewrite Hs2, Hst, lookup_insert_ne, lookup_insert_eq by done. done. }
  assert (HT : (inject_Z T <= clock (ticks s))%Q).
  { unfold T, Qtrunc, Qle in *. destruct (clock (ticks s)) as [n den]. cbn in *.
    destruct (Z.neg_nonneg_cases n) as [Hn|Hn].
    - assert (0 <= (- n) ÷ Z.pos den) by (apply Z.quot_pos; lia).
      rewrite Z.quot_opp_l in * by lia. lia.
    - rewrite Z.quot_div_nonneg in * by lia.
      pose proof (Z.mul_div_le n (Z.pos den)). lia. }
  assert (Hle : (inject_Z (ei + T / 1000) <= clock (ticks s2))%Q).
  { eapply Qle_trans; [|apply Hclock]. eapply Qle_trans; [|apply HT].
    rewrite <- Zle_Qle.
    assert (T / 1000 <= T / 2) by (apply Z.div_le_compat_l; lia).
    assert (2 * (T / 2) <= T) by (apply Z.mul_div_le; lia). lia. }
  split; [right; eauto|].
  rewrite get_api_key_unfold, Hexp. cbn [float_ge].
  apply Qle_bool_iff in Hle. rewrite Hle.
  assert (Hp2 : preserves same_renewals
            (_ ← _renew_api_key; s' ← get_state;
             lift (getitem (_api_data s') ATTR_API_KEY))).
  { repeat first [ apply renew_same_renewals | preserves_step ]. }
  rewrite (Hp2 (add_log [InfoRenewing] (tick s2))). simpl.
  rewrite renewals_app, renewals_singleton. simpl. lia.
Qed.

(** ** The forecast request *)

(** X5: what [_get] needs to return a document: a token from [get_api_key], an
    answer from the session, a body that decodes, and a status below 400.
    On [HTTP_OK] the reset header of the rate limit must read as an int and
    convert to a timestamp as well, since the arguments of the debug line
    are evaluated before the body is looked at. The only state [_get]
    leaves behind is that of [get_api_key]. *)
Theorem _get_succeeds_iff (geolocation_id : pyval) (s s' : state) (data : document) :
  _get geolocation_id s = (s', Ok data)
  ↔ ∃ tok resp,
      get_api_key s = (s', Ok tok)
      ∧ session_get geolocation_id tok = Ok resp
      ∧ (status resp = HTTP_OK ->
         ∃ reset ts,
           py_int (default (VInt 0)
                     (VStr <$> headers resp !! "x-ratelimit-reset-time"))
           = Ok reset
           ∧ fromtimestamp (Qmake reset 1000) = Ok ts)
      ∧ json resp = Ok data
      ∧ status resp < 400.
Proof using Type. clear.
  unfold _get. unfold mbind at 1, M_bind at 1.
  destruct (get_api_key s) as [s1 [tok|e]].
  2:{ split; [done|]. by intros (? & ? & ? & _). }
  unfold mbind at 1, M_bind at 1, lift at 1.
  destruct (session_get geolocation_id tok) as [resp|e] eqn:Hget.
  2:{ split; [done|]. intros (? & ? & ? & ? & _). congruence. }
  cbn beta iota.
  assert (Htail : ∀ s2 : state,
    (data0 ← lift (json resp);
     _ ← (if 400 <=? status resp then raise (HTTPError (status resp)) else mret tt);
     mret data0) s2 = (s', Ok data)
    ↔ s2 = s' ∧ json resp = Ok data ∧ status resp < 400).
  { intros s2. unfold mbind, M_bind, lift, raise, mret, M_ret.
    destruct (json resp) as [d0|e]; [|naive_solver].
    destruct (400 <=? status resp) eqn:Hst.
    - apply Z.leb_le in Hst. split; [done|]. intros (_ & _ & ?). lia.
    - apply Z.leb_gt in Hst. naive_solver. }
  unfold mbind at 1, M_bind at 1.
  destruct (status resp =? HTTP_OK) eqn:Hok.
  - apply Z.eqb_eq in Hok.
    unfold mbind at 1 2, M_bind at 1 2, lift at 1 2.
    destruct (py_int (default (VInt 0)
                (VStr <$> headers resp !! "x-ratelimit-reset-time")))
      as [reset|e] eqn:Hreset.
    2:{ split; [done|]. intros (tok' & resp' & [= <- <-] & Hg & Hdbg & _).
        rewrite Hget in Hg. injection Hg as <-.
        destruct (Hdbg Hok) as (? & ? & ? & _). congruence. }
    destruct (fromtimestamp (Qmake reset 1000)) as [ts|e] eqn:Hts.
    2:{ split; [done|]. intros (tok' & resp' & [= <- <-] & Hg & Hdbg & _).
        rewrite Hget in Hg. injection Hg as <-.
        destruct (Hdbg Hok) as (? & ? & ? & ?). congruence. }
    unfold mret at 1, M_ret at 1. cbn beta iota. rewrite Htail. split.
    + intros (-> & Hj & Hlt). exists tok, resp. split_and!; eauto.
    + intros (tok' & resp' & [= <- <-] & Hg & _ & ? & ?).
      rewrite Hget in Hg. by injection Hg as <-.
  - apply Z.eqb_neq in Hok. unfold mret at 1, M_ret at 1. cbn beta iota.
    rewrite Htail. split.
    + intros (-> & Hj & Hlt). exists tok, resp. split_and!; eauto. done.
    + intros (tok' & resp' & [= <- <-] & Hg & _ & ? & ?).
      rewrite Hget in Hg. by injection Hg as <-.
Qed.

(** ** The parsers *)

Lemma read_bind {A B} (conv : pyval -> result A) (r : raw) (key : string)
    (f : A -> W B) :
  (v ← wlift (getitem r key); a ← wlift (conv v); f a)
  = match reads conv r key with
    | Some a => f a
    | None => ([], Raise (read_error conv r key))
    end.
Proof using Type. clear.
  unfold reads, read_error, getitem. destruct (r !! key) as [v|]; [|done].
  rewrite (wlift_bind (Ok v) _ v) by done. cbn [mbind option_bind].
  destruct (conv v) as [a|e] eqn:Hc; [|done]. by rewrite (wlift_bind _ _ a).
Qed.

Lemma get_condition_from_symbol_eq (symbol_id : Z) :
  get_condition_from_symbol symbol_id
  = (condition_log symbol_id,
     Ok (default STATE_UNAVAILABLE (SYMBOL_STATE_MAP !! symbol_id))).
Proof using Type. clear.
  unfold get_condition_from_symbol, condition_log.
  by destruct (SYMBOL_STATE_MAP !! symbol_id).
Qed.

Lemma parse_forecast_Ok_iff (r : raw) (l : list event) (date : datetime) (p : point) :
  parse_forecast r = (l, Ok (date, p))
  ↔ ∃ symbol_id precip wind_speed probability,
      reads datetime_fromisoformat r "local_date_time" = Some date
      ∧ reads py_int r "SYMBOL_CODE" = Some symbol_id
      ∧ reads py_float r "RRR_MM" = Some precip
      ∧ reads py_float r "FF_KMH" = Some wind_speed
      ∧ reads py_float r "PROBPCP_PERCENT" = Some probability
      ∧ (is_Some (r !! "DD_DEG") -> is_Some (reads py_int r "DD_DEG"))
      ∧ l = condition_log symbol_id
      ∧ p = {| p_datetime := isoformat date;
               p_condition := default STATE_UNAVAILABLE
                                (SYMBOL_STATE_MAP !! symbol_id);
               p_symbol_id := symbol_id; p_precipitation := precip;
               p_wind_speed := wind_speed;
               p_precipitation_probability := probability;
               p_wind_bearing := reads py_int r "DD_DEG";
               p_temperature := None; p_templow := None |}.
Proof using Type. clear.
  unfold parse_forecast.
  rewrite read_bind.
  destruct (reads datetime_fromisoformat r "local_date_time") as [d0|] eqn:H1.
  2:{ split; [done|]. by intros (? & ? & ? & ? & ? & _). }
  rewrite read_bind.
  destruct (reads py_int r "SYMBOL_CODE") as [sym|] eqn:H2.
  2:{ split; [done|]. by intros (? & ? & ? & ? & ? & ? & _). }
  rewrite get_condition_from_symbol_eq.
  rewrite (W_bind_Ok _ _ _ _ eq_refl). cbn [fst snd].
  rewrite read_bind.
  destruct (reads py_float r "RRR_MM") as [pr|] eqn:H3.
  2:{ split; [intros [= _ ?]; done|]. by intros (? & ? & ? & ? & ? & ? & ? & _). }
  rewrite read_bind.
  destruct (reads py_float r "FF_KMH") as [ws|] eqn:H4.
  2:{ split; [intros [= _ ?]; done|]. by intros (? & ? & ? & ? & ? & ? & ? & ? & _). }
  rewrite read_bind.
  destruct (reads py_float r "PROBPCP_PERCENT") as [pp|] eqn:H5.
  2:{ split; [intros [= _ ?]; done|].
      by intros (? & ? & ? & ? & ? & ? & ? & ? & ? & _). }
  assert (Hwb :
    match r !! "DD_DEG" with
    | Some v => b ← wlift (py_int v); mret (Some b)
    | None => mret None
    end
    = match r !! "DD_DEG" with
      | Some v => match py_int v with
                  | Ok b => ([], Ok (Some b))
                  | Raise e => ([], Raise e)
                  end
      | None => ([], Ok None)
      end :> W (option Z)).
  { destruct (r !! "DD_DEG") as [v|]; [|done]. by destruct (py_int v). }
  rewrite Hwb. clear Hwb.
  remember (default STATE_UNAVAILABLE (SYMBOL_STATE_MAP !! sym)) as cond eqn:Hcond.
  remember (condition_log sym) as lg eqn:Hlg.
  unfold reads at 1 2. destruct (r !! "DD_DEG") as [v|] eqn:H6.
  - cbn [mbind option_bind]. destruct (py_int v) as [b|e] eqn:Hb.
    + unfold mbind, W_bind, mret, W_ret. cbn [fst snd].
      rewrite !app_nil_r. split.
      * intros [= <- <- <-]. exists sym, pr, ws, pp.
        split_and!; [done..|by eexists|done|by rewrite Hcond].
      * intros (s' & pr' & ws' & pp' & Ha & Hb' & Hc & Hd & He & _ & Hl & Hp).
        injection Ha as <-. injection Hb' as <-. injection Hc as <-.
        injection Hd as <-. injection He as <-.
        rewrite Hl, Hp, Hlg, Hcond. reflexivity.
    + unfold mbind, W_bind. cbn [fst snd]. split; [intros [= _ ?]; done|].
      intros (? & ? & ? & ? & _ & _ & _ & _ & _ & Hs & _).
      destruct Hs as [? Hs]; [by eexists|]. discriminate Hs.
  - cbn [mbind option_bind]. unfold mbind, W_bind, mret, W_ret. cbn [fst snd].
    rewrite !app_nil_r. split.
    + intros [= <- <- <-]. exists sym, pr, ws, pp.
      split_and!; [done..|by intros [? ?]|done|by rewrite Hcond].
    + intros (s' & pr' & ws' & pp' & Ha & Hb' & Hc & Hd & He & _ & Hl & Hp).
      injection Ha as <-. injection Hb' as <-. injection Hc as <-.
      injection Hd as <-. injection He as <-.
      rewrite Hl, Hp, Hlg, Hcond. reflexivity.
Qed.

(** X6: [parse_forecast_hour] returns exactly on the records whose timestamp,
    symbol code, precipitation, wind speed, precipitation probability and
    temperature are present and convert; the wind direction may be absent,
    but must convert when it is there. An unknown symbol code does not fail
    the record: the condition is [unavailable] and one warning is logged.
    The point returned carries the temperature and no low temperature. *)
Theorem parse_forecast_hour_succeeds_iff (r : raw) (l : list event)
    (date : datetime) (p : point) :
  parse_forecast_hour r = (l, Ok (date, p))
  ↔ ∃ symbol_id precip wind_speed probability temperature,
      reads datetime_fromisoformat r "local_date_time" = Some date
      ∧ reads py_int r "SYMBOL_CODE" = Some symbol_id
      ∧ reads py_float r "RRR_MM" = Some precip
      ∧ reads py_float r "FF_KMH" = Some wind_speed
      ∧ reads py_float r "PROBPCP_PERCENT" = Some probability
      ∧ (is_Some (r !! "DD_DEG") -> is_Some (reads py_int r "DD_DEG"))
      ∧ reads py_float r "TTT_C" = Some temperature
      ∧ l = condition_log symbol_id
      ∧ p = {| p_datetime := isoformat date;
               p_condition := default STATE_UNAVAILABLE
                                (SYMBOL_STATE_MAP !! symbol_id);
               p_symbol_id := symbol_id; p_precipitation := precip;
               p_wind_speed := wind_speed;
               p_precipitation_probability := probability;
               p_wind_bearing := reads py_int r "DD_DEG";
               p_temperature := Some temperature; p_templow := None |}.
Proof using Type. clear.
  unfold parse_forecast_hour.
  destruct (parse_forecast r) as [l0 [[d0 p0]|e]] eqn:Hp.
  - apply parse_forecast_Ok_iff in Hp
      as (sym & pr & ws & pp & H1 & H2 & H3 & H4 & H5 & H6 & -> & ->).
    rewrite (W_bind_Ok _ _ _ _ eq_refl). cbn beta iota. rewrite read_bind.
    remember (default STATE_UNAVAILABLE (SYMBOL_STATE_MAP !! sym)) as cond eqn:Hcond.
    remember (condition_log sym) as lg eqn:Hlg.
    destruct (reads py_float r "TTT_C") as [t|] eqn:H7.
    + unfold mret, W_ret, update_temperature. cbn [fst snd p_datetime p_condition
        p_symbol_id p_precipitation p_wind_speed p_precipitation_probability
        p_wind_bearing p_templow].
      rewrite app_nil_r. split.
      * intros [= <- <- <-]. exists sym, pr, ws, pp, t.
        split_and!; [done..|by rewrite Hcond].
      * intros (s' & pr' & ws' & pp' & t' & Ha & Hb & Hc & Hd & He & _ & Hf & Hl & Hq).
        rewrite H1 in Ha. rewrite H2 in Hb. rewrite H3 in Hc. rewrite H4 in Hd.
        rewrite H5 in He. injection Ha as <-. injection Hb as <-.
        injection Hc as <-. injection Hd as <-. injection He as <-.
        injection Hf as <-. rewrite Hl, Hq, Hlg, Hcond. reflexivity.
    + cbn [fst snd]. split; [intros [= _ ?]; done|].
      intros (? & ? & ? & ? & ? & _ & _ & _ & _ & _ & _ & Hf & _). discriminate Hf.
  - rewrite (W_bind_Raise _ _ _ _ eq_refl). split; [intros [= _ ?]; done|].
    intros (sym & pr & ws & pp & t & H1 & H2 & H3 & H4 & H5 & H6 & _ & _ & _).
    assert (Hok : parse_forecast r
                  = (condition_log sym,
                     Ok (date,
                         {| p_datetime := isoformat date;
                            p_condition := default STATE_UNAVAILABLE
                                             (SYMBOL_STATE_MAP !! sym);
                            p_symbol_id := sym; p_precipitation := pr;
                            p_wind_speed := ws;
                            p_precipitation_probability := pp;
                            p_wind_bearing := reads py_int r "DD_DEG";
                            p_temperature := None; p_templow := None |}))).
    { apply parse_forecast_Ok_iff. exists sym, pr, ws, pp. by split_and!. }
    rewrite Hp in Hok. discriminate Hok.
Qed.

(** X7: [parse_forecast_day] asks for the same fields with the high and the low
    temperature in place of the temperature; the point returned carries the
    high as its temperature and the low beside it. *)
Theorem parse_forecast_day_succeeds_iff (r : raw) (l : list event)
    (date : datetime) (p : point) :
  parse_forecast_day r = (l, Ok (date, p))
  ↔ ∃ symbol_id precip wind_speed probability temp_high temp_low,
      reads datetime_fromisoformat r "local_date_time" = Some date
      ∧ reads py_int r "SYMBOL_CODE" = Some symbol_id
      ∧ reads py_float r "RRR_MM" = Some precip
      ∧ reads py_float r "FF_KMH" = Some wind_speed
      ∧ reads py_float r "PROBPCP_PERCENT" = Some probability
      ∧ (is_Some (r !! "DD_DEG") -> is_Some (reads py_int r "DD_DEG"))
      ∧ reads py_float r "TX_C" = Some temp_high
      ∧ reads py_float r "TN_C" = Some temp_low
      ∧ l = condition_log symbol_id
      ∧ p = {| p_datetime := isoformat date;
               p_condition := default STATE_UNAVAILABLE
                                (SYMBOL_STATE_MAP !! symbol_id);
               p_symbol_id := symbol_id; p_precipitation := precip;
               p_wind_speed := wind_speed;
               p_precipitation_probability := probability;
               p_wind_bearing := reads py_int r "DD_DEG";
               p_temperature := Some temp_high; p_templow := Some temp_low |}.
Proof using Type. clear.
  unfold parse_forecast_day.
  destruct (parse_forecast r) as [l0 [[d0 p0]|e]] eqn:Hp.
  - apply parse_forecast_Ok_iff in Hp
      as (sym & pr & ws & pp & H1 & H2 & H3 & H4 & H5 & H6 & -> & ->).
    rewrite (W_bind_Ok _ _ _ _ eq_refl). cbn beta iota. rewrite read_bind.
    remember (default STATE_UNAVAILABLE (SYMBOL_STATE_MAP !! sym)) as cond eqn:Hcond.
    remember (condition_log sym) as lg eqn:Hlg.
    destruct (reads py_float r "TX_C") as [hi|] eqn:H7.
    2:{ cbn [fst snd]. split; [intros [= _ ?]; done|].
        intros (? & ? & ? & ? & ? & ? & _ & _ & _ & _ & _ & _ & Hf & _).
        discriminate Hf. }
    rewrite read_bind.
    destruct (reads py_float r "TN_C") as [lo|] eqn:H8.
    + unfold mret, W_ret, update_temperature_templow. cbn [fst snd p_datetime
        p_condition p_symbol_id p_precipitation p_wind_speed
        p_precipitation_probability p_wind_bearing].
      rewrite app_nil_r. split.
      * intros [= <- <- <-]. exists sym, pr, ws, pp, hi, lo.
        split_and!; [done..|by rewrite Hcond].
      * intros (s' & pr' & ws' & pp' & hi' & lo' & Ha & Hb & Hc & Hd & He & _
                & Hf & Hg & Hl & Hq).
        rewrite H1 in Ha. rewrite H2 in Hb. rewrite H3 in Hc. rewrite H4 in Hd.
        rewrite H5 in He. injection Ha as <-. injection Hb as <-.
        injection Hc as <-. injection Hd as <-. injection He as <-.
        injection Hf as <-. injection Hg as <-.
        rewrite Hl, Hq, Hlg, Hcond. reflexivity.
    + cbn [fst snd]. split; [intros [= _ ?]; done|].
      intros (? & ? & ? & ? & ? & ? & _ & _ & _ & _ & _ & _ & _ & Hg & _).
      discriminate Hg.
  - rewrite (W_bind_Raise _ _ _ _ eq_refl). split; [intros [= _ ?]; done|].
    intros (sym & pr & ws & pp & hi & lo & H1 & H2 & H3 & H4 & H5 & H6 & _ & _ & _ & _).
    assert (Hok : parse_forecast r
                  = (condition_log sym,
                     Ok (date,
                         {| p_datetime := isoformat date;
                            p_condition := default STATE_UNAVAILABLE
                                             (SYMBOL_STATE_MAP !! sym);
                            p_symbol_id := sym; p_precipitation := pr;
                            p_wind_speed := ws;
                            p_precipitation_probability := pp;
                            p_wind_bearing := reads py_int r "DD_DEG";
                            p_temperature := None; p_templow := None |}))).
    { apply parse_forecast_Ok_iff. exists sym, pr, ws, pp. by split_and!. }
    rewrite Hp in Hok. discriminate Hok.
Qed.

(** ** One turn of a loop *)

Lemma hourly_loop_stamped now hs on ohs r rest acc l d off p :
  utcoffset now = Some on -> utcoffset hs = Some ohs ->
  parse_forecast_hour r = (l, Ok (d, p)) -> utcoffset d = Some off ->
  hourly_loop now hs (r :: rest) acc
  = let X := if wall d - off <? wall now - on
             then hourly_loop now hs rest acc
             else if wall hs - ohs <? wall d - off then mret acc
                  else hourly_loop now hs rest (acc ++ [p]) in
    (l ++ X.1, X.2).
Proof using Type. clear.
  intros Hnow Hhs Hp Hoff. rewrite hourly_loop_cons, Hp, try_parse_Ok.
  rewrite (W_bind_Ok _ _ _ _ eq_refl). cbn beta iota zeta.
  rewrite (dt_lt_aware _ _ _ _ Hoff Hnow), (wlift_bind _ _ _ eq_refl).
  destruct (wall d - off <? wall now - on); [done|].
  rewrite (dt_gt_aware _ _ _ _ Hoff Hhs), (wlift_bind _ _ _ eq_refl).
  by destruct (wall hs - ohs <? wall d - off).
Qed.

Lemma triple_hour_loop_stamped hs ts ohs ots r rest acc l d off p :
  utcoffset hs = Some ohs -> utcoffset ts = Some ots ->
  parse_forecast_hour r = (l, Ok (d, p)) -> utcoffset d = Some off ->
  triple_hour_loop hs ts (r :: rest) acc
  = let X := if wall d - off <=? wall hs - ohs
             then triple_hour_loop hs ts rest acc
             else if wall ts - ots <? wall d - off then mret acc
                  else triple_hour_loop hs ts rest (acc ++ [p]) in
    (l ++ X.1, X.2).
Proof using Type. clear.
  intros Hhs Hts Hp Hoff. rewrite triple_hour_loop_cons, Hp, try_parse_Ok.
  rewrite (W_bind_Ok _ _ _ _ eq_refl). cbn beta iota zeta.
  rewrite (dt_le_aware _ _ _ _ Hoff Hhs), (wlift_bind _ _ _ eq_refl).
  destruct (wall d - off <=? wall hs - ohs); [done|].
  rewrite (dt_gt_aware _ _ _ _ Hoff Hts), (wlift_bind _ _ _ eq_refl).
  by destruct (wall ts - ots <? wall d - off).
Qed.

Lemma daily_loop_stamped ts ots r rest acc l d off p :
  utcoffset ts = Some ots ->
  parse_forecast_day r = (l, Ok (d, p)) -> utcoffset d = Some off ->
  daily_loop ts (r :: rest) acc
  = let X := if wall d - off <=? wall ts - ots
             then daily_loop ts rest acc
             else daily_loop ts rest (acc ++ [p]) in
    (l ++ X.1, X.2).
Proof using Type. clear.
  intros Hts Hp Hoff. rewrite daily_loop_cons, Hp, try_parse_Ok.
  rewrite (W_bind_Ok _ _ _ _ eq_refl). cbn beta iota zeta.
  rewrite (dt_le_aware _ _ _ _ Hoff Hts), (wlift_bind _ _ _ eq_refl).
  by destruct (wall d - off <=? wall ts - ots).
Qed.

Lemma hourly_loop_failed now hs r rest acc e :
  (parse_forecast_hour r).2 = Raise e ->
  hourly_loop now hs (r :: rest) acc
  = (((parse_forecast_hour r).1 ++ [WarnParseFailed Hourly r])
       ++ (hourly_loop now hs rest acc).1,
     (hourly_loop now hs rest acc).2).
Proof using Type. clear.
  intros He. rewrite hourly_loop_cons.
  pose proof (try_parse_failed Hourly r e He) as Ht. unfold parse_of in Ht.
  rewrite Ht. by rewrite (W_bind_Ok _ _ _ _ eq_refl).
Qed.

Lemma triple_hour_loop_failed hs ts r rest acc e :
  (parse_forecast_hour r).2 = Raise e ->
  triple_hour_loop hs ts (r :: rest) acc
  = (((parse_forecast_hour r).1 ++ [WarnParseFailed TripleHourly r])
       ++ (triple_hour_loop hs ts rest acc).1,
     (triple_hour_loop hs ts rest acc).2).
Proof using Type. clear.
  intros He. rewrite triple_hour_loop_cons.
  pose proof (try_parse_failed TripleHourly r e He) as Ht. unfold parse_of in Ht.
  rewrite Ht. by rewrite (W_bind_Ok _ _ _ _ eq_refl).
Qed.

Lemma daily_loop_failed ts r rest acc e :
  (parse_forecast_day r).2 = Raise e ->
  daily_loop ts (r :: rest) acc
  = (((parse_forecast_day r).1 ++ [WarnParseFailed Daily r])
       ++ (daily_loop ts rest acc).1,
     (daily_loop ts rest acc).2).
Proof using Type. clear.
  intros He. rewrite daily_loop_cons.
  pose proof (try_parse_failed Daily r e He) as Ht. unfold parse_of in Ht.
  rewrite Ht. by rewrite (W_bind_Ok _ _ _ _ eq_refl).
Qed.

(** A record that parses to a timestamp without a timezone stops the loop
    at the first comparison. *)
Lemma hourly_loop_naive_head now hs on r rest acc l d p :
  utcoffset now = Some on ->
  parse_forecast_hour r = (l, Ok (d, p)) -> utcoffset d = None ->
  (hourly_loop now hs (r :: rest) acc).2 = Raise TypeError.
Proof using Type. clear.
  intros Hnow Hp Hd. rewrite hourly_loop_cons, Hp, try_parse_Ok.
  rewrite (W_bind_Ok _ _ _ _ eq_refl). cbn beta iota zeta. cbn [snd].
  unfold dt_lt, dt_compare. by rewrite Hd, Hnow.
Qed.

Lemma triple_hour_loop_naive_head hs ts ohs r rest acc l d p :
  utcoffset hs = Some ohs ->
  parse_forecast_hour r = (l, Ok (d, p)) -> utcoffset d = None ->
  (triple_hour_loop hs ts (r :: rest) acc).2 = Raise TypeError.
Proof using Type. clear.
  intros Hhs Hp Hd. rewrite triple_hour_loop_cons, Hp, try_parse_Ok.
  rewrite (W_bind_Ok _ _ _ _ eq_refl). cbn beta iota zeta. cbn [snd].
  unfold dt_le, dt_compare. by rewrite Hd, Hhs.
Qed.

Lemma daily_loop_naive_head ts ots r rest acc l d p :
  utcoffset ts = Some ots ->
  parse_forecast_day r = (l, Ok (d, p)) -> utcoffset d = None ->
  (daily_loop ts (r :: rest) acc).2 = Raise TypeError.
Proof using Type. clear.
  intros Hts Hp Hd. rewrite daily_loop_cons, Hp, try_parse_Ok.
  rewrite (W_bind_Ok _ _ _ _ eq_refl). cbn beta iota zeta. cbn [snd].
  unfold dt_le, dt_compare. by rewrite Hd, Hts.
Qed.

(** ** Parse warnings in the log *)

Lemma parse_warnings_app l1 l2 :
  parse_warnings (l1 ++ l2) = parse_warnings l1 ++ parse_warnings l2.
Proof using Type. clear. apply omap_app. Qed.

Lemma parse_warnings_bind {A B} (m : W A) (f : A -> W B) :
  parse_warnings m.1 = [] -> (∀ a, parse_warnings (f a).1 = []) ->
  parse_warnings (m ≫= f).1 = [].
Proof using Type. clear.
  intros Hm Hf. destruct m as [l [a|e]]; [|exact Hm].
  rewrite (W_bind_Ok _ _ _ _ eq_refl). cbn [fst] in *.
  by rewrite parse_warnings_app, Hm, Hf.
Qed.

Lemma parse_warnings_wlift {A} (r : result A) : parse_warnings (wlift r).1 = [].
Proof using Type. clear. done. Qed.

Lemma parse_warnings_condition k :
  parse_warnings (get_condition_from_symbol k).1 = [].
Proof using Type. clear.
  unfold get_condition_from_symbol. by destruct (SYMBOL_STATE_MAP !! k).
Qed.

Lemma parse_forecast_quiet r : parse_warnings (parse_forecast r).1 = [].
Proof using Type. clear.
  unfold parse_forecast.
  do 11 (apply parse_warnings_bind;
         [first [apply parse_warnings_wlift|apply parse_warnings_condition]
         |intros ?]).
  apply parse_warnings_bind; [|by intros ?].
  destruct (r !! "DD_DEG"); [|done].
  apply parse_warnings_bind; [apply parse_warnings_wlift|by intros ?].
Qed.

Lemma parse_of_quiet src r : parse_warnings (parse_of src r).1 = [].
Proof using Type. clear.
  destruct src; unfold parse_of, parse_forecast_hour, parse_forecast_day;
    (apply parse_warnings_bind; [apply parse_forecast_quiet|]);
    intros [d p]; repeat (apply parse_warnings_bind;
                          [apply parse_warnings_wlift|intros ?]); done.
Qed.

(** ** The merge, whatever the order of the arrays *)

Lemma parse_forecast_hour_publishable r l d p :
  parse_forecast_hour r = (l, Ok (d, p)) -> publishable p.
Proof using Type. clear.
  unfold parse_forecast_hour, publishable.
  destruct (parse_forecast r) as [l0 [[d0 p0]|e]] eqn:Hp.
  2:{ by rewrite (W_bind_Raise _ _ _ _ eq_refl). }
  apply parse_forecast_Ok_iff in Hp
    as (sym & pr & ws & pp & _ & _ & _ & _ & _ & _ & -> & ->).
  rewrite (W_bind_Ok _ _ _ _ eq_refl). cbn beta iota. rewrite read_bind.
  remember (default STATE_UNAVAILABLE (SYMBOL_STATE_MAP !! sym)) as cond eqn:Hcond.
  remember (condition_log sym) as lg eqn:Hlg.
  destruct (reads py_float r "TTT_C") as [t|]; [|intros [= _ ?]; done].
  unfold mret, W_ret, update_temperature. cbn [fst snd p_datetime p_condition
    p_symbol_id p_precipitation p_wind_speed p_precipitation_probability
    p_wind_bearing p_templow].
  intros [= _ _ <-]. cbn [p_temperature p_condition p_symbol_id].
  split; [by eexists|done].
Qed.

Lemma parse_forecast_day_publishable r l d p :
  parse_forecast_day r = (l, Ok (d, p)) -> publishable p.
Proof using Type. clear.
  unfold parse_forecast_day, publishable.
  destruct (parse_forecast r) as [l0 [[d0 p0]|e]] eqn:Hp.
  2:{ by rewrite (W_bind_Raise _ _ _ _ eq_refl). }
  apply parse_forecast_Ok_iff in Hp
    as (sym & pr & ws & pp & _ & _ & _ & _ & _ & _ & -> & ->).
  rewrite (W_bind_Ok _ _ _ _ eq_refl). cbn beta iota. rewrite read_bind.
  remember (default STATE_UNAVAILABLE (SYMBOL_STATE_MAP !! sym)) as cond eqn:Hcond.
  remember (condition_log sym) as lg eqn:Hlg.
  destruct (reads py_float r "TX_C") as [hi|]; [|intros [= _ ?]; done].
  rewrite read_bind.
  destruct (reads py_float r "TN_C") as [lo|]; [|intros [= _ ?]; done].
  unfold mret, W_ret, update_temperature_templow. cbn [fst snd p_datetime
    p_condition p_symbol_id p_precipitation p_wind_speed
    p_precipitation_probability p_wind_bearing].
  intros [= _ _ <-]. cbn [p_temperature p_condition p_symbol_id].
  split; [by eexists|done].
Qed.

Lemma parse_of_publishable src r l d p :
  parse_of src r = (l, Ok (d, p)) -> publishable p.
Proof using Type. clear.
  destruct src; cbn [parse_of];
    first [ apply parse_forecast_hour_publishable
          | apply parse_forecast_day_publishable ].
Qed.

Lemma stamped_publishable src r i p :
  stamped (parse_of src r) = Some (i, p) -> publishable p.
Proof using Type. clear.
  intros H. destruct (stamped_Some _ _ _ _ H) as (l & d & off & Hp & _).
  eapply parse_of_publishable, Hp.
Qed.

Lemma stamps_publishable src raws :
  Forall (λ x, publishable x.2) (stamps (parse_of src) raws).
Proof using Type. clear.
  unfold stamps. apply Forall_forall. intros [i p] Hin.
  apply list_elem_of_omap in Hin as (r & _ & Hr).
  eapply stamped_publishable, Hr.
Qed.

Lemma stamps_cons_None parse (r : raw) l :
  stamped (parse r) = None -> stamps parse (r :: l) = stamps parse l.
Proof using Type. clear. intros H. unfold stamps; simpl. by rewrite H. Qed.

(** The head of a loop: the record is stamped, or it parses to a naive
    timestamp, or it fails to parse and is skipped. *)
Lemma loop_head src r :
  (∃ l d off p, parse_of src r = (l, Ok (d, p)) ∧ utcoffset d = Some off
                ∧ stamped (parse_of src r) = Some (wall d - off, p))
  ∨ (∃ l d p, parse_of src r = (l, Ok (d, p)) ∧ utcoffset d = None
              ∧ stamped (parse_of src r) = None)
  ∨ (try_parse src r (parse_of src r)
     = ((parse_of src r).1 ++ [WarnParseFailed src r], Ok None)
     ∧ stamped (parse_of src r) = None).
Proof using Type. clear.
  destruct (parse_of src r) as [l [[d p]|e]] eqn:Hp.
  - destruct (utcoffset d) as [off|] eqn:Hoff.
    + left. exists l, d, off, p. split_and!; [done..|].
      unfold stamped, instant. cbn. by rewrite Hoff.
    + right; left. exists l, d, p. split_and!; [done..|].
      unfold stamped, instant. cbn. by rewrite Hoff.
  - right; right. split; [|done]. rewrite <- Hp.
    rewrite (try_parse_failed src r e); [done|]. by rewrite Hp.
Qed.

Lemma dt_lt_naive a b o :
  utcoffset a = None -> utcoffset b = Some o -> dt_lt a b = Raise TypeError.
Proof using Type. clear. intros Ha Hb. unfold dt_lt, dt_compare. by rewrite Ha, Hb. Qed.

Lemma dt_le_naive a b o :
  utcoffset a = None -> utcoffset b = Some o -> dt_le a b = Raise TypeError.
Proof using Type. clear. intros Ha Hb. unfold dt_le, dt_compare. by rewrite Ha, Hb. Qed.

Lemma hourly_loop_Ok now hs on ohs raws forecast out :
  utcoffset now = Some on -> utcoffset hs = Some ohs ->
  (hourly_loop now hs raws forecast).2 = Ok out ->
  ∃ sel, sel `prefix_of` filter (in_hourly_window (wall now - on) (wall hs - ohs))
                           (stamps parse_forecast_hour raws)
         ∧ out = forecast ++ sel.*2.
Proof using Type. clear.
  intros Hnow Hhs. revert forecast.
  induction raws as [|r rest IH]; intros forecast Hout.
  { injection Hout as <-. exists []. by rewrite app_nil_r. }
  rewrite hourly_loop_cons in Hout.
  destruct (loop_head Hourly r)
    as [(l & d & off & p & Hp & Hoff & Hst)
       |[(l & d & p & Hp & Hoff & Hst)|[Htry Hst]]]; cbn [parse_of] in *.
  - rewrite (stamps_cons_Some _ _ _ _ Hst).
    rewrite Hp, try_parse_Ok in Hout.
    erewrite W_bind_snd_Ok in Hout by reflexivity. cbn beta iota in Hout.
    rewrite (dt_lt_aware _ _ _ _ Hoff Hnow) in Hout.
    erewrite wlift_bind in Hout by reflexivity.
    destruct (wall d - off <? wall now - on) eqn:Hlt.
    + apply Z.ltb_lt in Hlt. destruct (IH _ Hout) as (sel & Hsel & ->).
      exists sel. split; [|done].
      rewrite filter_cons_False; [done|]. unfold in_hourly_window; simpl. lia.
    + apply Z.ltb_ge in Hlt.
      rewrite (dt_gt_aware _ _ _ _ Hoff Hhs) in Hout.
      erewrite wlift_bind in Hout by reflexivity.
      destruct (wall hs - ohs <? wall d - off) eqn:Hgt.
      * injection Hout as <-. exists []. split; [apply prefix_nil|].
        by rewrite app_nil_r.
      * apply Z.ltb_ge in Hgt. destruct (IH _ Hout) as (sel & Hsel & ->).
        exists ((wall d - off, p) :: sel). split.
        -- rewrite filter_cons_True by (unfold in_hourly_window; simpl; lia).
           by apply prefix_cons.
        -- rewrite fmap_cons. cbn [snd]. by rewrite <- app_assoc.
  - exfalso. rewrite Hp, try_parse_Ok in Hout.
    erewrite W_bind_snd_Ok in Hout by reflexivity. cbn beta iota in Hout.
    by rewrite (dt_lt_naive _ _ _ Hoff Hnow) in Hout.
  - rewrite (stamps_cons_None _ _ _ Hst). rewrite Htry in Hout.
    erewrite W_bind_snd_Ok in Hout by reflexivity. cbn beta iota in Hout. by apply IH.
Qed.

Lemma triple_hour_loop_Ok hs ts ohs ots raws forecast out :
  utcoffset hs = Some ohs -> utcoffset ts = Some ots ->
  (triple_hour_loop hs ts raws forecast).2 = Ok out ->
  ∃ sel, sel `prefix_of` filter (in_triple_window (wall hs - ohs) (wall ts - ots))
                           (stamps parse_forecast_hour raws)
         ∧ out = forecast ++ sel.*2.
Proof using Type. clear.
  intros Hhs Hts. revert forecast.
  induction raws as [|r rest IH]; intros forecast Hout.
  { injection Hout as <-. exists []. by rewrite app_nil_r. }
  rewrite triple_hour_loop_cons in Hout.
  destruct (loop_head TripleHourly r)
    as [(l & d & off & p & Hp & Hoff & Hst)
       |[(l & d & p & Hp & Hoff & Hst)|[Htry Hst]]]; cbn [parse_of] in *.
  - rewrite (stamps_cons_Some _ _ _ _ Hst).
    rewrite Hp, try_parse_Ok in Hout.
    erewrite W_bind_snd_Ok in Hout by reflexivity. cbn beta iota in Hout.
    rewrite (dt_le_aware _ _ _ _ Hoff Hhs) in Hout.
    erewrite wlift_bind in Hout by reflexivity.
    destruct (wall d - off <=? wall hs - ohs) eqn:Hle.
    + apply Z.leb_le in Hle. destruct (IH _ Hout) as (sel & Hsel & ->).
      exists sel. split; [|done].
      rewrite filter_cons_False; [done|]. unfold in_triple_window; simpl. lia.
    + apply Z.leb_gt in Hle.
      rewrite (dt_gt_aware _ _ _ _ Hoff Hts) in Hout.
      erewrite wlift_bind in Hout by reflexivity.
      destruct (wall ts - ots <? wall d - off) eqn:Hgt.
      * injection Hout as <-. exists []. split; [apply prefix_nil|].
        by rewrite app_nil_r.
      * apply Z.ltb_ge in Hgt. destruct (IH _ Hout) as (sel & Hsel & ->).
        exists ((wall d - off, p) :: sel). split.
        -- rewrite filter_cons_True by (unfold in_triple_window; simpl; lia).
           by apply prefix_cons.
        -- rewrite fmap_cons. cbn [snd]. by rewrite <- app_assoc.
  - exfalso. rewrite Hp, try_parse_Ok in Hout.
    erewrite W_bind_snd_Ok in Hout by reflexivity. cbn beta iota in Hout.
    by rewrite (dt_le_naive _ _ _ Hoff Hhs) in Hout.
  - rewrite (stamps_cons_None _ _ _ Hst). rewrite Htry in Hout.
    erewrite W_bind_snd_Ok in Hout by reflexivity. cbn beta iota in Hout. by apply IH.
Qed.

Lemma daily_loop_Ok ts ots raws forecast out :
  utcoffset ts = Some ots ->
  (daily_loop ts raws forecast).2 = Ok out ->
  out = forecast
        ++ (filter (in_daily_window (wall ts - ots))
              (stamps parse_forecast_day raws)).*2.
Proof using Type. clear.
  intros Hts. revert forecast.
  induction raws as [|r rest IH]; intros forecast Hout.
  { injection Hout as <-. by rewrite app_nil_r. }
  rewrite daily_loop_cons in Hout.
  destruct (loop_head Daily r)
    as [(l & d & off & p & Hp & Hoff & Hst)
       |[(l & d & p & Hp & Hoff & Hst)|[Htry Hst]]]; cbn [parse_of] in *.
  - rewrite (stamps_cons_Some _ _ _ _ Hst).
    rewrite Hp, try_parse_Ok in Hout.
    erewrite W_bind_snd_Ok in Hout by reflexivity. cbn beta iota in Hout.
    rewrite (dt_le_aware _ _ _ _ Hoff Hts) in Hout.
    erewrite wlift_bind in Hout by reflexivity.
    destruct (wall d - off <=? wall ts - ots) eqn:Hle.
    + apply Z.leb_le in Hle. rewrite (IH _ Hout).
      rewrite filter_cons_False; [done|]. unfold in_daily_window; simpl. lia.
    + apply Z.leb_gt in Hle. rewrite (IH _ Hout).
      rewrite filter_cons_True by (unfold in_daily_window; simpl; lia).
      rewrite fmap_cons. cbn [snd]. by rewrite <- app_assoc.
  - exfalso. rewrite Hp, try_parse_Ok in Hout.
    erewrite W_bind_snd_Ok in Hout by reflexivity. cbn beta iota in Hout.
    by rewrite (dt_le_naive _ _ _ Hoff Hts) in Hout.
  - rewrite (stamps_cons_None _ _ _ Hst). rewrite Htry in Hout.
    erewrite W_bind_snd_Ok in Hout by reflexivity. cbn beta iota in Hout. by apply IH.
Qed.

Lemma W_bind_snd_Ok_inv {A B} (m : W A) (f : A -> W B) (b : B) :
  (m ≫= f).2 = Ok b -> ∃ a, m.2 = Ok a ∧ (f a).2 = Ok b.
Proof using Type. clear.
  destruct m as [l [a|e]]; [|done]. intros H. exists a. split; [done|].
  by rewrite (W_bind_snd_Ok (l, Ok a) f a) in H.
Qed.

Lemma wlift_getitem_Ok_inv {V B} (d : gmap string V) (key : string)
    (f : V -> W B) (b : B) :
  (wlift (getitem d key) ≫= f).2 = Ok b ->
  ∃ v, d !! key = Some v ∧ (f v).2 = Ok b.
Proof using Type. clear.
  intros H. apply W_bind_snd_Ok_inv in H as (v & Hv & Hf). exists v.
  split; [|done]. unfold wlift, getitem in Hv. cbn in Hv.
  destruct (d !! key); by simplify_eq.
Qed.

Lemma merge_Ok_inv (now : datetime) (data : document) (out : list point) :
  (merge now data).2 = Ok out ->
  ∃ f h t d o1 o2,
    data !! "forecast" = Some f
    ∧ f !! "60minutes" = Some h ∧ f !! "hour" = Some t ∧ f !! "day" = Some d
    ∧ (hourly_loop now (hourly_cutoff now) h []).2 = Ok o1
    ∧ (triple_hour_loop (hourly_cutoff now) (daily_cutoff now) t o1).2 = Ok o2
    ∧ (daily_loop (daily_cutoff now) d o2).2 = Ok out.
Proof using Type. clear.
  unfold merge. intros H.
  apply wlift_getitem_Ok_inv in H as (f & Hf & H).
  apply wlift_getitem_Ok_inv in H as (h & Hh & H).
  apply W_bind_snd_Ok_inv in H as (o1 & Ho1 & H).
  apply wlift_getitem_Ok_inv in H as (f' & Hf' & H).
  rewrite Hf in Hf'. injection Hf' as <-.
  apply wlift_getitem_Ok_inv in H as (t & Ht & H).
  apply W_bind_snd_Ok_inv in H as (o2 & Ho2 & H).
  apply wlift_getitem_Ok_inv in H as (f' & Hf' & H).
  rewrite Hf in Hf'. injection Hf' as <-.
  apply wlift_getitem_Ok_inv in H as (d & Hd & H).
  apply W_bind_snd_Ok_inv in H as (o3 & Ho3 & H).
  cbn in H. injection H as <-.
  exists f, h, t, d, o1, o2. by split_and!.
Qed.

Lemma merge_Ok_windows (now : datetime) (off : Z) (data : document)
    (out : list point) :
  utcoffset now = Some off ->
  (merge now data).2 = Ok out ->
  let n := wall now - off in
  let hc := n + 12 * usec_per_hour in
  let dc := wall (daily_cutoff now) - off in
  ∃ f hourly tri_hourly daily sh st,
    data !! "forecast" = Some f
    ∧ f !! "60minutes" = Some hourly
    ∧ f !! "hour" = Some tri_hourly
    ∧ f !! "day" = Some daily
    ∧ sh `prefix_of` filter (in_hourly_window n hc)
                       (stamps parse_forecast_hour hourly)
    ∧ st `prefix_of` filter (in_triple_window hc dc)
                       (stamps parse_forecast_hour tri_hourly)
    ∧ out = (sh ++ st ++ filter (in_daily_window dc)
                           (stamps parse_forecast_day daily)).*2.
Proof using Type. clear.
  intros Hoff Hout n hc dc.
  apply merge_Ok_inv in Hout as (f & h & t & d & o1 & o2 & Hf & Hh & Ht & Hd
                                 & H1 & H2 & H3).
  assert (Hhs : utcoffset (hourly_cutoff now) = Some off) by done.
  assert (Hts : utcoffset (daily_cutoff now) = Some off) by done.
  assert (E : wall (hourly_cutoff now) - off = hc).
  { unfold hc, n, hourly_cutoff. cbn [wall dt_add]. lia. }
  apply (hourly_loop_Ok _ _ _ _ _ _ _ Hoff Hhs) in H1 as (sh & Hsh & ->).
  apply (triple_hour_loop_Ok _ _ _ _ _ _ _ Hhs Hts) in H2 as (st & Hst & ->).
  apply (daily_loop_Ok _ _ _ _ _ Hts) in H3 as ->.
  rewrite E in Hsh, Hst.
  exists f, h, t, d, sh, st. split_and!; [done..|].
  by rewrite !fmap_app, app_nil_l, app_assoc.
Qed.

(** X8: whatever the order of the three arrays, and whichever records fail to
    parse: when the merge returns, for a timezone-aware [now], its output is
    an initial part of the hourly points of the hourly window, then an
    initial part of the tri-hourly points of the tri-hourly window, then all
    the daily points past the daily cutoff. No point comes from outside its
    window, and the daily array is never cut short. *)
Theorem merge_output_within_windows (now : datetime) (off : Z)
    (data : document) (out : list point) :
  utcoffset now = Some off ->
  (merge now data).2 = Ok out ->
  let n := wall now - off in
  let hc := n + 12 * usec_per_hour in
  let dc := wall (daily_cutoff now) - off in
  ∃ f hourly tri_hourly daily sh st,
    data !! "forecast" = Some f
    ∧ f !! "60minutes" = Some hourly
    ∧ f !! "hour" = Some tri_hourly
    ∧ f !! "day" = Some daily
    ∧ sh `prefix_of` filter (in_hourly_window n hc)
                       (stamps parse_forecast_hour hourly)
    ∧ st `prefix_of` filter (in_triple_window hc dc)
                       (stamps parse_forecast_hour tri_hourly)
    ∧ out = (sh ++ st ++ filter (in_daily_window dc)
                           (stamps parse_forecast_day daily)).*2.
Proof using Type. clear.
  intros Hoff Hout n hc dc.
  apply merge_Ok_inv in Hout as (f & h & t & d & o1 & o2 & Hf & Hh & Ht & Hd
                                 & H1 & H2 & H3).
  assert (Hhs : utcoffset (hourly_cutoff now) = Some off) by done.
  assert (Hts : utcoffset (daily_cutoff now) = Some off) by done.
  assert (E : wall (hourly_cutoff now) - off = hc).
  { unfold hc, n, hourly_cutoff. cbn [wall dt_add]. lia. }
  apply (hourly_loop_Ok _ _ _ _ _ _ _ Hoff Hhs) in H1 as (sh & Hsh & ->).
  apply (triple_hour_loop_Ok _ _ _ _ _ _ _ Hhs Hts) in H2 as (st & Hst & ->).
  apply (daily_loop_Ok _ _ _ _ _ Hts) in H3 as ->.
  rewrite E in Hsh, Hst.
  exists f, h, t, d, sh, st. split_and!; [done..|].
  by rewrite !fmap_app, app_nil_l, app_assoc.
Qed.

Lemma Forall_filter_of {A} (P Q : A -> Prop) `{∀ x, Decision (Q x)} (l : list A) :
  Forall P l -> Forall P (filter Q l).
Proof using Type. clear.
  rewrite !Forall_forall. intros Hl x Hx.
  apply list_elem_of_filter in Hx as [_ Hx]. by apply Hl.
Qed.

Lemma prefix_Forall {A} (P : A -> Prop) (l1 l2 : list A) :
  l1 `prefix_of` l2 -> Forall P l2 -> Forall P l1.
Proof using Type. clear. intros [k ->] H. by apply Forall_app in H as [? _]. Qed.

Lemma merge_Ok_publishable (now : datetime) (off : Z) (data : document)
    (out : list point) :
  utcoffset now = Some off ->
  (merge now data).2 = Ok out ->
  Forall publishable out.
Proof using Type. clear.
  intros Hoff Hout.
  destruct (merge_Ok_windows now off data out Hoff Hout)
    as (f & h & t & d & sh & st & _ & _ & _ & _ & Hsh & Hst & ->).
  rewrite Forall_fmap. rewrite !Forall_app. split_and!.
  - eapply prefix_Forall; [exact Hsh|]. apply Forall_filter_of.
    eapply Forall_impl; [apply (stamps_publishable Hourly)|]. by intros [].
  - eapply prefix_Forall; [exact Hst|]. apply Forall_filter_of.
    eapply Forall_impl; [apply (stamps_publishable TripleHourly)|]. by intros [].
  - apply Forall_filter_of.
    eapply Forall_impl; [apply (stamps_publishable Daily)|]. by intros [].
Qed.

(** X9: every point the merge puts out has a temperature, and its condition is
    the table's entry for its symbol code, [unavailable] when there is none:
    the condition and the symbol code that a cycle publishes always agree,
    and reading the temperature of the current point cannot fail. *)
Theorem merged_points_are_publishable (now : datetime) (off : Z)
    (data : document) (out : list point) :
  utcoffset now = Some off ->
  (merge now data).2 = Ok out ->
  Forall publishable out.
Proof using Type. clear.
  intros Hoff Hout.
  destruct (merge_Ok_windows now off data out Hoff Hout)
    as (f & h & t & d & sh & st & _ & _ & _ & _ & [kh Hsh] & [kt Hst] & ->).
  pose proof (Forall_filter_of _
                (in_hourly_window (wall now - off)
                   (wall now - off + 12 * usec_per_hour)) _
                (stamps_publishable Hourly h)) as Fh.
  pose proof (Forall_filter_of _
                (in_triple_window (wall now - off + 12 * usec_per_hour)
                   (wall (daily_cutoff now) - off)) _
                (stamps_publishable TripleHourly t)) as Ft.
  pose proof (Forall_filter_of _
                (in_daily_window (wall (daily_cutoff now) - off)) _
                (stamps_publishable Daily d)) as Fd.
  cbn [parse_of] in Fh, Ft, Fd. rewrite Hsh in Fh. rewrite Hst in Ft.
  apply Forall_app in Fh as [Fh _]. apply Forall_app in Ft as [Ft _].
  rewrite Forall_fmap, !Forall_app. split_and!.
  - eapply Forall_impl; [exact Fh|]. by intros [].
  - eapply Forall_impl; [exact Ft|]. by intros [].
  - eapply Forall_impl; [exact Fd|]. by intros [].
Qed.

(** *** What the merge raises *)

Lemma W_bind_snd_Raise_inv {A B} (m : W A) (f : A -> W B) (e : exn) :
  (m ≫= f).2 = Raise e ->
  m.2 = Raise e ∨ ∃ a, m.2 = Ok a ∧ (f a).2 = Raise e.
Proof using Type. clear.
  destruct m as [l [a|e']];
    [|intros H; cbn in H; injection H as <-; by left].
  intros H. right. exists a.
  split; [done|]. by rewrite (W_bind_snd_Ok (l, Ok a) f a) in H.
Qed.

Lemma dt_compare_raise a b e : dt_compare a b = Raise e -> e = TypeError.
Proof using Type. clear.
  unfold dt_compare. destruct (utcoffset a), (utcoffset b); congruence.
Qed.

Lemma dt_lt_raise a b e : dt_lt a b = Raise e -> e = TypeError.
Proof using Type. clear.
  unfold dt_lt. destruct (dt_compare a b) as [[]|e'] eqn:H; try done.
  intros [= <-]. eapply dt_compare_raise, H.
Qed.

Lemma dt_gt_raise a b e : dt_gt a b = Raise e -> e = TypeError.
Proof using Type. clear.
  unfold dt_gt. destruct (dt_compare a b) as [[]|e'] eqn:H; try done.
  intros [= <-]. eapply dt_compare_raise, H.
Qed.

Lemma dt_le_raise a b e : dt_le a b = Raise e -> e = TypeError.
Proof using Type. clear.
  unfold dt_le. destruct (dt_compare a b) as [[]|e'] eqn:H; try done.
  intros [= <-]. eapply dt_compare_raise, H.
Qed.

Lemma try_parse_no_raise src r e :
  (try_parse src r (parse_of src r)).2 ≠ Raise e.
Proof using Type. clear.
  destruct (parse_of src r) as [l [x|e']] eqn:Hp; [done|].
  rewrite <- Hp. rewrite (try_parse_failed src r e'); [done|]. by rewrite Hp.
Qed.

Lemma hourly_loop_raise now hs raws forecast e :
  (hourly_loop now hs raws forecast).2 = Raise e -> e = TypeError.
Proof using Type. clear.
  revert forecast. induction raws as [|r rest IH]; intros forecast H; [done|].
  rewrite hourly_loop_cons in H.
  apply W_bind_snd_Raise_inv in H as [H|([[d p]|] & _ & H)].
  - by apply (try_parse_no_raise Hourly) in H.
  - apply W_bind_snd_Raise_inv in H as [H|([] & _ & H)];
      [by apply dt_lt_raise in H|by eapply IH|].
    apply W_bind_snd_Raise_inv in H as [H|([] & _ & H)];
      [by apply dt_gt_raise in H|done|by eapply IH].
  - by eapply IH.
Qed.

Lemma triple_hour_loop_raise hs ts raws forecast e :
  (triple_hour_loop hs ts raws forecast).2 = Raise e -> e = TypeError.
Proof using Type. clear.
  revert forecast. induction raws as [|r rest IH]; intros forecast H; [done|].
  rewrite triple_hour_loop_cons in H.
  apply W_bind_snd_Raise_inv in H as [H|([[d p]|] & _ & H)].
  - by apply (try_parse_no_raise TripleHourly) in H.
  - apply W_bind_snd_Raise_inv in H as [H|([] & _ & H)];
      [by apply dt_le_raise in H|by eapply IH|].
    apply W_bind_snd_Raise_inv in H as [H|([] & _ & H)];
      [by apply dt_gt_raise in H|done|by eapply IH].
  - by eapply IH.
Qed.

Lemma daily_loop_raise ts raws forecast e :
  (daily_loop ts raws forecast).2 = Raise e -> e = TypeError.
Proof using Type. clear.
  revert forecast. induction raws as [|r rest IH]; intros forecast H; [done|].
  rewrite daily_loop_cons in H.
  apply W_bind_snd_Raise_inv in H as [H|([[d p]|] & _ & H)].
  - by apply (try_parse_no_raise Daily) in H.
  - apply W_bind_snd_Raise_inv in H as [H|([] & _ & H)];
      [by apply dt_le_raise in H|by eapply IH|by eapply IH].
  - by eapply IH.
Qed.

Lemma wlift_getitem_Raise {V} (d : gmap string V) (key : string) (e : exn) :
  (wlift (getitem d key)).2 = Raise e -> e = KeyError key ∧ d !! key = None.
Proof using Type. clear.
  unfold wlift, getitem. cbn. destruct (d !! key); [done|]. by intros [= <-].
Qed.

Lemma merge_raise (now : datetime) (data : document) (e : exn) :
  (merge now data).2 = Raise e ->
  e = TypeError
  ∨ (e = KeyError "forecast" ∧ data !! "forecast" = None)
  ∨ ∃ f key, data !! "forecast" = Some f ∧ f !! key = None ∧ e = KeyError key
             ∧ key ∈ ["60minutes"; "hour"; "day"].
Proof using Type. clear.
  unfold merge. intros H.
  apply W_bind_snd_Raise_inv in H as [H|(f & Hf & H)].
  { apply wlift_getitem_Raise in H. by right; left. }
  assert (Hdf : data !! "forecast" = Some f).
  { unfold wlift, getitem in Hf. cbn in Hf. by destruct (data !! "forecast"); simplify_eq. }
  assert (Hkey : ∀ key, key ∈ ["60minutes"; "hour"; "day"] ->
            (wlift (getitem f key)).2 = Raise e ->
            e = TypeError
            ∨ (e = KeyError "forecast" ∧ data !! "forecast" = None)
            ∨ ∃ f key, data !! "forecast" = Some f ∧ f !! key = None
                       ∧ e = KeyError key ∧ key ∈ ["60minutes"; "hour"; "day"]).
  { intros key Hin Hr. apply wlift_getitem_Raise in Hr as [-> Hn].
    right; right. by exists f, key. }
  apply W_bind_snd_Raise_inv in H as [H|(h & _ & H)].
  { apply (Hkey "60minutes"); [|done]. set_solver. }
  apply W_bind_snd_Raise_inv in H as [H|(o1 & _ & H)].
  { left. by eapply hourly_loop_raise. }
  apply W_bind_snd_Raise_inv in H as [H|(f' & Hf' & H)].
  { apply wlift_getitem_Raise in H as [_ ?]. congruence. }
  assert (f' = f) as ->.
  { unfold wlift, getitem in Hf'. cbn in Hf'. rewrite Hdf in Hf'. by simplify_eq. }
  clear Hf'.
  apply W_bind_snd_Raise_inv in H as [H|(t & _ & H)].
  { apply (Hkey "hour"); [|done]. set_solver. }
  apply W_bind_snd_Raise_inv in H as [H|(o2 & _ & H)].
  { left. by eapply triple_hour_loop_raise. }
  apply W_bind_snd_Raise_inv in H as [H|(f' & Hf' & H)].
  { apply wlift_getitem_Raise in H as [_ ?]. congruence. }
  assert (f' = f) as ->.
  { unfold wlift, getitem in Hf'. cbn in Hf'. rewrite Hdf in Hf'. by simplify_eq. }
  clear Hf'.
  apply W_bind_snd_Raise_inv in H as [H|(d & _ & H)].
  { apply (Hkey "day"); [|done]. set_solver. }
  apply W_bind_snd_Raise_inv in H as [H|(o3 & _ & H)]; [|done].
  left. by eapply daily_loop_raise.
Qed.

(** A loop that raises, for a timezone-aware [now], has met a record that
    parses to a timestamp without a timezone. *)
Lemma hourly_loop_raise_naive now hs on ohs raws acc e :
  utcoffset now = Some on -> utcoffset hs = Some ohs ->
  (hourly_loop now hs raws acc).2 = Raise e ->
  e = TypeError
  ∧ ∃ r l d p, r ∈ raws ∧ parse_forecast_hour r = (l, Ok (d, p))
               ∧ utcoffset d = None.
Proof using Type. clear.
  intros Hnow Hhs. revert acc.
  induction raws as [|r0 rest IH]; intros acc H; [done|].
  assert (Hrest : ∀ acc', (hourly_loop now hs rest acc').2 = Raise e ->
            e = TypeError
            ∧ ∃ r l d p, r ∈ r0 :: rest ∧ parse_forecast_hour r = (l, Ok (d, p))
                         ∧ utcoffset d = None).
  { intros acc' H'. destruct (IH _ H') as (-> & r & l & d & p & Hin & Hp & Hd).
    split; [done|]. exists r, l, d, p. split; [by apply list_elem_of_further|done]. }
  destruct (loop_head Hourly r0)
    as [(l & d & off & p & Hp & Hoff & _)
       |[(l & d & p & Hp & Hoff & _)|[Htry _]]]; cbn [parse_of] in *.
  - rewrite (hourly_loop_stamped _ _ _ _ _ _ _ _ _ _ _ Hnow Hhs Hp Hoff) in H.
    cbv zeta in H. cbn [snd] in H.
    destruct (wall d - off <? wall now - on); [by eapply Hrest|].
    destruct (wall hs - ohs <? wall d - off); [done|by eapply Hrest].
  - rewrite (hourly_loop_naive_head _ _ _ _ _ _ _ _ _ Hnow Hp Hoff) in H.
    injection H as <-. split; [done|]. exists r0, l, d, p.
    split; [apply list_elem_of_here|done].
  - rewrite hourly_loop_cons, Htry in H.
    rewrite (W_bind_Ok _ _ _ _ eq_refl) in H. cbn [snd] in H. by eapply Hrest.
Qed.

Lemma triple_hour_loop_raise_naive hs ts ohs ots raws acc e :
  utcoffset hs = Some ohs -> utcoffset ts = Some ots ->
  (triple_hour_loop hs ts raws acc).2 = Raise e ->
  e = TypeError
  ∧ ∃ r l d p, r ∈ raws ∧ parse_forecast_hour r = (l, Ok (d, p))
               ∧ utcoffset d = None.
Proof using Type. clear.
  intros Hhs Hts. revert acc.
  induction raws as [|r0 rest IH]; intros acc H; [done|].
  assert (Hrest : ∀ acc', (triple_hour_loop hs ts rest acc').2 = Raise e ->
            e = TypeError
            ∧ ∃ r l d p, r ∈ r0 :: rest ∧ parse_forecast_hour r = (l, Ok (d, p))
                         ∧ utcoffset d = None).
  { intros acc' H'. destruct (IH _ H') as (-> & r & l & d & p & Hin & Hp & Hd).
    split; [done|]. exists r, l, d, p. split; [by apply list_elem_of_further|done]. }
  destruct (loop_head TripleHourly r0)
    as [(l & d & off & p & Hp & Hoff & _)
       |[(l & d & p & Hp & Hoff & _)|[Htry _]]]; cbn [parse_of] in *.
  - rewrite (triple_hour_loop_stamped _ _ _ _ _ _ _ _ _ _ _ Hhs Hts Hp Hoff) in H.
    cbv zeta in H. cbn [snd] in H.
    destruct (wall d - off <=? wall hs - ohs); [by eapply Hrest|].
    destruct (wall ts - ots <? wall d - off); [done|by eapply Hrest].
  - rewrite (triple_hour_loop_naive_head _ _ _ _ _ _ _ _ _ Hhs Hp Hoff) in H.
    injection H as <-. split; [done|]. exists r0, l, d, p.
    split; [apply list_elem_of_here|done].
  - rewrite triple_hour_loop_cons, Htry in H.
    rewrite (W_bind_Ok _ _ _ _ eq_refl) in H. cbn [snd] in H. by eapply Hrest.
Qed.

Lemma daily_loop_raise_naive ts ots raws acc e :
  utcoffset ts = Some ots ->
  (daily_loop ts raws acc).2 = Raise e ->
  e = TypeError
  ∧ ∃ r l d p, r ∈ raws ∧ parse_forecast_day r = (l, Ok (d, p))
               ∧ utcoffset d = None.
Proof using Type. clear.
  intros Hts. revert acc.
  induction raws as [|r0 rest IH]; intros acc H; [done|].
  assert (Hrest : ∀ acc', (daily_loop ts rest acc').2 = Raise e ->
            e = TypeError
            ∧ ∃ r l d p, r ∈ r0 :: rest ∧ parse_forecast_day r = (l, Ok (d, p))
                         ∧ utcoffset d = None).
  { intros acc' H'. destruct (IH _ H') as (-> & r & l & d & p & Hin & Hp & Hd).
    split; [done|]. exists r, l, d, p. split; [by apply list_elem_of_further|done]. }
  destruct (loop_head Daily r0)
    as [(l & d & off & p & Hp & Hoff & _)
       |[(l & d & p & Hp & Hoff & _)|[Htry _]]]; cbn [parse_of] in *.
  - rewrite (daily_loop_stamped _ _ _ _ _ _ _ _ _ Hts Hp Hoff) in H.
    cbv zeta in H. cbn [snd] in H.
    destruct (wall d - off <=? wall ts - ots); by eapply Hrest.
  - rewrite (daily_loop_naive_head _ _ _ _ _ _ _ _ Hts Hp Hoff) in H.
    injection H as <-. split; [done|]. exists r0, l, d, p.
    split; [apply list_elem_of_here|done].
  - rewrite daily_loop_cons, Htry in H.
    rewrite (W_bind_Ok _ _ _ _ eq_refl) in H. cbn [snd] in H. by eapply Hrest.
Qed.

Lemma wlift_getitem_Ok {V} (d : gmap string V) (key : string) (v : V) :
  (wlift (getitem d key)).2 = Ok v -> d !! key = Some v.
Proof using Type. clear.
  unfold wlift, getitem. cbn. destruct (d !! key); [|done]. by intros [= ->].
Qed.

(** X10: on a decoded document, whose [forecast] entry holds arrays of
    records, and for a timezone-aware [now], the merge raises in two ways
    only, both instances of [Exception]: [KeyError] naming [forecast] or the
    array that the document lacks, and [TypeError], and then one of the
    three arrays holds a record that parses, with the parser of that array,
    to a timestamp without a timezone. No exception of a parser leaves the
    merge. *)
Theorem merge_raises_only_KeyError_TypeError (now : datetime) (off : Z)
    (data : document) (e : exn) :
  utcoffset now = Some off ->
  (merge now data).2 = Raise e ->
  is_Exception e = true
  ∧ ((e = KeyError "forecast" ∧ data !! "forecast" = None)
     ∨ (∃ f src, data !! "forecast" = Some f ∧ f !! array_key src = None
                 ∧ e = KeyError (array_key src))
     ∨ (e = TypeError
        ∧ ∃ f src raws r l d p,
            data !! "forecast" = Some f
            ∧ f !! array_key src = Some raws
            ∧ r ∈ raws
            ∧ parse_of src r = (l, Ok (d, p))
            ∧ utcoffset d = None)).
Proof using Type. clear.
  intros Hoff H.
  assert (Hhs : utcoffset (hourly_cutoff now) = Some off) by done.
  assert (Hts : utcoffset (daily_cutoff now) = Some off) by done.
  assert (Hcases :
    (e = KeyError "forecast" ∧ data !! "forecast" = None)
    ∨ (∃ f src, data !! "forecast" = Some f ∧ f !! array_key src = None
                ∧ e = KeyError (array_key src))
    ∨ (e = TypeError
       ∧ ∃ f src raws r l d p,
           data !! "forecast" = Some f
           ∧ f !! array_key src = Some raws
           ∧ r ∈ raws
           ∧ parse_of src r = (l, Ok (d, p))
           ∧ utcoffset d = None)).
  { unfold merge in H.
    apply W_bind_snd_Raise_inv in H as [H|(f & Hf & H)].
    { apply wlift_getitem_Raise in H. by left. }
    apply wlift_getitem_Ok in Hf.
    assert (Hkey : ∀ src, (wlift (getitem f (array_key src))).2 = Raise e ->
              ∃ f src, data !! "forecast" = Some f ∧ f !! array_key src = None
                       ∧ e = KeyError (array_key src)).
    { intros src Hr. apply wlift_getitem_Raise in Hr as [-> Hn]. by exists f, src. }
    assert (Hnaive : ∀ src raws r l d p,
              f !! array_key src = Some raws -> r ∈ raws ->
              parse_of src r = (l, Ok (d, p)) -> utcoffset d = None ->
              ∃ f src raws r l d p,
                data !! "forecast" = Some f ∧ f !! array_key src = Some raws
                ∧ r ∈ raws ∧ parse_of src r = (l, Ok (d, p))
                ∧ utcoffset d = None).
    { intros src raws r l d p ? ? ? ?. by exists f, src, raws, r, l, d, p. }
    apply W_bind_snd_Raise_inv in H as [H|(h & Hh & H)].
    { right; left. by apply (Hkey Hourly). }
    apply (wlift_getitem_Ok f "60minutes") in Hh.
    apply W_bind_snd_Raise_inv in H as [H|(o1 & _ & H)].
    { right; right.
      apply (hourly_loop_raise_naive _ _ _ _ _ _ _ Hoff Hhs) in H
        as (-> & r & l & d & p & Hin & Hp & Hd).
      split; [done|]. by apply (Hnaive Hourly h r l d p). }
    apply W_bind_snd_Raise_inv in H as [H|(f' & Hf' & H)].
    { apply wlift_getitem_Raise in H as [_ ?]. congruence. }
    apply wlift_getitem_Ok in Hf'. rewrite Hf in Hf'. injection Hf' as <-.
    apply W_bind_snd_Raise_inv in H as [H|(t & Ht & H)].
    { right; left. by apply (Hkey TripleHourly). }
    apply (wlift_getitem_Ok f "hour") in Ht.
    apply W_bind_snd_Raise_inv in H as [H|(o2 & _ & H)].
    { right; right.
      apply (triple_hour_loop_raise_naive _ _ _ _ _ _ _ Hhs Hts) in H
        as (-> & r & l & d & p & Hin & Hp & Hd).
      split; [done|]. by apply (Hnaive TripleHourly t r l d p). }
    apply W_bind_snd_Raise_inv in H as [H|(f' & Hf' & H)].
    { apply wlift_getitem_Raise in H as [_ ?]. congruence. }
    apply wlift_getitem_Ok in Hf'. rewrite Hf in Hf'. injection Hf' as <-.
    apply W_bind_snd_Raise_inv in H as [H|(dl & Hdl & H)].
    { right; left. by apply (Hkey Daily). }
    apply (wlift_getitem_Ok f "day") in Hdl.
    apply W_bind_snd_Raise_inv in H as [H|(o3 & _ & H)]; [|done].
    right; right.
    apply (daily_loop_raise_naive _ _ _ _ _ Hts) in H
      as (-> & r & l & d & p & Hin & Hp & Hd).
    split; [done|]. by apply (Hnaive Daily dl r l d p). }
  split; [|exact Hcases].
  destruct Hcases as [[-> _]|[(f & src & _ & _ & ->)|[-> _]]]; reflexivity.
Qed.

Lemma daily_loop_naive ts ots raws forecast r l d p :
  utcoffset ts = Some ots ->
  r ∈ raws ->
  parse_forecast_day r = (l, Ok (d, p)) ->
  utcoffset d = None ->
  (daily_loop ts raws forecast).2 = Raise TypeError.
Proof using Type. clear.
  intros Hts Hin Hr Hd. revert forecast.
  induction raws as [|r0 rest IH]; intros forecast; [by apply elem_of_nil in Hin|].
  rewrite daily_loop_cons.
  destruct (loop_head Daily r0)
    as [(l0 & d0 & off & p0 & Hp & Hoff & Hst)
       |[(l0 & d0 & p0 & Hp & Hoff & Hst)|[Htry Hst]]]; cbn [parse_of] in *.
  - assert (Hrest : r ∈ rest).
    { apply elem_of_cons in Hin as [->|]; [|done]. rewrite Hr in Hp.
      simplify_eq; try congruence. }
    rewrite Hp, try_parse_Ok. erewrite W_bind_snd_Ok by reflexivity. cbn beta iota.
    rewrite (dt_le_aware _ _ _ _ Hoff Hts). erewrite wlift_bind by reflexivity.
    destruct (wall d0 - off <=? wall ts - ots); by apply IH.
  - rewrite Hp, try_parse_Ok. erewrite W_bind_snd_Ok by reflexivity. cbn beta iota.
    by rewrite (dt_le_naive _ _ _ Hoff Hts).
  - assert (Hrest : r ∈ rest).
    { apply elem_of_cons in Hin as [->|]; [|done]. unfold stamped in Hst.
      rewrite Hr in Htry. by cbn in Htry. }
    rewrite Htry. erewrite W_bind_snd_Ok by reflexivity. cbn beta iota. by apply IH.
Qed.

(** X11: a daily record whose timestamp parses without a timezone is not skipped
    like a record that fails to parse: with the three arrays present and a
    timezone-aware [now], the merge raises [TypeError], wherever in the
    daily array the record stands. *)
Theorem naive_daily_timestamp_aborts_merge (now : datetime) (off : Z)
    (data : document) (f : gmap string (list raw))
    (hourly tri_hourly daily : list raw)
    (r : raw) (l : list event) (d : datetime) (p : point) :
  utcoffset now = Some off ->
  data !! "forecast" = Some f ->
  f !! "60minutes" = Some hourly ->
  f !! "hour" = Some tri_hourly ->
  f !! "day" = Some daily ->
  r ∈ daily ->
  parse_forecast_day r = (l, Ok (d, p)) ->
  utcoffset d = None ->
  (merge now data).2 = Raise TypeError.
Proof using Type. clear.
  intros Hoff Hf Hh Ht Hd Hin Hr Hnaive.
  destruct (merge now data).2 as [out|e] eqn:Hm.
  - exfalso.
    apply merge_Ok_inv in Hm as (f' & h' & t' & d' & o1 & o2 & Hf' & _ & _ & Hd'
                                 & _ & _ & H3).
    rewrite Hf in Hf'. injection Hf' as <-. rewrite Hd in Hd'. injection Hd' as <-.
    assert (Hts : utcoffset (daily_cutoff now) = Some off) by done.
    by rewrite (daily_loop_naive _ _ _ _ _ _ _ _ Hts Hin Hr Hnaive) in H3.
  - apply merge_raise in Hm as [->|[[_ Hn]|(f' & key & Hf' & Hn & _ & Hk)]];
      [done|congruence|].
    rewrite Hf in Hf'. injection Hf' as <-.
    repeat (apply elem_of_cons in Hk as [->|Hk]; [congruence|]).
    by apply elem_of_nil in Hk.
Qed.

(** ** The refresh cycle: what it publishes and what it lets through *)

Lemma merge_raise_is_Exception now data e :
  (merge now data).2 = Raise e -> is_Exception e = true.
Proof using Type. clear.
  intros H. apply merge_raise in H as [->|[[-> _]|(f & key & _ & _ & -> & _)]]; done.
Qed.

(** X12: a cycle whose merge raises, for a missing array or a timestamp without
    a timezone, has published nothing: [async_update] logs what the merge
    logged and the exception, returns, and the weather and the forecast are
    those of the cycle before. *)
Theorem merge_failure_keeps_published (s s1 : state) (data : document)
    (l : list event) (e : exn) :
  _get (_geolocation_id s) s = (s1, Ok data) ->
  merge (now_at (ticks s1)) data = (l, Raise e) ->
  async_update s = (add_log [ExcUpdateFailed e] (add_log l (tick s1)), Ok tt)
  ∧ published (async_update s).1 = published s.
Proof using Type. clear.
  intros Hget Hm.
  assert (He : is_Exception e = true).
  { apply (merge_raise_is_Exception (now_at (ticks s1)) data). by rewrite Hm. }
  assert (Ha : async_update s
               = (add_log [ExcUpdateFailed e] (add_log l (tick s1)), Ok tt)).
  { unfold async_update. rewrite (update_after_get _ _ _ Hget), Hm.
    unfold mbind, M_bind, run_W. cbn [fst snd]. by rewrite He. }
  split; [done|]. rewrite Ha.
  pose proof (_get_same_published (_geolocation_id s) s) as Hp.
  rewrite Hget in Hp. exact Hp.
Qed.

(** X13: the current point has no wind direction: the condition, the temperature,
    the wind speed and the forecast list are already those of the new cycle
    when [forecastnow["wind_bearing"]] raises [KeyError], and the wind
    bearing and the extra attributes stay those of the cycle before.
    [async_update] logs the exception and returns. *)
Theorem missing_wind_bearing_half_publishes (s s1 : state) (data : document)
    (l : list event) (p : point) (rest : list point) :
  _get (_geolocation_id s) s = (s1, Ok data) ->
  merge (now_at (ticks s1)) data = (l, Ok (p :: rest)) ->
  p_wind_bearing p = None ->
  ∃ t s',
    p_temperature p = Some t
    ∧ async_update s = (s', Ok tt)
    ∧ published s'
      = (Some (p_condition p), Some t, Some (p_wind_speed p),
         _wind_bearing s, _state_attrs s, rest)
    ∧ log s' = log s1 ++ l ++ [ExcUpdateFailed (KeyError "wind_bearing")]
    ∧ _api_data s' = _api_data s1.
Proof using Type. clear.
  intros Hget Hm Hwb.
  assert (Hpub : Forall publishable (p :: rest)).
  { apply (merge_Ok_publishable (now_at (ticks s1)) (localtime (ticks s1)).2 data);
      [done|by rewrite Hm]. }
  apply Forall_cons in Hpub as [[[t Ht] _] _].
  pose proof (_get_same_published (_geolocation_id s) s) as Hp.
  rewrite Hget in Hp. unfold same_published, published in Hp. simpl in Hp.
  injection Hp as H1 H2 H3 H4 H5 H6.
  exists t. eexists. split; [done|].
  unfold async_update. rewrite (update_after_get _ _ _ Hget), Hm.
  unfold mbind, M_bind, run_W, modify, lift, point_item. cbn [fst snd].
  rewrite Ht, Hwb. cbn.
  split_and!; [reflexivity| |cbn; by rewrite <- app_assoc|done].
  unfold published; cbn. congruence.
Qed.

(** *** Exceptions that reach the host *)

Lemma only_Exception_ret {A} (a : A) : only_Exception (mret a : M A).
Proof using Type. clear. by intros s e. Qed.

Lemma only_Exception_lift {A} (r : result A) :
  result_only_Exception r -> only_Exception (lift r).
Proof using Type. clear. intros Hr s e. apply Hr. Qed.

Lemma only_Exception_get_state : only_Exception get_state.
Proof using Type. clear. by intros s e. Qed.

Lemma only_Exception_modify f : only_Exception (modify f).
Proof using Type. clear. by intros s e. Qed.

Lemma only_Exception_raise {A} (e : exn) :
  is_Exception e = true -> only_Exception (raise (A:=A) e).
Proof using Type. clear. intros He s e'. cbn. by intros [= <-]. Qed.

Lemma only_Exception_bind {A B} (m : M A) (f : A -> M B) :
  only_Exception m -> (∀ a, only_Exception (f a)) -> only_Exception (m ≫= f).
Proof using Type. clear.
  intros Hm Hf s e. unfold mbind, M_bind. specialize (Hm s).
  destruct (m s) as [s' [a|e']]; cbn in *; [apply Hf|].
  intros [= <-]. by apply Hm.
Qed.

Lemma only_Exception_if {A} (b : bool) (m1 m2 : M A) :
  only_Exception m1 -> only_Exception m2 ->
  only_Exception (if b then m1 else m2).
Proof using Type. clear. by destruct b. Qed.

Lemma only_Exception_reraise_logged {A} (m : M A) ev :
  only_Exception m -> only_Exception (reraise_logged m ev).
Proof using Type. clear.
  intros Hm s e. unfold reraise_logged. specialize (Hm s).
  destruct (m s) as [s' [a|e']]; cbn in *; [done|].
  destruct (is_Exception e'); cbn; intros [= <-]; by apply Hm.
Qed.

Lemma only_Exception_run_W {A} (m : W A) :
  raises_Exception m -> only_Exception (run_W m).
Proof using Type. clear. intros Hm s e. apply Hm. Qed.

Lemma result_only_Exception_getitem {V} (d : gmap string V) k :
  result_only_Exception (getitem d k).
Proof using Type. clear. apply (raises_Exception_getitem d k). Qed.

Lemma result_only_Exception_py_int v : result_only_Exception (py_int v).
Proof using Type. clear. apply (raises_Exception_py_int v). Qed.

Lemma result_only_Exception_point_item {A} key (field : option A) :
  result_only_Exception (point_item key field).
Proof using Type. clear. intros e. destruct field; [done|]. by intros [= <-]. Qed.

Lemma result_only_Exception_float_ge t v : result_only_Exception (float_ge t v).
Proof using Type. clear.
  intros e. destruct v as [| | |f| |]; cbn; try done; try (by intros [= <-]).
  all: destruct f; try done; by destruct (Float.to_Q _).
Qed.

Lemma result_only_Exception_deg_to_cardinal x :
  result_only_Exception (deg_to_cardinal x).
Proof using Type. clear.
  intros e. unfold deg_to_cardinal.
  destruct (Float.round _) as [i|e'] eqn:Hr.
  - destruct (CARDINALS !! _); [done|]. by intros [= <-].
  - intros [= <-]. unfold Float.round in Hr.
    destruct (div_cardinal_degree _); by simplify_eq.
Qed.

Ltac only_Exception_step :=
  first
  [ apply only_Exception_ret
  | apply only_Exception_get_state
  | apply only_Exception_modify
  | apply only_Exception_lift;
      first [ apply result_only_Exception_getitem
            | apply result_only_Exception_py_int
            | apply result_only_Exception_point_item
            | apply result_only_Exception_float_ge
            | apply result_only_Exception_deg_to_cardinal ]
  | apply only_Exception_raise; reflexivity
  | apply only_Exception_reraise_logged
  | apply only_Exception_if
  | apply only_Exception_bind; [|intros ?] ].

Lemma time_time_only_Exception : only_Exception time_time.
Proof using Type. clear. by intros s e. Qed.

Lemma logger_only_Exception ev : only_Exception (logger ev).
Proof using Type. clear. by intros s e. Qed.

Lemma check_only_Exception d :
  only_Exception (_check_client_credentials_response d).
Proof using Type. clear.
  unfold _check_client_credentials_response.
  repeat first [ apply time_time_only_Exception | apply logger_only_Exception
               | only_Exception_step | case_decide ].
Qed.

Lemma merge_only_Exception now data : only_Exception (run_W (merge now data)).
Proof using Type. clear.
  apply only_Exception_run_W. intros e. apply merge_raise_is_Exception.
Qed.

Section Outside.
(** The outside world does not cancel: neither endpoint, nor the decoding
    of a body the forecast endpoint sent, nor [datetime.fromtimestamp]
    raises anything but an [Exception]. *)
Hypothesis session_post_only_Exception :
  ∀ key secret, result_only_Exception (session_post key secret).
Hypothesis session_get_only_Exception :
  ∀ geo tok, result_only_Exception (session_get geo tok).
Hypothesis json_only_Exception :
  ∀ geo tok resp, session_get geo tok = Ok resp ->
                  result_only_Exception (json resp).
Hypothesis fromtimestamp_only_Exception :
  ∀ t, result_only_Exception (fromtimestamp t).

Lemma renew_only_Exception : only_Exception _renew_api_key.
Proof.
  unfold _renew_api_key, request_access_token, setitem.
  repeat first [ apply check_only_Exception
               | apply only_Exception_lift, session_post_only_Exception
               | only_Exception_step ].
Qed.

Lemma get_api_key_only_Exception : only_Exception get_api_key.
Proof.
  unfold get_api_key.
  repeat first [ apply renew_only_Exception | apply time_time_only_Exception
               | apply logger_only_Exception | only_Exception_step
               | case_match ].
Qed.

Lemma _get_only_Exception geo : only_Exception (_get geo).
Proof.
  unfold _get. apply only_Exception_bind; [apply get_api_key_only_Exception|].
  intros tok s e. unfold mbind at 1, M_bind at 1, lift at 1.
  destruct (session_get geo tok) as [resp|e'] eqn:Hget.
  2:{ cbn. intros [= <-]. by eapply session_get_only_Exception. }
  cbn beta iota. revert s e.
  change (only_Exception
    (_ ← (if status resp =? HTTP_OK then
            reset ← lift (py_int
                            (default (VInt 0)
                               (VStr <$> headers resp !! "x-ratelimit-reset-time")));
            _ ← lift (fromtimestamp (Qmake reset 1000));
            mret tt
          else mret tt);
     data ← lift (json resp);
     _ ← (if 400 <=? status resp then raise (HTTPError (status resp))
          else mret tt);
     mret data)).
  repeat first [ apply only_Exception_lift, fromtimestamp_only_Exception
               | apply only_Exception_lift, (json_only_Exception _ _ _ Hget)
               | only_Exception_step ].
Qed.

Lemma update_only_Exception : only_Exception __update.
Proof.
  unfold __update, datetime_now_astimezone.
  apply only_Exception_bind; [apply only_Exception_get_state|]. intros s0.
  apply only_Exception_bind; [apply _get_only_Exception|]. intros data.
  apply only_Exception_bind; [by intros s e|]. intros now.
  apply only_Exception_bind; [apply merge_only_Exception|]. intros forecast.
  apply only_Exception_bind; [apply only_Exception_modify|]. intros _.
  destruct forecast as [|forecastnow rest]; repeat only_Exception_step.
Qed.

(** X14: while the outside world does not cancel, [async_update] never raises:
    whatever the store, the answers of the endpoints and the document, every
    failure of the cycle ends in the log and the call returns. *)
Theorem async_update_never_raises (s : state) : (async_update s).2 = Ok tt.
Proof.
  unfold async_update. pose proof (update_only_Exception s) as H.
  destruct (__update s) as [s' [[]|e]]; [done|].
  cbn in H. by rewrite (H e eq_refl).
Qed.
End Outside.

(** X15: [asyncio.CancelledError] is the one exception [async_update] lets
    through: raised by the forecast request, it reaches the caller with
    nothing logged for the failed cycle and nothing published. *)
Theorem cancelled_request_passes_through (s s1 : state) (tok : pyval) :
  get_api_key s = (s1, Ok tok) ->
  session_get (_geolocation_id s) tok = Raise CancelledError ->
  async_update s = (s1, Raise CancelledError)
  ∧ published s1 = published s
  ∧ (renewals (log s1) ≤ S (renewals (log s)))%nat.
Proof using Type. clear.
  intros Hkey Hget.
  assert (Hg : _get (_geolocation_id s) s = (s1, Raise CancelledError)).
  { unfold _get. unfold mbind at 1, M_bind at 1. rewrite Hkey.
    unfold mbind at 1, M_bind at 1, lift at 1. by rewrite Hget. }
  split_and!.
  - unfold async_update. by rewrite (update_get_failed _ _ _ Hg).
  - pose proof (get_api_key_same_published s) as Hp. by rewrite Hkey in Hp.
  - assert (Hp2 : preserves same_renewals
              (_ ← _renew_api_key; s' ← get_state;
               lift (getitem (_api_data s') ATTR_API_KEY))).
    { repeat first [ apply renew_same_renewals | preserves_step ]. }
    rewrite get_api_key_unfold in Hkey.
    destruct (_api_data s !! ATTR_EXPIRES_AT) as [v|].
    + destruct (float_ge (clock (ticks s)) v) as [[]|]; [| |done].
      * specialize (Hp2 (add_log [InfoRenewing] (tick s))). rewrite Hkey in Hp2.
        unfold same_renewals in Hp2. cbn in Hp2. rewrite Hp2.
        rewrite renewals_app, renewals_singleton. cbn. lia.
      * injection Hkey as <- _. cbn. lia.
    + specialize (Hp2 (add_log [InfoRenewing] s)). rewrite Hkey in Hp2.
      unfold same_renewals in Hp2. cbn in Hp2. rewrite Hp2.
      rewrite renewals_app, renewals_singleton. cbn. lia.
Qed.

Lemma update_success (s s1 : state) (data : document) (l : list event)
    (p : point) (rest : list point) (b : Z) (c : string) :
  _get (_geolocation_id s) s = (s1, Ok data) ->
  merge (now_at (ticks s1)) data = (l, Ok (p :: rest)) ->
  p_wind_bearing p = Some b ->
  deg_to_cardinal (NInt b) = Ok c ->
  ∃ t s',
    p_temperature p = Some t
    ∧ __update s = (s', Ok tt)
    ∧ async_update s = (s', Ok tt)
    ∧ published s'
      = (Some (p_condition p), Some t, Some (p_wind_speed p), Some c,
         <["precipitation_probability" := VFloat (p_precipitation_probability p)]>
           (<["precipitation" := VFloat (p_precipitation p)]>
              (<["symbol_id" := VInt (p_symbol_id p)]>
                 (<["wind_direction" := VInt b]> (_state_attrs s)))),
         rest)
    ∧ log s' = log s1 ++ l
    ∧ _api_data s' = _api_data s1.
Proof using Type. clear.
  intros Hget Hm Hwb Hc.
  assert (Hpub : Forall publishable (p :: rest)).
  { apply (merge_Ok_publishable (now_at (ticks s1)) (localtime (ticks s1)).2 data);
      [done|by rewrite Hm]. }
  apply Forall_cons in Hpub as [[[t Ht] _] _].
  pose proof (_get_same_published (_geolocation_id s) s) as Hp.
  rewrite Hget in Hp. unfold same_published, published in Hp. simpl in Hp.
  injection Hp as H1 H2 H3 H4 H5 H6.
  exists t. eexists. split; [done|].
  unfold async_update. rewrite (update_after_get _ _ _ Hget), Hm.
  unfold mbind, M_bind, run_W, modify, lift, point_item. cbn [fst snd].
  rewrite Ht, Hwb. cbn [fst snd]. rewrite Hc. cbn.
  split_and!; [reflexivity|reflexivity| |done|done].
  unfold published; cbn. congruence.
Qed.

(** X16: the clock of a cycle: [now] is the local time cut to the hour, the
    hourly window runs twelve hours from it, and the daily cutoff is a
    midnight between 25 and 48 hours after it, so that the tri-hourly
    window spans 13 to 36 hours. *)
Theorem update_windows_span (k : nat) :
  let now := now_at k in
  utcoffset now = Some (localtime k).2
  ∧ wall now mod usec_per_hour = 0
  ∧ wall now ≤ (localtime k).1 < wall now + usec_per_hour
  ∧ wall (hourly_cutoff now) = wall now + 12 * usec_per_hour
  ∧ wall (daily_cutoff now) mod usec_per_day = 0
  ∧ wall now + 25 * usec_per_hour ≤ wall (daily_cutoff now)
      ≤ wall now + 48 * usec_per_hour.
Proof using Type. clear.
  intros now.
  assert (Hh : wall now mod usec_per_hour = 0).
  { unfold now, now_at, replace_minute_second_microsecond_0. cbn [wall].
    rewrite Zminus_mod, Z.mod_mod, Z.sub_diag by done. done. }
  pose proof (daily_cutoff_is_midnight now Hh) as [Hd1 Hd2].
  pose proof (cutoffs_ordered now) as Hc.
  split_and!; try done.
  - unfold now, now_at, replace_minute_second_microsecond_0. cbn [wall].
    pose proof (Z.mod_pos_bound (localtime k).1 usec_per_hour ltac:(done)). lia.
  - unfold now, now_at, replace_minute_second_microsecond_0. cbn [wall].
    pose proof (Z.mod_pos_bound (localtime k).1 usec_per_hour ltac:(done)). lia.
  - unfold hourly_cutoff in Hc. cbn [wall dt_add] in Hc. lia.
  - unfold usec_per_day in Hd2. lia.
Qed.

(** ** A record that fails to parse: what is put out and what is logged *)

Lemma parse_log_quiet src r l x :
  parse_of src r = (l, x) -> parse_warnings l = [].
Proof using Type. clear.
  intros H. pose proof (parse_of_quiet src r) as Hq. by rewrite H in Hq.
Qed.

(** A loop over records that all parse to timezone-aware timestamps returns
    and logs no parse warning. *)
Lemma hourly_loop_parseable now hs on ohs raws acc :
  utcoffset now = Some on -> utcoffset hs = Some ohs ->
  parseable parse_forecast_hour raws ->
  (∃ out, (hourly_loop now hs raws acc).2 = Ok out)
  ∧ parse_warnings (hourly_loop now hs raws acc).1 = [].
Proof using Type. clear.
  intros Hnow Hhs Hp. revert acc.
  induction raws as [|r rest IH]; intros acc; [by split; [eexists|]|].
  apply Forall_cons in Hp as [[[i p] Hr] Hp].
  destruct (stamped_Some _ _ _ _ Hr) as (l & d & off & Hparse & Hoff & ->).
  rewrite (hourly_loop_stamped _ _ _ _ _ _ _ _ _ _ _ Hnow Hhs Hparse Hoff).
  cbv zeta. cbn [fst snd]. rewrite parse_warnings_app.
  rewrite (parse_log_quiet Hourly _ _ _ Hparse), app_nil_l.
  destruct (wall d - off <? wall now - on); [by apply IH|].
  destruct (wall hs - ohs <? wall d - off); [by split; [eexists|]|by apply IH].
Qed.

Lemma triple_hour_loop_parseable hs ts ohs ots raws acc :
  utcoffset hs = Some ohs -> utcoffset ts = Some ots ->
  parseable parse_forecast_hour raws ->
  (∃ out, (triple_hour_loop hs ts raws acc).2 = Ok out)
  ∧ parse_warnings (triple_hour_loop hs ts raws acc).1 = [].
Proof using Type. clear.
  intros Hhs Hts Hp. revert acc.
  induction raws as [|r rest IH]; intros acc; [by split; [eexists|]|].
  apply Forall_cons in Hp as [[[i p] Hr] Hp].
  destruct (stamped_Some _ _ _ _ Hr) as (l & d & off & Hparse & Hoff & ->).
  rewrite (triple_hour_loop_stamped _ _ _ _ _ _ _ _ _ _ _ Hhs Hts Hparse Hoff).
  cbv zeta. cbn [fst snd]. rewrite parse_warnings_app.
  rewrite (parse_log_quiet TripleHourly _ _ _ Hparse), app_nil_l.
  destruct (wall d - off <=? wall hs - ohs); [by apply IH|].
  destruct (wall ts - ots <? wall d - off); [by split; [eexists|]|by apply IH].
Qed.

Lemma daily_loop_parseable ts ots raws acc :
  utcoffset ts = Some ots ->
  parseable parse_forecast_day raws ->
  (∃ out, (daily_loop ts raws acc).2 = Ok out)
  ∧ parse_warnings (daily_loop ts raws acc).1 = [].
Proof using Type. clear.
  intros Hts Hp. revert acc.
  induction raws as [|r rest IH]; intros acc; [by split; [eexists|]|].
  apply Forall_cons in Hp as [[[i p] Hr] Hp].
  destruct (stamped_Some _ _ _ _ Hr) as (l & d & off & Hparse & Hoff & ->).
  rewrite (daily_loop_stamped _ _ _ _ _ _ _ _ _ Hts Hparse Hoff).
  cbv zeta. cbn [fst snd]. rewrite parse_warnings_app.
  rewrite (parse_log_quiet Daily _ _ _ Hparse), app_nil_l.
  destruct (wall d - off <=? wall ts - ots); by apply IH.
Qed.

(** The warning for the one record that fails is logged exactly when the
    loop reaches the record. *)
Lemma hourly_loop_reach now hs on ohs pre r post acc e :
  utcoffset now = Some on -> utcoffset hs = Some ohs ->
  wall now - on ≤ wall hs - ohs ->
  parseable parse_forecast_hour pre -> parseable parse_forecast_hour post ->
  (parse_forecast_hour r).2 = Raise e ->
  (reaches Hourly (wall hs - ohs) 0 (stamps parse_forecast_hour pre) ->
   parse_warnings (hourly_loop now hs (pre ++ r :: post) acc).1 = [(Hourly, r)])
  ∧ (¬ reaches Hourly (wall hs - ohs) 0 (stamps parse_forecast_hour pre) ->
     parse_warnings (hourly_loop now hs (pre ++ r :: post) acc).1 = []).
Proof using Type. clear.
  intros Hnow Hhs Hle Hpre Hpost He. cbn [reaches]. revert acc.
  induction pre as [|x pre IH]; intros acc.
  - rewrite app_nil_l, (hourly_loop_failed _ _ _ _ _ _ He). cbn [fst].
    pose proof (parse_of_quiet Hourly r) as Hq. cbn [parse_of] in Hq.
    rewrite !parse_warnings_app, Hq.
    destruct (hourly_loop_parseable now hs on ohs post acc Hnow Hhs Hpost)
      as [_ ->].
    split; [done|]. intros Hn. destruct Hn. constructor.
  - apply Forall_cons in Hpre as [[[i p] Hr] Hpre].
    destruct (stamped_Some _ _ _ _ Hr) as (l & d & off & Hparse & Hoff & ->).
    rewrite (stamps_cons_Some _ _ _ _ Hr), Forall_cons. cbn [fst].
    rewrite <- app_comm_cons.
    rewrite (hourly_loop_stamped _ _ _ _ _ _ _ _ _ _ _ Hnow Hhs Hparse Hoff).
    cbv zeta. cbn [fst snd]. rewrite parse_warnings_app.
    rewrite (parse_log_quiet Hourly _ _ _ Hparse), app_nil_l.
    destruct (IH Hpre acc) as [IH1 IH2].
    destruct (IH Hpre (acc ++ [p])) as [IH3 IH4].
    destruct (wall d - off <? wall now - on) eqn:Hlt.
    + apply Z.ltb_lt in Hlt. split.
      * intros [_ H]. by apply IH1.
      * intros Hn. apply IH2. intros H. apply Hn. split; [lia|done].
    + destruct (wall hs - ohs <? wall d - off) eqn:Hgt.
      * apply Z.ltb_lt in Hgt. split; [intros [? _]; lia|done].
      * apply Z.ltb_ge in Hgt. split.
        -- intros [_ H]. by apply IH3.
        -- intros Hn. apply IH4. intros H. apply Hn. by split.
Qed.

Lemma triple_hour_loop_reach hs ts ohs ots pre r post acc e :
  utcoffset hs = Some ohs -> utcoffset ts = Some ots ->
  wall hs - ohs ≤ wall ts - ots ->
  parseable parse_forecast_hour pre -> parseable parse_forecast_hour post ->
  (parse_forecast_hour r).2 = Raise e ->
  (reaches TripleHourly 0 (wall ts - ots) (stamps parse_forecast_hour pre) ->
   parse_warnings (triple_hour_loop hs ts (pre ++ r :: post) acc).1
   = [(TripleHourly, r)])
  ∧ (¬ reaches TripleHourly 0 (wall ts - ots) (stamps parse_forecast_hour pre) ->
     parse_warnings (triple_hour_loop hs ts (pre ++ r :: post) acc).1 = []).
Proof using Type. clear.
  intros Hhs Hts Hle Hpre Hpost He. cbn [reaches]. revert acc.
  induction pre as [|x pre IH]; intros acc.
  - rewrite app_nil_l, (triple_hour_loop_failed _ _ _ _ _ _ He). cbn [fst].
    pose proof (parse_of_quiet TripleHourly r) as Hq. cbn [parse_of] in Hq.
    rewrite !parse_warnings_app, Hq.
    destruct (triple_hour_loop_parseable hs ts ohs ots post acc Hhs Hts Hpost)
      as [_ ->].
    split; [done|]. intros Hn. destruct Hn. constructor.
  - apply Forall_cons in Hpre as [[[i p] Hr] Hpre].
    destruct (stamped_Some _ _ _ _ Hr) as (l & d & off & Hparse & Hoff & ->).
    rewrite (stamps_cons_Some _ _ _ _ Hr), Forall_cons. cbn [fst].
    rewrite <- app_comm_cons.
    rewrite (triple_hour_loop_stamped _ _ _ _ _ _ _ _ _ _ _ Hhs Hts Hparse Hoff).
    cbv zeta. cbn [fst snd]. rewrite parse_warnings_app.
    rewrite (parse_log_quiet TripleHourly _ _ _ Hparse), app_nil_l.
    destruct (IH Hpre acc) as [IH1 IH2].
    destruct (IH Hpre (acc ++ [p])) as [IH3 IH4].
    destruct (wall d - off <=? wall hs - ohs) eqn:Hlt.
    + apply Z.leb_le in Hlt. split.
      * intros [_ H]. by apply IH1.
      * intros Hn. apply IH2. intros H. apply Hn. split; [lia|done].
    + destruct (wall ts - ots <? wall d - off) eqn:Hgt.
      * apply Z.ltb_lt in Hgt. split; [intros [? _]; lia|done].
      * apply Z.ltb_ge in Hgt. split.
        -- intros [_ H]. by apply IH3.
        -- intros Hn. apply IH4. intros H. apply Hn. by split.
Qed.

Lemma daily_loop_reach ts ots pre r post acc e :
  utcoffset ts = Some ots ->
  parseable parse_forecast_day pre -> parseable parse_forecast_day post ->
  (parse_forecast_day r).2 = Raise e ->
  parse_warnings (daily_loop ts (pre ++ r :: post) acc).1 = [(Daily, r)].
Proof using Type. clear.
  intros Hts Hpre Hpost He. revert acc.
  induction pre as [|x pre IH]; intros acc.
  - rewrite app_nil_l, (daily_loop_failed _ _ _ _ _ He). cbn [fst].
    pose proof (parse_of_quiet Daily r) as Hq. cbn [parse_of] in Hq.
    rewrite !parse_warnings_app, Hq.
    by destruct (daily_loop_parseable ts ots post acc Hts Hpost) as [_ ->].
  - apply Forall_cons in Hpre as [[[i p] Hr] Hpre].
    destruct (stamped_Some _ _ _ _ Hr) as (l & d & off & Hparse & Hoff & ->).
    rewrite <- app_comm_cons.
    rewrite (daily_loop_stamped _ _ _ _ _ _ _ _ _ Hts Hparse Hoff).
    cbv zeta. cbn [fst snd]. rewrite parse_warnings_app.
    rewrite (parse_log_quiet Daily _ _ _ Hparse), app_nil_l.
    destruct (wall d - off <=? wall ts - ots); by apply IH.
Qed.

Lemma document_with_arrays src l hourly tri_hourly daily :
  document_with src l hourly tri_hourly daily
  = forecast_document (hourly_of src l hourly) (tri_hourly_of src l tri_hourly)
      (daily_of src l daily).
Proof using Type. clear. by destruct src. Qed.

Lemma merge_log_Ok now h t d l1 o1 l2 o2 :
  hourly_loop now (hourly_cutoff now) h [] = (l1, Ok o1) ->
  triple_hour_loop (hourly_cutoff now) (daily_cutoff now) t o1 = (l2, Ok o2) ->
  merge now (forecast_document h t d)
  = (l1 ++ l2 ++ (daily_loop (daily_cutoff now) d o2).1,
     (daily_loop (daily_cutoff now) d o2).2).
Proof using Type. clear.
  intros H1 H2. rewrite merge_forecast_document.
  rewrite (W_bind_Ok _ _ _ _ H1). rewrite (W_bind_Ok _ _ _ _ H2). done.
Qed.

(** The parse warnings of a merge whose first two loops return are those of
    the three loops, one after the other. *)
Lemma merge_parse_warnings now h t d w1 w2 w3 :
  (∀ acc, ∃ out, (hourly_loop now (hourly_cutoff now) h acc).2 = Ok out) ->
  (∀ acc, ∃ out,
     (triple_hour_loop (hourly_cutoff now) (daily_cutoff now) t acc).2 = Ok out) ->
  (∀ acc, parse_warnings (hourly_loop now (hourly_cutoff now) h acc).1 = w1) ->
  (∀ acc, parse_warnings
            (triple_hour_loop (hourly_cutoff now) (daily_cutoff now) t acc).1
          = w2) ->
  (∀ acc, parse_warnings (daily_loop (daily_cutoff now) d acc).1 = w3) ->
  parse_warnings (merge now (forecast_document h t d)).1 = w1 ++ w2 ++ w3.
Proof using Type. clear.
  intros O1 O2 W1 W2 W3.
  destruct (hourly_loop now (hourly_cutoff now) h []) as [l1 r1] eqn:H1.
  destruct (O1 []) as [o1 Ho1]. rewrite H1 in Ho1. cbn [snd] in Ho1. subst r1.
  destruct (triple_hour_loop (hourly_cutoff now) (daily_cutoff now) t o1)
    as [l2 r2] eqn:H2.
  destruct (O2 o1) as [o2 Ho2]. rewrite H2 in Ho2. cbn [snd] in Ho2. subst r2.
  rewrite (merge_log_Ok _ _ _ _ _ _ _ _ H1 H2). cbn [fst].
  rewrite !parse_warnings_app, W3.
  specialize (W1 []). rewrite H1 in W1. specialize (W2 o1). rewrite H2 in W2.
  cbn [fst] in W1, W2. by rewrite W1, W2.
Qed.

Lemma merge_parseable now off h t d :
  utcoffset now = Some off ->
  parseable parse_forecast_hour h ->
  parseable parse_forecast_hour t ->
  parseable parse_forecast_day d ->
  (∃ out, (merge now (forecast_document h t d)).2 = Ok out)
  ∧ parse_warnings (merge now (forecast_document h t d)).1 = [].
Proof using Type. clear.
  intros Hoff Hh Ht Hd.
  assert (Hhs : utcoffset (hourly_cutoff now) = Some off) by done.
  assert (Hts : utcoffset (daily_cutoff now) = Some off) by done.
  split.
  - destruct (hourly_loop now (hourly_cutoff now) h []) as [l1 r1] eqn:H1.
    destruct (hourly_loop_parseable now _ _ _ h [] Hoff Hhs Hh) as [[o1 Ho1] _].
    rewrite H1 in Ho1. cbn [snd] in Ho1. subst r1.
    destruct (triple_hour_loop (hourly_cutoff now) (daily_cutoff now) t o1)
      as [l2 r2] eqn:H2.
    destruct (triple_hour_loop_parseable _ _ _ _ t o1 Hhs Hts Ht) as [[o2 Ho2] _].
    rewrite H2 in Ho2. cbn [snd] in Ho2. subst r2.
    rewrite (merge_log_Ok _ _ _ _ _ _ _ _ H1 H2). cbn [snd].
    by destruct (daily_loop_parseable _ _ d o2 Hts Hd) as [? _].
  - apply (merge_parse_warnings now h t d [] [] []); intros acc.
    + by destruct (hourly_loop_parseable now _ _ _ h acc Hoff Hhs Hh).
    + by destruct (triple_hour_loop_parseable _ _ _ _ t acc Hhs Hts Ht).
    + by destruct (hourly_loop_parseable now _ _ _ h acc Hoff Hhs Hh).
    + by destruct (triple_hour_loop_parseable _ _ _ _ t acc Hhs Hts Ht).
    + by destruct (daily_loop_parseable _ _ d acc Hts Hd).
Qed.

(** The merge of three arrays of records that parse to timezone-aware
    timestamps in ascending order is the three windows, one after the
    other. *)
Lemma merge_windows now off h t d :
  utcoffset now = Some off ->
  parseable parse_forecast_hour h ->
  parseable parse_forecast_hour t ->
  parseable parse_forecast_day d ->
  ascending (stamps parse_forecast_hour h) ->
  ascending (stamps parse_forecast_hour t) ->
  ascending (stamps parse_forecast_day d) ->
  (merge now (forecast_document h t d)).2
  = Ok (filter (in_hourly_window (wall now - off)
                  (wall now - off + 12 * usec_per_hour))
          (stamps parse_forecast_hour h)
        ++ filter (in_triple_window (wall now - off + 12 * usec_per_hour)
                     (wall (daily_cutoff now) - off))
             (stamps parse_forecast_hour t)
        ++ filter (in_daily_window (wall (daily_cutoff now) - off))
             (stamps parse_forecast_day d)).*2.
Proof using Type. clear.
  intros Hoff Hph Hpt Hpd Hsh Hst Hsd.
  assert (Hhs : utcoffset (hourly_cutoff now) = Some off) by done.
  assert (Hts : utcoffset (daily_cutoff now) = Some off) by done.
  rewrite merge_forecast_document.
  erewrite W_bind_snd_Ok;
    [|apply (hourly_loop_spec now (hourly_cutoff now) off off _ _ Hoff Hhs);
      [done|by apply Sorted_StronglySorted; [apply _|]]].
  erewrite W_bind_snd_Ok;
    [|apply (triple_hour_loop_spec (hourly_cutoff now) (daily_cutoff now)
               off off _ _ Hhs Hts);
      [done|by apply Sorted_StronglySorted; [apply _|]]].
  rewrite (daily_loop_spec (daily_cutoff now) off _ _ Hts) by done.
  rewrite !fmap_app, app_nil_l, app_assoc.
  assert (E : wall (hourly_cutoff now) - off = wall now - off + 12 * usec_per_hour).
  { unfold hourly_cutoff. cbn [wall dt_add]. lia. }
  by rewrite E.
Qed.

(** With the record that fails in the array of [src]: both loops before the
    daily one return, and the parse warnings are the one for the record when
    its loop reaches it, none otherwise. *)
Lemma merge_with_failed_record now off src pre post hourly tri_hourly daily r e :
  utcoffset now = Some off ->
  (parse_of src r).2 = Raise e ->
  parseable parse_forecast_hour (hourly_of src (pre ++ post) hourly) ->
  parseable parse_forecast_hour (tri_hourly_of src (pre ++ post) tri_hourly) ->
  parseable parse_forecast_day (daily_of src (pre ++ post) daily) ->
  let with_r := document_with src (pre ++ r :: post) hourly tri_hourly daily in
  let reached :=
    reaches src (wall now - off + 12 * usec_per_hour)
      (wall (daily_cutoff now) - off) (stamps (parse_of src) pre) in
  (reached -> parse_warnings (merge now with_r).1 = [(src, r)])
  ∧ (¬ reached -> parse_warnings (merge now with_r).1 = []).
Proof using Type. clear.
  intros Hoff He Hh Ht Hd with_r reached.
  assert (Hhs : utcoffset (hourly_cutoff now) = Some off) by done.
  assert (Hts : utcoffset (daily_cutoff now) = Some off) by done.
  assert (E : wall (hourly_cutoff now) - off = wall now - off + 12 * usec_per_hour).
  { unfold hourly_cutoff. cbn [wall dt_add]. lia. }
  assert (Hcd : wall (hourly_cutoff now) - off ≤ wall (daily_cutoff now) - off).
  { pose proof (cutoffs_ordered now) as Hc. unfold usec_per_hour in Hc. lia. }
  assert (Hnh : wall now - off ≤ wall (hourly_cutoff now) - off).
  { rewrite E. unfold usec_per_hour. lia. }
  unfold with_r, reached. rewrite document_with_arrays.
  destruct src; cbn [hourly_of tri_hourly_of daily_of parse_of reaches] in *.
  - apply Forall_app in Hh as [Hpre Hpost].
    assert (O1 : ∀ acc, ∃ out,
              (hourly_loop now (hourly_cutoff now) (pre ++ r :: post) acc).2
              = Ok out).
    { intros acc.
      destruct (hourly_loop_skip now (hourly_cutoff now) pre r post acc e He)
        as [-> _].
      apply (hourly_loop_parseable now _ off off); [done..|].
      by apply Forall_app. }
    assert (O2 : ∀ acc, ∃ out,
              (triple_hour_loop (hourly_cutoff now) (daily_cutoff now)
                 tri_hourly acc).2 = Ok out).
    { intros acc. by apply (triple_hour_loop_parseable _ _ off off). }
    rewrite <- E. split; intros Hr.
    + apply (merge_parse_warnings now _ _ _ [(Hourly, r)] [] []);
        [done|done|..]; intros acc.
      * by apply (hourly_loop_reach now (hourly_cutoff now) off off pre r post
                    acc e Hoff Hhs Hnh Hpre Hpost He).
      * by apply (triple_hour_loop_parseable _ _ off off).
      * by apply (daily_loop_parseable _ off).
    + apply (merge_parse_warnings now _ _ _ [] [] []);
        [done|done|..]; intros acc.
      * by apply (hourly_loop_reach now (hourly_cutoff now) off off pre r post
                    acc e Hoff Hhs Hnh Hpre Hpost He).
      * by apply (triple_hour_loop_parseable _ _ off off).
      * by apply (daily_loop_parseable _ off).
  - apply Forall_app in Ht as [Hpre Hpost].
    assert (O1 : ∀ acc, ∃ out,
              (hourly_loop now (hourly_cutoff now) hourly acc).2 = Ok out).
    { intros acc. by apply (hourly_loop_parseable now _ off off). }
    assert (O2 : ∀ acc, ∃ out,
              (triple_hour_loop (hourly_cutoff now) (daily_cutoff now)
                 (pre ++ r :: post) acc).2 = Ok out).
    { intros acc.
      destruct (triple_hour_loop_skip (hourly_cutoff now) (daily_cutoff now)
                  pre r post acc e He) as [-> _].
      apply (triple_hour_loop_parseable _ _ off off); [done..|].
      by apply Forall_app. }
    split; intros Hr.
    + apply (merge_parse_warnings now _ _ _ [] [(TripleHourly, r)] []);
        [done|done|..]; intros acc.
      * by apply (hourly_loop_parseable now _ off off).
      * by apply (triple_hour_loop_reach (hourly_cutoff now) (daily_cutoff now)
                    off off pre r post acc e Hhs Hts Hcd Hpre Hpost He).
      * by apply (daily_loop_parseable _ off).
    + apply (merge_parse_warnings now _ _ _ [] [] []);
        [done|done|..]; intros acc.
      * by apply (hourly_loop_parseable now _ off off).
      * by apply (triple_hour_loop_reach (hourly_cutoff now) (daily_cutoff now)
                    off off pre r post acc e Hhs Hts Hcd Hpre Hpost He).
      * by apply (daily_loop_parseable _ off).
  - apply Forall_app in Hd as [Hpre Hpost].
    split; [intros _|intros Hn; by destruct Hn].
    apply (merge_parse_warnings now _ _ _ [] [] [(Daily, r)]); intros acc.
    + by apply (hourly_loop_parseable now _ off off).
    + by apply (triple_hour_loop_parseable _ _ off off).
    + by apply (hourly_loop_parseable now _ off off).
    + by apply (triple_hour_loop_parseable _ _ off off).
    + by apply (daily_loop_reach _ off pre r post acc e).
Qed.

(** C7: in a merge input where one record fails to parse and every other
    record parses to a timezone-aware timestamp, the merge does not abort:
    it returns the sequence it returns for the input without that record,
    and for ascending arrays that sequence is the three windows over all the
    other records, compared with the same cutoffs. The record is logged
    exactly when its loop reaches it, that is when no record before it in
    its array lies past the cutoff at which the loop breaks: then the log is
    that of the input without the record with the records of the failed
    parse and the warning naming the source and the record put in at one
    place, and this is the only parse warning; otherwise the two logs are
    equal. *)
Theorem merge_skips_unparseable_record
    (now : datetime) (off : Z) (src : source)
    (pre post hourly tri_hourly daily : list raw) (r : raw) (e : exn) :
  utcoffset now = Some off ->
  (parse_of src r).2 = Raise e ->
  let with_r := document_with src (pre ++ r :: post) hourly tri_hourly daily in
  let without_r := document_with src (pre ++ post) hourly tri_hourly daily in
  let h := hourly_of src (pre ++ post) hourly in
  let t := tri_hourly_of src (pre ++ post) tri_hourly in
  let d := daily_of src (pre ++ post) daily in
  parseable parse_forecast_hour h ->
  parseable parse_forecast_hour t ->
  parseable parse_forecast_day d ->
  let n := wall now - off in
  let hc := n + 12 * usec_per_hour in
  let dc := wall (daily_cutoff now) - off in
  let skipped := (parse_of src r).1 ++ [WarnParseFailed src r] in
  let reached := reaches src hc dc (stamps (parse_of src) pre) in
  (∃ out, (merge now with_r).2 = Ok out ∧ (merge now without_r).2 = Ok out)
  ∧ parse_warnings (merge now without_r).1 = []
  ∧ (reached ->
     parse_warnings (merge now with_r).1 = [(src, r)]
     ∧ ∃ la lb, (merge now without_r).1 = la ++ lb
                ∧ (merge now with_r).1 = la ++ skipped ++ lb)
  ∧ (¬ reached -> (merge now with_r).1 = (merge now without_r).1)
  ∧ (ascending (stamps parse_forecast_hour h) ->
     ascending (stamps parse_forecast_hour t) ->
     ascending (stamps parse_forecast_day d) ->
     (merge now with_r).2
     = Ok (filter (in_hourly_window n hc) (stamps parse_forecast_hour h)
           ++ filter (in_triple_window hc dc) (stamps parse_forecast_hour t)
           ++ filter (in_daily_window dc) (stamps parse_forecast_day d)).*2).
Proof using Type. clear.
  intros Hoff He with_r without_r h t d Hh Ht Hd n hc dc skipped reached.
  destruct (merge_skip_rel now src pre post hourly tri_hourly daily r e He)
    as (Hout & la & lb & Hwo & Hw).
  fold with_r without_r skipped in Hout, Hwo, Hw.
  assert (Hdoc : without_r = forecast_document h t d)
    by apply document_with_arrays.
  destruct (merge_parseable now off h t d Hoff Hh Ht Hd) as [[out Hok] Hquiet].
  rewrite <- Hdoc in Hok, Hquiet.
  destruct (merge_with_failed_record now off src pre post hourly tri_hourly
              daily r e Hoff He Hh Ht Hd) as [Hyes Hno].
  fold with_r n hc dc reached in Hyes, Hno.
  assert (Hsk : parse_warnings skipped = [(src, r)]).
  { unfold skipped. by rewrite parse_warnings_app, parse_of_quiet. }
  split_and!.
  - exists out. by rewrite Hout.
  - exact Hquiet.
  - intros Hr. split; [by apply Hyes|]. exists la, lb. split; [done|].
    destruct Hw as [Hw|Hw]; [|done]. exfalso.
    specialize (Hyes Hr). rewrite Hw, <- Hwo, Hquiet in Hyes. discriminate.
  - intros Hr. destruct Hw as [Hw|Hw]; [by rewrite Hw, Hwo|]. exfalso.
    specialize (Hno Hr). rewrite Hw, !parse_warnings_app, Hsk in Hno.
    by destruct (parse_warnings la).
  - intros Ah At Ad. rewrite Hout, Hdoc.
    by apply merge_windows.
Qed.

End Integration.

(** ** Condition mapper *)

Lemma SYMBOL_STATE_MAP_keys (k : Z) :
  is_Some (SYMBOL_STATE_MAP !! k) -> (1 ≤ k ≤ 30) ∨ (-30 ≤ k ≤ -1).
Proof.
  intros Hs. destruct (decide ((1 ≤ k ≤ 30) ∨ (-30 ≤ k ≤ -1))) as [|Hn]; [done|].
  exfalso. apply is_Some_alt in Hs.
  unfold SYMBOL_STATE_MAP in Hs. rewrite not_elem_of_list_to_map_1 in Hs; [done|].
  unfold SYMBOL_STATE_TABLE. cbn [fmap list_fmap fst].
  rewrite !elem_of_cons, elem_of_nil. lia.
Qed.

Lemma day_and_night_defined_all :
  forallb day_and_night_defined (seqZ 1 30) = true.
Proof. vm_compute. reflexivity. Qed.

(** C8: symbol 1 is the sunny category and symbol -1 the clear-night one;
    every positive id of the table has its negative counterpart in the
    table, and both resolve to a category of the enumeration, without a
    warning; an id that is not in the table resolves to [unavailable], with
    a warning and without an exception. *)
Theorem symbol_map_day_night_and_unknown :
  get_condition_from_symbol 1 = ([], Ok "sunny")
  ∧ get_condition_from_symbol (-1) = ([], Ok "clear-night")
  ∧ (∀ k, 0 < k -> is_Some (SYMBOL_STATE_MAP !! k) ->
       is_Some (SYMBOL_STATE_MAP !! (- k))
       ∧ ∃ c c', get_condition_from_symbol k = ([], Ok c)
                 ∧ get_condition_from_symbol (- k) = ([], Ok c')
                 ∧ c ∈ CONDITION_CATEGORIES ∧ c' ∈ CONDITION_CATEGORIES)
  ∧ (∀ k, SYMBOL_STATE_MAP !! k = None ->
       get_condition_from_symbol k
       = ([WarnNoCondition k], Ok STATE_UNAVAILABLE)).
Proof.
  split_and!; [done | done | |].
  - intros k Hk Hs. apply SYMBOL_STATE_MAP_keys in Hs as [Hr|Hr]; [|lia].
    pose proof day_and_night_defined_all as Hall.
    rewrite forallb_forall in Hall. specialize (Hall k).
    assert (Hin : In k (seqZ 1 30)).
    { apply list_elem_of_In, elem_of_seqZ. lia. }
    apply Hall in Hin. unfold day_and_night_defined in Hin.
    unfold get_condition_from_symbol.
    destruct (SYMBOL_STATE_MAP !! k) as [c|]; [|done].
    destruct (SYMBOL_STATE_MAP !! (- k)) as [c'|]; [|done].
    apply andb_true_iff in Hin as [H1%bool_decide_eq_true H2%bool_decide_eq_true].
    split; [done|]. by exists c, c'.
  - intros k Hk. unfold get_condition_from_symbol. by rewrite Hk.
Qed.

(** ** Bearing converter

    Facts on the rounding of [SpecFloat]: no operation of the converter
    overflows. *)

Module FloatFacts.
Import Float.

Lemma fexp_eq x : fexp prec emax x = Z.max (x - 53) (-1074).
Proof. reflexivity. Qed.

Lemma digits2_pos_size p : digits2_pos p = Pos.size p.
Proof. induction p as [p IH|p IH|]; simpl; by rewrite ?IH. Qed.

Lemma Zdigits2_nonneg m : 0 ≤ Zdigits2 m.
Proof. destruct m; simpl; lia. Qed.

Lemma Zdigits2_pos_gt p : Zpos p < 2 ^ Zpos (digits2_pos p).
Proof.
  rewrite digits2_pos_size. pose proof (Pos.size_gt p) as H.
  apply Pos2Z.pos_lt_pos in H. by rewrite Pos2Z.inj_pow in H.
Qed.

Lemma Zdigits2_pos_le p : 2 ^ Zpos (digits2_pos p) ≤ 2 * Zpos p.
Proof.
  rewrite digits2_pos_size. pose proof (Pos.size_le p) as H.
  apply Pos2Z.pos_le_pos in H. by rewrite Pos2Z.inj_pow in H.
Qed.

(** A nonnegative integer below [2^k] has at most [k] binary digits. *)
Lemma Zdigits2_le m k : 0 ≤ m -> 0 ≤ k -> m < 2 ^ k -> Zdigits2 m ≤ k.
Proof.
  intros Hm Hk Hlt. destruct m as [|p|p]; [simpl; lia| |lia].
  simpl. pose proof (Zdigits2_pos_le p) as Hle.
  destruct (Z_le_gt_dec (Zpos (digits2_pos p)) k) as [|Hgt]; [done|exfalso].
  assert (2 ^ (k + 1) ≤ 2 ^ Zpos (digits2_pos p)) by (apply Z.pow_le_mono_r; lia).
  rewrite Z.pow_add_r in H by lia. lia.
Qed.

Lemma Zdigits2_gt m : 0 ≤ m -> m < 2 ^ Zdigits2 m.
Proof.
  intros Hm. destruct m as [|p|p]; [simpl; lia| |lia]. apply Zdigits2_pos_gt.
Qed.

Lemma Zdigits2_succ m : 0 ≤ m -> Zdigits2 (m + 1) ≤ Zdigits2 m + 1.
Proof.
  intros Hm. pose proof (Zdigits2_gt m Hm) as Hlt.
  pose proof (Zdigits2_nonneg m) as Hd.
  apply Zdigits2_le; [lia..|]. rewrite Z.pow_add_r by lia. lia.
Qed.

Lemma Zdigits2_div_pow2 m n :
  0 ≤ m -> 0 < n -> 0 < m / 2 ^ n -> Zdigits2 (m / 2 ^ n) + n ≤ Zdigits2 m.
Proof.
  intros Hm Hn Hq. pose proof (Zdigits2_gt m Hm) as Hlt.
  pose proof (Zdigits2_nonneg m) as Hd.
  assert (Hp : 0 < 2 ^ n) by (apply Z.pow_pos_nonneg; lia).
  assert (Hmul : 2 ^ n * (m / 2 ^ n) ≤ m) by (apply Z.mul_div_le; lia).
  assert (Hdn : n < Zdigits2 m).
  { destruct (Z_lt_ge_dec n (Zdigits2 m)) as [|Hge]; [done|exfalso].
    assert (2 ^ Zdigits2 m ≤ 2 ^ n) by (apply Z.pow_le_mono_r; lia). nia. }
  enough (Zdigits2 (m / 2 ^ n) ≤ Zdigits2 m - n) by lia.
  apply Zdigits2_le; [lia..|].
  assert (E : 2 ^ Zdigits2 m = 2 ^ n * 2 ^ (Zdigits2 m - n)).
  { rewrite <- Z.pow_add_r by lia. f_equal. lia. }
  nia.
Qed.

(** *** Shifting right *)

Lemma shr_1_m mrs : 0 ≤ shr_m mrs -> shr_m (shr_1 mrs) = shr_m mrs / 2.
Proof.
  destruct mrs as [m r s]. cbn [shr_m]. intros Hm.
  rewrite <- Z.div2_div. by destruct m as [|[p|p|]|p]; [..|lia].
Qed.

Lemma pow2_xO p : 2 ^ Zpos p~0 = 2 ^ Zpos p * 2 ^ Zpos p.
Proof.
  replace (Zpos p~0) with (Zpos p + Zpos p) by lia. by rewrite Z.pow_add_r by lia.
Qed.

Lemma pow2_xI p : 2 ^ Zpos p~1 = 2 * (2 ^ Zpos p * 2 ^ Zpos p).
Proof.
  replace (Zpos p~1) with (Zpos p + Zpos p + 1) by lia.
  rewrite !Z.pow_add_r by lia. change (2 ^ 1) with 2. ring.
Qed.

Lemma iter_shr_1_m p mrs :
  0 ≤ shr_m mrs ->
  shr_m (SpecFloat.iter_pos shr_1 p mrs) = shr_m mrs / 2 ^ Zpos p.
Proof.
  revert mrs. induction p as [p IH|p IH|]; intros mrs Hm; simpl SpecFloat.iter_pos.
  - assert (H1 : 0 ≤ shr_m (shr_1 mrs)).
    { rewrite shr_1_m by done. apply Z.div_pos; lia. }
    assert (Hp : 0 < 2 ^ Zpos p) by (apply Z.pow_pos_nonneg; lia).
    assert (H2 : 0 ≤ shr_m (SpecFloat.iter_pos shr_1 p (shr_1 mrs))).
    { rewrite IH by done. apply Z.div_pos; lia. }
    rewrite IH, IH, shr_1_m by done.
    rewrite !Z.div_div by lia. by rewrite pow2_xI.
  - assert (Hp : 0 < 2 ^ Zpos p) by (apply Z.pow_pos_nonneg; lia).
    assert (H2 : 0 ≤ shr_m (SpecFloat.iter_pos shr_1 p mrs)).
    { rewrite IH by done. apply Z.div_pos; lia. }
    rewrite IH, IH by done.
    rewrite !Z.div_div by lia. by rewrite pow2_xO.
  - by rewrite shr_1_m.
Qed.

Lemma shr_record_of_loc_m m l : shr_m (shr_record_of_loc m l) = m.
Proof. by destruct l as [|[]]. Qed.

(** The outcome of [shr_fexp] on a nonnegative mantissa: the mantissa stays
    nonnegative and the magnitude, digits plus exponent, does not grow
    beyond the larger of its old value and the smallest exponent. *)
Lemma shr_fexp_bound m e l :
  0 ≤ m ->
  let '(mrs, e') := shr_fexp prec emax m e l in
  0 ≤ shr_m mrs ∧ Zdigits2 (shr_m mrs) + e' ≤ Z.max (Zdigits2 m + e) (-1074).
Proof.
  intros Hm. unfold shr_fexp, shr. rewrite fexp_eq.
  pose proof (Zdigits2_nonneg m) as Hd.
  destruct (Z.max (Zdigits2 m + e - 53) (-1074) - e) as [|n|n] eqn:En.
  - rewrite shr_record_of_loc_m. lia.
  - rewrite iter_shr_1_m by (by rewrite shr_record_of_loc_m).
    rewrite shr_record_of_loc_m.
    assert (Hp : 0 < 2 ^ Zpos n) by (apply Z.pow_pos_nonneg; lia).
    assert (Hq : 0 ≤ m / 2 ^ Zpos n) by (apply Z.div_pos; lia).
    split; [done|].
    destruct (Z.eq_dec (m / 2 ^ Zpos n) 0) as [->|Hne].
    + simpl. lia.
    + pose proof (Zdigits2_div_pow2 m (Zpos n) Hm ltac:(lia) ltac:(lia)). lia.
  - rewrite shr_record_of_loc_m. lia.
Qed.

Lemma round_nearest_even_bound m l :
  0 ≤ m ->
  0 ≤ round_nearest_even m l
  ∧ Zdigits2 (round_nearest_even m l) ≤ Zdigits2 m + 1.
Proof.
  intros Hm. pose proof (Zdigits2_succ m Hm).
  unfold round_nearest_even. destruct l as [|[]]; try destruct (Z.even m); lia.
Qed.

Lemma small_mono B B' x : B ≤ B' -> small B x -> small B' x.
Proof. destruct x; simpl; lia. Qed.

Lemma small_is_finite B x : small B x -> is_finite x = true.
Proof. by destruct x. Qed.

(** Rounding a nonnegative mantissa of magnitude at most [B <= 971] never
    overflows. *)
Lemma binary_round_aux_small sx mx ex lx B :
  0 ≤ mx -> Zdigits2 mx + ex ≤ B -> B ≤ 971 ->
  small (Z.max (B + 1) (-1073)) (binary_round_aux prec emax sx mx ex lx).
Proof.
  intros Hm HB H971. unfold binary_round_aux.
  pose proof (shr_fexp_bound mx ex lx Hm) as H1.
  destruct (shr_fexp prec emax mx ex lx) as [mrs' e'].
  destruct H1 as [Hm' Hb'].
  pose proof (round_nearest_even_bound (shr_m mrs') (loc_of_shr_record mrs') Hm')
    as [Hr Hrd].
  pose proof (shr_fexp_bound _ e' loc_Exact Hr) as H2.
  destruct (shr_fexp prec emax _ e' loc_Exact) as [mrs'' e''].
  destruct H2 as [Hm'' Hb''].
  destruct (shr_m mrs'') as [|p|p] eqn:Ep; [done| |lia].
  simpl in Hb''.
  assert (He : e'' ≤ 971) by lia.
  apply Z.leb_le in He. change (emax - prec) with 971.
  rewrite He. simpl. lia.
Qed.

(** *** Normalisation, addition and division stay in range *)

Lemma Zdigits2_opp m : Zdigits2 (- m) = Zdigits2 m.
Proof. by destruct m. Qed.

Lemma iter_xO_value mx d : Zpos (Pos.iter xO mx d) = Zpos mx * 2 ^ Zpos d.
Proof.
  induction d as [|d IH] using Pos.peano_ind.
  - simpl. lia.
  - rewrite Pos.iter_succ, Pos2Z.inj_xO, IH, Pos2Z.inj_succ, Z.pow_succ_r by lia.
    ring.
Qed.

Lemma shl_align_bound mx ex e' :
  let '(mz, ez) := shl_align mx ex e' in
  ez ≤ ex ∧ (e' ≤ ex -> ez = e') ∧ Zpos mz = Zpos mx * 2 ^ (ex - ez).
Proof.
  unfold shl_align. destruct (e' - ex) as [|d|d] eqn:Ed.
  - rewrite Z.sub_diag. simpl. lia.
  - rewrite Z.sub_diag. simpl. lia.
  - rewrite iter_xO_value. split_and!; [lia|lia|]. do 2 f_equal. lia.
Qed.

Lemma shl_align_digits mx ex e' :
  let '(mz, ez) := shl_align mx ex e' in
  Zpos (digits2_pos mz) + ez ≤ Zpos (digits2_pos mx) + ex.
Proof.
  pose proof (shl_align_bound mx ex e') as H.
  destruct (shl_align mx ex e') as [mz ez]. destruct H as (Hle & _ & Hv).
  pose proof (Zdigits2_pos_gt mx) as Hgt.
  enough (Zdigits2 (Zpos mz) ≤ Zpos (digits2_pos mx) + (ex - ez)) by (simpl in *; lia).
  apply Zdigits2_le; [lia..|]. rewrite Hv, Z.pow_add_r by lia.
  assert (0 < 2 ^ (ex - ez)) by (apply Z.pow_pos_nonneg; lia). nia.
Qed.

Lemma binary_normalize_small m e szero B :
  Zdigits2 m + e ≤ B -> B ≤ 971 ->
  small (Z.max (B + 1) (-1073)) (binary_normalize prec emax m e szero).
Proof.
  intros HB H971. unfold binary_normalize, binary_round.
  destruct m as [|p|p]; [done|..].
  - pose proof (shl_align_digits p e (fexp prec emax (Zpos (digits2_pos p) + e))) as H.
    destruct (shl_align _ _ _) as [mz ez].
    apply binary_round_aux_small; [lia| simpl in *; lia | done].
  - pose proof (shl_align_digits p e (fexp prec emax (Zpos (digits2_pos p) + e))) as H.
    destruct (shl_align _ _ _) as [mz ez].
    apply binary_round_aux_small; [lia| simpl in *; lia | done].
Qed.

Lemma cond_Zopp_abs s m : Z.abs (cond_Zopp s m) = Z.abs m.
Proof. destruct s; simpl; lia. Qed.

Lemma Zdigits2_abs m : Zdigits2 (Z.abs m) = Zdigits2 m.
Proof. by destruct m. Qed.

Lemma pow2_lt_of_digits m d B e :
  0 < m -> m < 2 ^ d -> d + e ≤ B -> m * 2 ^ e < 2 ^ B ∨ e < 0.
Proof.
  intros Hm Hlt HB. destruct (Z_lt_ge_dec e 0) as [|He]; [by right|left].
  assert (Hd : 0 ≤ d).
  { destruct (Z_lt_ge_dec d 0) as [Hn|]; [|lia].
    rewrite Z.pow_neg_r in Hlt by lia. lia. }
  assert (Hp : 0 < 2 ^ e) by (apply Z.pow_pos_nonneg; lia).
  assert (Hle : 2 ^ (d + e) ≤ 2 ^ B) by (apply Z.pow_le_mono_r; lia).
  rewrite Z.pow_add_r in Hle by lia. nia.
Qed.

Lemma add_small Bx By x y :
  small Bx x -> small By y -> Z.max Bx By + 1 ≤ 971 ->
  small (Z.max (Z.max Bx By + 2) (-1073)) (add x y).
Proof.
  intros Hx Hy HB. unfold add.
  destruct x as [sx| | |sx mx ex], y as [sy| | |sy my ey]; try done.
  - by destruct sx, sy.
  - simpl in *. lia.
  - simpl in *. lia.
  - unfold SFadd. set (ez := Z.min ex ey).
    pose proof (shl_align_bound mx ex ez) as Hax.
    pose proof (shl_align_bound my ey ez) as Hay.
    destruct (shl_align mx ex ez) as [mx' ex'], (shl_align my ey ez) as [my' ey'].
    cbn [fst]. destruct Hax as (_ & Hex & Hvx), Hay as (_ & Hey & Hvy).
    rewrite Hex in Hvx by lia. rewrite Hey in Hvy by lia.
    simpl in Hx, Hy. set (M := Z.max Bx By) in *.
    pose proof (Zdigits2_pos_gt mx) as Hgx. pose proof (Zdigits2_pos_gt my) as Hgy.
    destruct (pow2_lt_of_digits (Zpos mx) _ (M - ez) (ex - ez) ltac:(lia) Hgx ltac:(lia))
      as [Hbx|]; [|lia].
    destruct (pow2_lt_of_digits (Zpos my) _ (M - ez) (ey - ez) ltac:(lia) Hgy ltac:(lia))
      as [Hby|]; [|lia].
    rewrite <- Hvx in Hbx. rewrite <- Hvy in Hby.
    replace (Z.max (M + 2) (-1073)) with (Z.max (M + 1 + 1) (-1073)) by lia.
    apply binary_normalize_small; [|lia].
    enough (Zdigits2 (cond_Zopp sx (Zpos mx') + cond_Zopp sy (Zpos my')) ≤ M + 1 - ez)
      by lia.
    rewrite <- Zdigits2_abs. apply Zdigits2_le; [lia|lia|].
    replace (M + 1 - ez) with (M - ez + 1) by lia. rewrite Z.pow_add_r by lia.
    change (2 ^ 1) with 2.
    destruct sx, sy; simpl; lia.
Qed.

(** Division by a finite nonzero float whose exponent is [ey]. *)
Lemma div_small B x sy my ey :
  small B x -> B - ey ≤ 971 ->
  small (Z.max (B - ey + 1) (-1073)) (div x (S754_finite sy my ey)).
Proof.
  intros Hx HB. unfold div. destruct x as [sx| | |sx mx ex]; try done.
  simpl in Hx. unfold SFdiv, SFdiv_core_binary.
  set (e' := Z.min _ _).
  assert (He' : e' ≤ ex - ey) by (unfold e'; lia).
  set (s := ex - ey - e').
  set (m' := match s with Z0 => Zpos mx | Zpos _ => Z.shiftl (Zpos mx) s | Zneg _ => 0 end).
  assert (Hm' : 0 ≤ m' ∧ m' = Zpos mx * 2 ^ s).
  { unfold m'. destruct s as [|p|p] eqn:Es; [simpl; lia| |lia].
    rewrite Z.shiftl_mul_pow2 by lia.
    assert (0 < 2 ^ Zpos p) by (apply Z.pow_pos_nonneg; lia). split; [nia|done]. }
  destruct Hm' as [Hm0 Hmv].
  pose proof (Z_div_mod m' (Zpos my) ltac:(lia)) as Hdm.
  destruct (Z.div_eucl m' (Zpos my)) as [q r]. destruct Hdm as [Hq Hr].
  assert (Hq0 : 0 ≤ q) by nia.
  assert (Hqm : q ≤ m') by nia.
  apply binary_round_aux_small; [done| |done].
  destruct (Z.eq_dec q 0) as [->|Hqn]; [simpl; lia|].
  pose proof (Zdigits2_pos_gt mx) as Hgx.
  enough (Zdigits2 q ≤ Zpos (digits2_pos mx) + s) by (unfold s in *; lia).
  apply Zdigits2_le; [lia|unfold s; lia|].
  rewrite Z.pow_add_r by (unfold s; lia).
  assert (0 < 2 ^ s) by (apply Z.pow_pos_nonneg; unfold s; lia). nia.
Qed.

(** The remainder by a positive int below [2^9], 360 among them. *)
Lemma fmod_pos_bound m e d :
  Zpos d < 2 ^ 9 ->
  let '(r, er) := fmod_pos m e d in 0 ≤ r ∧ (r = 0 ∨ Zdigits2 r + er ≤ 9).
Proof.
  intros Hd. unfold fmod_pos. destruct (0 <=? e) eqn:He.
  - pose proof (Z.mod_pos_bound (Zpos m * 2 ^ e) (Zpos d) ltac:(lia)) as Hb.
    split; [lia|right].
    enough (Zdigits2 ((Zpos m * 2 ^ e) mod Zpos d) ≤ 9) by lia.
    apply Zdigits2_le; lia.
  - apply Z.leb_gt in He.
    assert (Hp : 0 < 2 ^ (- e)) by (apply Z.pow_pos_nonneg; lia).
    pose proof (Z.mod_pos_bound (Zpos m) (Zpos d * 2 ^ (- e)) ltac:(nia)) as Hb.
    split; [lia|right].
    enough (Zdigits2 (Zpos m mod (Zpos d * 2 ^ (- e))) ≤ 9 - e) by lia.
    apply Zdigits2_le; [lia|lia|].
    replace (9 - e) with (9 + - e) by lia. rewrite Z.pow_add_r by lia. nia.
Qed.

Lemma rem_small x d :
  Zpos d < 2 ^ 9 -> is_finite x = true -> small 12 (rem x d).
Proof.
  intros Hd Hfin. destruct x as [sx| | |sx m e]; try done.
  unfold rem. pose proof (fmod_pos_bound m e d Hd) as Hb.
  destruct (fmod_pos m e d) as [r er]. destruct Hb as [Hr0 Hr].
  destruct (r =? 0) eqn:Er; [done|]. apply Z.eqb_neq in Er.
  destruct Hr as [|Hr]; [done|].
  destruct sx.
  - eapply small_mono; [|apply (add_small 10 10)]; [lia| | |lia].
    + eapply small_mono; [|apply (binary_normalize_small (- r) er false 9)];
        [lia| by rewrite Zdigits2_opp |lia].
    + unfold of_int.
      eapply small_mono; [|apply (binary_normalize_small (Zpos d) 0 false 9)];
        [lia| |lia].
      enough (Zdigits2 (Zpos d) ≤ 9) by lia. apply Zdigits2_le; lia.
  - eapply small_mono; [|apply (binary_normalize_small r er false 9)]; [lia|done|lia].
Qed.

Lemma round_finite x : is_finite x = true -> ∃ i, round x = Ok i.
Proof. destruct x; simpl; try done; eauto. Qed.

End FloatFacts.

Lemma _CARDINAL_DEGREE_value :
  _CARDINAL_DEGREE = S754_finite false 6333186975989760 (-48).
Proof. reflexivity. Qed.

Lemma CARDINALS_index i :
  ∃ c, CARDINALS !! Z.to_nat (i mod Z.of_nat (length CARDINALS)) = Some c
       ∧ c ∈ CARDINALS.
Proof.
  pose proof (Z.mod_pos_bound i (Z.of_nat (length CARDINALS)) ltac:(simpl; lia)) as Hb.
  destruct (lookup_lt_is_Some_2 CARDINALS
              (Z.to_nat (i mod Z.of_nat (length CARDINALS)))) as [c Hc]; [lia|].
  exists c. split; [done|]. by eapply list_elem_of_lookup_2.
Qed.

Lemma deg_to_cardinal_of_finite x :
  Float.is_finite (div_cardinal_degree (mod_full_circle x)) = true ->
  ∃ c, deg_to_cardinal x = Ok c ∧ c ∈ CARDINALS.
Proof.
  intros Hfin. unfold deg_to_cardinal.
  destruct (FloatFacts.round_finite _ Hfin) as [i ->].
  destruct (CARDINALS_index i) as (c & -> & Hc). by exists c.
Qed.

Lemma deg_to_cardinal_float_total f :
  Float.is_finite f = true -> ∃ c, deg_to_cardinal (NFloat f) = Ok c ∧ c ∈ CARDINALS.
Proof.
  intros Hfin. apply deg_to_cardinal_of_finite.
  cbn [mod_full_circle div_cardinal_degree]. rewrite _CARDINAL_DEGREE_value.
  eapply FloatFacts.small_is_finite, FloatFacts.div_small; [|].
  - apply FloatFacts.rem_small; [done|done].
  - lia.
Qed.

Lemma deg_to_cardinal_int_total z :
  ∃ c, deg_to_cardinal (NInt z) = Ok c ∧ c ∈ CARDINALS.
Proof.
  apply deg_to_cardinal_of_finite.
  cbn [mod_full_circle div_cardinal_degree]. rewrite _CARDINAL_DEGREE_value.
  pose proof (Z.mod_pos_bound z DEG_FULL_CIRCLE ltac:(done)) as Hb.
  change DEG_FULL_CIRCLE with 360 in *.
  eapply FloatFacts.small_is_finite, FloatFacts.div_small; [|].
  - unfold Float.of_int. apply (FloatFacts.binary_normalize_small _ 0 false 9); [|lia].
    enough (Zdigits2 (z mod 360) ≤ 9) by lia. apply FloatFacts.Zdigits2_le; lia.
  - lia.
Qed.

Lemma deg_to_cardinal_int_periodic z :
  deg_to_cardinal (add_full_circle (NInt z)) = deg_to_cardinal (NInt z).
Proof.
  unfold deg_to_cardinal, add_full_circle, mod_full_circle.
  replace ((z + DEG_FULL_CIRCLE) mod DEG_FULL_CIRCLE) with (z mod DEG_FULL_CIRCLE);
    [done|].
  rewrite <- (Z.mul_1_l DEG_FULL_CIRCLE) at 2. by rewrite Z.mod_add.
Qed.

Example deg_to_cardinal_samples :
  deg_to_cardinal (NInt 0) = Ok "N"
  ∧ deg_to_cardinal (NInt 90) = Ok "E"
  ∧ deg_to_cardinal (NInt 348) = Ok "NNW"
  ∧ deg_to_cardinal (NInt 349) = Ok "N"
  ∧ deg_to_cardinal (NInt (-90)) = Ok "W"
  ∧ deg_to_cardinal (NFloat (S754_finite false 45 (-2))) = Ok "N"
  ∧ deg_to_cardinal (NFloat (S754_finite true 1 (-70))) = Ok "N".
Proof. by vm_compute. Qed.

Lemma deg_to_cardinal_not_finite f :
  Float.is_finite f = false -> deg_to_cardinal (NFloat f) = Raise ValueError.
Proof. by destruct f. Qed.

(** C9 as stated fails on floats: [below_33_75] is a binary64 number, it
    maps to NNE, and [below_33_75 + 360] rounds to 393.75, which sits on the
    boundary and maps to NE. *)
Lemma cardinal_float_not_periodic :
  valid_binary Float.prec Float.emax below_33_75 = true
  ∧ deg_to_cardinal (NFloat below_33_75) = Ok "NNE"
  ∧ add_full_circle (NFloat below_33_75)
    = NFloat (S754_finite false 6926923254988800 (-44))
  ∧ deg_to_cardinal (add_full_circle (NFloat below_33_75)) = Ok "NE".
Proof. by vm_compute. Qed.

(** C9, as the code has it: the converter answers with one of the sixteen
    labels for every int and every finite float, and raises [ValueError] on
    nan and the infinities; on ints adding 360 does not change the label. *)
Theorem cardinal_total_and_periodic_on_int :
  (∀ z, ∃ c, deg_to_cardinal (NInt z) = Ok c ∧ c ∈ CARDINALS)
  ∧ (∀ f, Float.is_finite f = true ->
          ∃ c, deg_to_cardinal (NFloat f) = Ok c ∧ c ∈ CARDINALS)
  ∧ (∀ f, Float.is_finite f = false ->
          deg_to_cardinal (NFloat f) = Raise ValueError)
  ∧ (∀ z, deg_to_cardinal (add_full_circle (NInt z)) = deg_to_cardinal (NInt z))
  ∧ length CARDINALS = 16%nat.
Proof.
  split_and!; [apply deg_to_cardinal_int_total | apply deg_to_cardinal_float_total
              | apply deg_to_cardinal_not_finite | apply deg_to_cardinal_int_periodic
              | done].
Qed.

Lemma cardinal_total_witness :
  Float.is_finite (Float.of_int 45) = true
  ∧ deg_to_cardinal (NFloat (Float.of_int 45)) = Ok "NE"
  ∧ deg_to_cardinal (NInt 405) = deg_to_cardinal (NInt 45).
Proof.
  destruct cardinal_total_and_periodic_on_int as (_ & Hf & _ & Hp & _).
  split; [done|]. split; [|exact (Hp 45)].
  destruct (Hf (Float.of_int 45) eq_refl) as (c & Hc & _).
  rewrite Hc. f_equal. revert Hc. by vm_compute; intros [= <-].
Defined.

(** ** The bearing converter on whole degrees *)

Lemma round_agrees_all : forallb round_agrees (seqZ 0 360) = true.
Proof. by vm_compute. Qed.

Lemma round_agrees_in_range (k : Z) : 0 ≤ k < 360 -> round_agrees k = true.
Proof.
  intros Hk. pose proof round_agrees_all as H.
  rewrite forallb_forall in H. apply H.
  apply list_elem_of_In, elem_of_seqZ. lia.
Qed.

(** X18: on a whole number of degrees the float arithmetic of the converter
    comes to integer arithmetic: the label is the one at
    [((4 * (deg mod 360) + 45) / 90) mod 16] in [CARDINALS], and the
    opposite bearing gets the opposite label, eight places further. *)
Theorem deg_to_cardinal_int_sector (deg : Z) :
  0 ≤ cardinal_index deg < 16
  ∧ deg_to_cardinal (NInt deg)
    = match CARDINALS !! Z.to_nat (cardinal_index deg) with
      | Some c => Ok c
      | None => Raise IndexError
      end
  ∧ cardinal_index (deg + 180) = (cardinal_index deg + 8) mod 16.
Proof.
  pose proof (Z.mod_pos_bound deg 360 ltac:(done)) as Hk.
  pose proof (round_agrees_in_range _ Hk) as Hr. unfold round_agrees in Hr.
  split; [|split].
  - unfold cardinal_index. by apply Z.mod_pos_bound.
  - unfold deg_to_cardinal, mod_full_circle.
    change DEG_FULL_CIRCLE with 360.
    destruct (Float.round (div_cardinal_degree (NInt (deg mod 360))))
      as [i|e]; [|done].
    apply andb_prop in Hr as [Hi _]. apply Z.eqb_eq in Hi. subst i.
    change (Z.of_nat (length CARDINALS)) with 16. reflexivity.
  - destruct (Float.round (div_cardinal_degree (NInt (deg mod 360))))
      as [i|e]; [|done].
    apply andb_prop in Hr as [_ Hi]. apply Z.eqb_eq in Hi.
    unfold cardinal_index in *. rewrite Z.mod_mod in Hi by done.
    rewrite <- Hi. by rewrite Zplus_mod_idemp_l.
Qed.

(** ** Keyword arguments *)

(** X19: [weak_update] lets the caller's entries win: under [key] the result
    holds every entry the caller had there, and an entry of [value] only
    where the caller had none; the other keys of [d] are untouched; and a
    second call with the same [value] changes nothing. *)
Theorem weak_update_existing_wins {V} (d : gmap string (gmap string V))
    (key : string) (value : gmap string V) :
  (∃ merged,
     weak_update d key value !! key = Some merged
     ∧ ∀ k, merged !! k
            = match d !! key ≫= (.!! k) with
              | Some v => Some v
              | None => value !! k
              end)
  ∧ (∀ key', key' ≠ key -> weak_update d key value !! key' = d !! key')
  ∧ weak_update (weak_update d key value) key value = weak_update d key value.
Proof.
  unfold weak_update. split_and!.
  - eexists. split; [apply lookup_insert_eq|]. intros k.
    destruct (d !! key) as [existing|]; cbn; [|done].
    rewrite lookup_union. by destruct (existing !! k), (value !! k).
  - intros key' Hne. by rewrite lookup_insert_ne.
  - rewrite lookup_insert_eq, insert_insert_eq. f_equal.
    destruct (d !! key) as [existing|].
    + by rewrite <- (assoc_L (∪)), (idemp_L (∪)).
    + by rewrite (idemp_L (∪)).
Qed.

(** X20: the bearer token of [_get] gives way to an [Authorization] header the
    caller passes in, and is sent when the caller passes none; headers of
    other names and keyword arguments of other names go through as they
    are. *)
Theorem _get_kwargs_authorization (kwargs : gmap string (gmap string string))
    (authorization : string) :
  ∃ sent,
    _get_kwargs kwargs authorization !! "headers" = Some sent
    ∧ sent !! "Authorization"
      = Some (default authorization
                (kwargs !! "headers" ≫= (.!! "Authorization")))
    ∧ (∀ name, name ≠ "Authorization" ->
               sent !! name = kwargs !! "headers" ≫= (.!! name))
    ∧ (∀ key, key ≠ "headers" ->
              _get_kwargs kwargs authorization !! key = kwargs !! key).
Proof.
  unfold _get_kwargs, weak_update. eexists. split; [apply lookup_insert_eq|].
  split_and!.
  - destruct (kwargs !! "headers") as [existing|]; cbn.
    + rewrite lookup_union, lookup_singleton_eq.
      by destruct (existing !! "Authorization").
    + by rewrite lookup_singleton_eq.
  - intros name Hne. destruct (kwargs !! "headers") as [existing|]; cbn.
    + rewrite lookup_union, lookup_singleton_ne by done.
      by destruct (existing !! name).
    + by rewrite lookup_singleton_ne.
  - intros key Hne. by rewrite lookup_insert_ne.
Qed.

(** ** A cycle that goes through *)

Section Cycle.
Variable int_of_str : string -> option Z.
Variable float_of_str : string -> option spec_float.
Variable fromisoformat : string -> option datetime.
Variable isoformat : datetime -> string.
Variable fromtimestamp : Q -> result datetime.
Variables ATTR_API_KEY ATTR_EXPIRES_AT : string.
Variables CONF_CONSUMER_KEY CONF_CONSUMER_SECRET : string.
Variable HTTP_OK : Z.
Variable clock : nat -> Q.
Variable localtime : nat -> Z * Z.
Variable session_post : pyval -> pyval -> result (gmap string pyval).
Variable session_get : pyval -> pyval -> result response.

(** X17: when the document is fetched, the merge returns a first point and that
    point has a wind direction, the cycle cannot fail any more: the
    temperature is there, the direction has a compass label, and
    [async_update] publishes the condition, temperature, wind speed and
    label of the first point, the four extra attributes over the old ones,
    and the remaining points as the forecast. Nothing is logged beyond what
    the request and the merge logged. *)
Theorem successful_cycle_publishes (s s1 : state) (data : document)
    (l : list event) (p : point) (rest : list point) (b : Z) :
  _get int_of_str fromtimestamp ATTR_API_KEY ATTR_EXPIRES_AT CONF_CONSUMER_KEY
    CONF_CONSUMER_SECRET HTTP_OK clock session_post session_get
    (_geolocation_id s) s = (s1, Ok data) ->
  merge int_of_str float_of_str fromisoformat isoformat
    (now_at localtime (ticks s1)) data = (l, Ok (p :: rest)) ->
  p_wind_bearing p = Some b ->
  ∃ t c s',
    p_temperature p = Some t
    ∧ deg_to_cardinal (NInt b) = Ok c
    ∧ c ∈ CARDINALS
    ∧ async_update int_of_str float_of_str fromisoformat isoformat
        fromtimestamp ATTR_API_KEY ATTR_EXPIRES_AT CONF_CONSUMER_KEY
        CONF_CONSUMER_SECRET HTTP_OK clock localtime session_post session_get s
      = (s', Ok tt)
    ∧ published s'
      = (Some (p_condition p), Some t, Some (p_wind_speed p), Some c,
         <["precipitation_probability" := VFloat (p_precipitation_probability p)]>
           (<["precipitation" := VFloat (p_precipitation p)]>
              (<["symbol_id" := VInt (p_symbol_id p)]>
                 (<["wind_direction" := VInt b]> (_state_attrs s)))),
         rest)
    ∧ log s' = log s1 ++ l
    ∧ _api_data s' = _api_data s1.
Proof using Type. clear.
  intros Hget Hm Hwb.
  destruct (deg_to_cardinal_int_total b) as (c & Hc & Hin).
  destruct (update_success int_of_str float_of_str fromisoformat isoformat
              fromtimestamp ATTR_API_KEY ATTR_EXPIRES_AT CONF_CONSUMER_KEY
              CONF_CONSUMER_SECRET HTTP_OK clock localtime session_post
              session_get s s1 data l p rest b c Hget Hm Hwb Hc)
    as (t & s' & Ht & _ & Ha & Hpub & Hlog & Hst).
  exists t, c, s'. by split_and!.
Qed.
End Cycle.

(** ** The statements at the sample instance *)

Abbreviation sample_renew post :=
  (_renew_api_key Sample.int_of_str "api_key" "expires_at" "consumer_key"
     "consumer_secret" Sample.clock post).
Abbreviation sample_get_api_key :=
  (get_api_key Sample.int_of_str "api_key" "expires_at" "consumer_key"
     "consumer_secret" Sample.clock Sample.session_post).
Abbreviation sample_get get :=
  (_get Sample.int_of_str Sample.fromtimestamp "api_key" "expires_at"
     "consumer_key" "consumer_secret" Sample.HTTP_OK Sample.clock
     Sample.session_post get).
Abbreviation sample_async_update get :=
  (async_update Sample.int_of_str Sample.float_of_str Sample.fromisoformat
     Sample.isoformat Sample.fromtimestamp "api_key" "expires_at"
     "consumer_key" "consumer_secret" Sample.HTTP_OK Sample.clock
     Sample.localtime Sample.session_post get).
Abbreviation sample_update get :=
  (__update Sample.int_of_str Sample.float_of_str Sample.fromisoformat
     Sample.isoformat Sample.fromtimestamp "api_key" "expires_at"
     "consumer_key" "consumer_secret" Sample.HTTP_OK Sample.clock
     Sample.localtime Sample.session_post get).
Abbreviation sample_merge :=
  (merge Sample.int_of_str Sample.float_of_str Sample.fromisoformat
     Sample.isoformat).
Abbreviation sample_parse_hour :=
  (parse_forecast_hour Sample.int_of_str Sample.float_of_str
     Sample.fromisoformat Sample.isoformat).
Abbreviation sample_parse_day :=
  (parse_forecast_day Sample.int_of_str Sample.float_of_str
     Sample.fromisoformat Sample.isoformat).
Abbreviation sample_now :=
  ({| wall := 100 * usec_per_hour; utcoffset := Some 0 |}).

(** C2, at a response without [issued_at]: the clock reads 1_700_000_000
    seconds and the token lasts 3600 seconds, and the expiry stored is
    1_703_600, the reading divided by a thousand plus the duration, where the
    reading plus the duration is 1_700_003_600. With [issued_at] present, in
    milliseconds, the expiry stored is the issue time in seconds plus the
    duration. *)
Theorem renew_without_issued_at_divides_seconds :
  let s := Sample.entity Sample.store_fresh [] in
  (sample_renew Sample.session_post s).2 = Ok tt
  ∧ _api_data (sample_renew Sample.session_post s).1 !! "expires_at"
    = Some (VInt 1703600)
  ∧ Qtrunc (Sample.clock (ticks s)) + 3600 = 1700003600
  ∧ (sample_renew Sample.session_post_issued s).2 = Ok tt
  ∧ _api_data (sample_renew Sample.session_post_issued s).1 !! "expires_at"
    = Some (VInt 1700003600).
Proof. vm_compute. by split_and!. Qed.

Lemma renew_missing_keys_witness :
  let s := Sample.entity Sample.store_fresh [] in
  let d : gmap string pyval := {[ "expires_in" := VInt 3600 ]} in
  (_api_data s !! "consumer_key" = Some (VStr "k")
   ∧ _api_data s !! "consumer_secret" = Some (VStr "s")
   ∧ Sample.session_post_no_token (VStr "k") (VStr "s") = Ok d
   ∧ ("access_token" ∉ dom d ∨ "expires_in" ∉ dom d))
  ∧ ∃ s' missing,
      sample_renew Sample.session_post_no_token s = (s', Raise (MissingKeys missing))
      ∧ missing = ({[ "expires_in"; "access_token" ]} : gset string) ∖ dom d
      ∧ missing ≠ ∅
      ∧ _api_data s' = _api_data s
      ∧ published s' = published s.
Proof.
  intros s d.
  assert (Hd : "access_token" ∉ dom d ∨ "expires_in" ∉ dom d).
  { left. unfold d. rewrite dom_singleton_L. by apply not_elem_of_singleton. }
  split; [by split_and!|].
  by apply (renew_missing_keys_store_untouched Sample.int_of_str "api_key"
              "expires_at" "consumer_key" "consumer_secret" Sample.clock
              Sample.session_post_no_token s d (VStr "k") (VStr "s")).
Defined.

Lemma get_api_key_expiry_without_token_witness :
  let s := Sample.entity Sample.store_no_token [] in
  (_api_data s !! "expires_at" = Some (VInt 1800000000)
   ∧ (Sample.clock (ticks s) < inject_Z 1800000000)%Q
   ∧ _api_data s !! "api_key" = None)
  ∧ sample_get_api_key s = (tick s, Raise (KeyError "api_key"))
  ∧ renewals (log (sample_get_api_key s).1) = renewals (log s)
  ∧ _api_data (sample_get_api_key s).1 = _api_data s.
Proof.
  intros s.
  assert (Hlt : (Sample.clock (ticks s) < inject_Z 1800000000)%Q) by done.
  split; [by split_and!|].
  by apply (get_api_key_expiry_without_token Sample.int_of_str "api_key"
              "expires_at" "consumer_key" "consumer_secret" Sample.clock
              Sample.session_post s 1800000000).
Defined.

(** The boundary: the stored expiry is the very reading of the clock. *)
Lemma get_api_key_renews_at_expiry_witness :
  let s := Sample.entity Sample.store_due [] in
  (∀ v, _api_data s !! "expires_at" = Some v -> ∃ e, v = VInt e)
  ∧ (renewals (log (sample_get_api_key s).1) = S (renewals (log s))
     ↔ expired "expires_at" Sample.clock s).
Proof.
  intros s.
  assert (Hint : ∀ v, _api_data s !! "expires_at" = Some v -> ∃ e, v = VInt e).
  { intros v Hv. vm_compute in Hv. injection Hv as <-. by eexists. }
  split; [done|].
  apply (get_api_key_renews_iff_expired Sample.int_of_str "api_key"
           "expires_at" "consumer_key" "consumer_secret" Sample.clock
           Sample.session_post s Hint).
Defined.

Lemma merge_is_windowed_concatenation_witness :
  let hourly := Sample.record <$> ["99"; "100"; "105"; "113"] in
  let tri_hourly := Sample.record <$> ["102"; "114"; "144"; "147"] in
  let daily := Sample.record <$> ["120"; "168"] in
  let n := 100 * usec_per_hour in
  let hc := n + 12 * usec_per_hour in
  let dc := 144 * usec_per_hour in
  let merged :=
    filter (in_hourly_window n hc) (stamps sample_parse_hour hourly)
    ++ filter (in_triple_window hc dc) (stamps sample_parse_hour tri_hourly)
    ++ filter (in_daily_window dc) (stamps sample_parse_day daily) in
  (utcoffset sample_now = Some 0
   ∧ parseable sample_parse_hour hourly
   ∧ parseable sample_parse_hour tri_hourly
   ∧ parseable sample_parse_day daily
   ∧ ascending (stamps sample_parse_hour hourly)
   ∧ ascending (stamps sample_parse_hour tri_hourly)
   ∧ ascending (stamps sample_parse_day daily))
  ∧ (sample_merge sample_now (forecast_document hourly tri_hourly daily)).2
    = Ok merged.*2
  ∧ merged.*1 = (λ h, h * usec_per_hour) <$> [100; 105; 114; 144; 168]
  ∧ ascending merged.
Proof.
  intros hourly tri_hourly daily n hc dc merged.
  assert (Hph : parseable sample_parse_hour hourly).
  { repeat constructor; vm_compute; eauto. }
  assert (Hpt : parseable sample_parse_hour tri_hourly).
  { repeat constructor; vm_compute; eauto. }
  assert (Hpd : parseable sample_parse_day daily).
  { repeat constructor; vm_compute; eauto. }
  assert (Hsh : ascending (stamps sample_parse_hour hourly)).
  { unfold ascending. vm_compute. repeat constructor; discriminate. }
  assert (Hst : ascending (stamps sample_parse_hour tri_hourly)).
  { unfold ascending. vm_compute. repeat constructor; discriminate. }
  assert (Hsd : ascending (stamps sample_parse_day daily)).
  { unfold ascending. vm_compute. repeat constructor; discriminate. }
  split; [by split_and!|].
  destruct (merge_is_windowed_concatenation Sample.int_of_str
              Sample.float_of_str Sample.fromisoformat Sample.isoformat
              sample_now 0 hourly tri_hourly daily eq_refl Hph Hpt Hpd Hsh Hst Hsd)
    as (Hm & Ha & _).
  split_and!; [exact Hm | by vm_compute | exact Ha].
Defined.

Lemma merge_skips_unparseable_record_witness :
  let pre := [Sample.record "100"] in
  let r := Sample.bad_record "101" in
  let post := [Sample.record "102"] in
  let with_r := forecast_document (pre ++ r :: post) [] [] in
  let without_r := forecast_document (pre ++ post) [] [] in
  let behind_break :=
    forecast_document ([Sample.record "113"] ++ r :: post) [] [] in
  let kept := (stamps sample_parse_hour (pre ++ post)).*2 in
  (utcoffset sample_now = Some 0
   ∧ (parse_of Sample.int_of_str Sample.float_of_str Sample.fromisoformat
        Sample.isoformat Hourly r).2 = Raise ValueError
   ∧ parseable sample_parse_hour (pre ++ post)
   ∧ reaches Hourly (100 * usec_per_hour - 0 + 12 * usec_per_hour)
       (wall (daily_cutoff sample_now) - 0) (stamps sample_parse_hour pre))
  ∧ sample_merge sample_now with_r = ([WarnParseFailed Hourly r], Ok kept)
  ∧ sample_merge sample_now without_r = ([], Ok kept)
  ∧ length kept = 2%nat
  ∧ sample_merge sample_now behind_break = ([], Ok [])
  ∧ parse_warnings (sample_merge sample_now with_r).1 = [(Hourly, r)]
  ∧ (∃ la lb,
       (sample_merge sample_now without_r).1 = la ++ lb
       ∧ (sample_merge sample_now with_r).1
         = la ++ ((parse_of Sample.int_of_str Sample.float_of_str
                     Sample.fromisoformat Sample.isoformat Hourly r).1
                  ++ [WarnParseFailed Hourly r]) ++ lb)
  ∧ (sample_merge sample_now with_r).2
    = Ok (filter (in_hourly_window (100 * usec_per_hour - 0)
                    (100 * usec_per_hour - 0 + 12 * usec_per_hour))
            (stamps sample_parse_hour (pre ++ post))
          ++ filter (in_triple_window
                       (100 * usec_per_hour - 0 + 12 * usec_per_hour)
                       (wall (daily_cutoff sample_now) - 0))
               (stamps sample_parse_hour [])
          ++ filter (in_daily_window (wall (daily_cutoff sample_now) - 0))
               (stamps sample_parse_day [])).*2.
Proof.
  intros pre r post with_r without_r behind_break kept.
  assert (He : (parse_of Sample.int_of_str Sample.float_of_str
                  Sample.fromisoformat Sample.isoformat Hourly r).2
               = Raise ValueError) by (by vm_compute).
  assert (Hp : parseable sample_parse_hour (pre ++ post)).
  { repeat constructor; vm_compute; eauto. }
  assert (Hr : reaches Hourly (100 * usec_per_hour - 0 + 12 * usec_per_hour)
                 (wall (daily_cutoff sample_now) - 0)
                 (stamps sample_parse_hour pre)).
  { cbn [reaches].
    apply (Forall_fmap fst (λ i : Z, i ≤ 100 * usec_per_hour - 0 + 12 * usec_per_hour)).
    replace ((stamps sample_parse_hour pre).*1) with [100 * usec_per_hour]
      by (by vm_compute).
    constructor; [unfold usec_per_hour; lia|constructor]. }
  assert (Ha : ascending (stamps sample_parse_hour (pre ++ post))).
  { unfold ascending. vm_compute. repeat constructor; discriminate. }
  destruct (merge_skips_unparseable_record Sample.int_of_str
              Sample.float_of_str Sample.fromisoformat Sample.isoformat
              sample_now 0 Hourly pre post [] [] [] r ValueError eq_refl He
              Hp (Forall_nil_2 _) (Forall_nil_2 _))
    as (_ & _ & Hlogged & _ & Hout).
  destruct (Hlogged Hr) as [Hw Hins].
  split; [by split_and!|].
  split_and!; [by vm_compute..|exact Hw|exact Hins|].
  apply Hout; [exact Ha|constructor|constructor].
Defined.

Lemma update_empty_arrays_raises_witness :
  let s := Sample.entity Sample.store_valid [Sample.point0] in
  sample_get Sample.session_get_empty (_geolocation_id s) s
  = (tick s, Ok (forecast_document [] [] []))
  ∧ sample_update Sample.session_get_empty s
    = (set_forecast [] (tick (tick s)), Raise IndexError)
  ∧ sample_async_update Sample.session_get_empty s
    = (add_log [ExcUpdateFailed IndexError] (set_forecast [] (tick (tick s))),
       Ok tt).
Proof.
  intros s.
  assert (Hget : sample_get Sample.session_get_empty (_geolocation_id s) s
                 = (tick s, Ok (forecast_document [] [] []))) by reflexivity.
  split; [exact Hget|].
  exact (proj2 (update_empty_arrays_raises Sample.int_of_str
           Sample.float_of_str Sample.fromisoformat Sample.isoformat
           Sample.fromtimestamp "api_key" "expires_at" "consumer_key"
           "consumer_secret" Sample.HTTP_OK Sample.clock Sample.localtime
           Sample.session_post Sample.session_get_empty s (tick s) Hget)).
Defined.

(** C3 as stated fails on a cycle whose merged sequence is empty: the cycle
    ends in the logged [IndexError], and the forecast list that was published
    is gone. *)
Lemma empty_merge_drops_published_forecast :
  let s := Sample.entity Sample.store_valid [Sample.point0] in
  let s' := (sample_async_update Sample.session_get_empty s).1 in
  sample_update Sample.session_get_empty s
  = (set_forecast [] (tick (tick s)), Raise IndexError)
  ∧ log s' = [ExcUpdateFailed IndexError]
  ∧ _forecast s = [Sample.point0]
  ∧ _forecast s' = []
  ∧ published s' ≠ published s.
Proof.
  intros s s'. split_and!; try reflexivity.
  intros Heq. apply (f_equal snd) in Heq. discriminate Heq.
Qed.

Lemma failed_cycle_published_state_witness :
  let s := Sample.entity Sample.store_valid [Sample.point0] in
  (sample_get Sample.session_get_down (_geolocation_id s) s
   = (tick s, Raise (ClientError "connection refused"))
   ∧ is_Exception (ClientError "connection refused") = true
   ∧ sample_get Sample.session_get_empty (_geolocation_id s) s
     = (tick s, Ok (forecast_document [] [] []))
   ∧ (sample_merge (now_at Sample.localtime (ticks (tick s)))
        (forecast_document [] [] [])).2 = Ok [])
  ∧ published (sample_async_update Sample.session_get_down s).1 = published s
  ∧ published (sample_async_update Sample.session_get_empty s).1
    = (_state s, _temperature s, _wind_speed s, _wind_bearing s,
       _state_attrs s, []).
Proof.
  intros s.
  assert (Hdown : sample_get Sample.session_get_down (_geolocation_id s) s
                  = (tick s, Raise (ClientError "connection refused")))
    by reflexivity.
  assert (Hget : sample_get Sample.session_get_empty (_geolocation_id s) s
                 = (tick s, Ok (forecast_document [] [] []))) by reflexivity.
  assert (Hm : (sample_merge (now_at Sample.localtime (ticks (tick s)))
                  (forecast_document [] [] [])).2 = Ok []) by reflexivity.
  split; [by split_and!|].
  split.
  - exact (proj2 (proj1 (failed_cycle_published_state Sample.int_of_str
             Sample.float_of_str Sample.fromisoformat Sample.isoformat
             Sample.fromtimestamp "api_key" "expires_at" "consumer_key"
             "consumer_secret" Sample.HTTP_OK Sample.clock Sample.localtime
             Sample.session_post Sample.session_get_down s)
             (tick s) _ Hdown eq_refl)).
  - exact (proj2 (proj2 (proj2 (failed_cycle_published_state Sample.int_of_str
             Sample.float_of_str Sample.fromisoformat Sample.isoformat
             Sample.fromtimestamp "api_key" "expires_at" "consumer_key"
             "consumer_secret" Sample.HTTP_OK Sample.clock Sample.localtime
             Sample.session_post Sample.session_get_empty s)
             (tick s) _ Hget Hm))).
Defined.

Lemma symbol_map_day_night_witness :
  (0 < 7 ∧ is_Some (SYMBOL_STATE_MAP !! 7))
  ∧ is_Some (SYMBOL_STATE_MAP !! (- 7))
  ∧ get_condition_from_symbol 7 = ([], Ok "snowy-rainy")
  ∧ get_condition_from_symbol (- 7) = ([], Ok "snowy")
  ∧ get_condition_from_symbol 31 = ([WarnNoCondition 31], Ok STATE_UNAVAILABLE).
Proof.
  assert (H7 : is_Some (SYMBOL_STATE_MAP !! 7)) by (by eexists).
  destruct symbol_map_day_night_and_unknown as (_ & _ & Hk & Hu).
  destruct (Hk 7 eq_refl H7) as (Hn & _).
  split; [by split|]. split; [exact Hn|].
  split_and!; [done | done | by apply Hu].
Defined.

(** ** The further properties at the sample instance *)

Abbreviation sample_get_api_key_with post :=
  (get_api_key Sample.int_of_str "api_key" "expires_at" "consumer_key"
     "consumer_secret" Sample.clock post).
Abbreviation sample_merge_naive :=
  (merge Sample.int_of_str Sample.float_of_str Scenario.fromisoformat_naive
     Sample.isoformat).

Lemma get_api_key_second_call_hits_cache_witness :
  let s := Sample.entity Sample.store_fresh [] in
  let s1 := (sample_get_api_key_with Sample.session_post_issued s).1 in
  (sample_get_api_key_with Sample.session_post_issued s = (s1, Ok (VStr "t1"))
   ∧ _api_data s1 !! "expires_at" = Some (VInt 1700003600)
   ∧ (Sample.clock (ticks s1) < inject_Z 1700003600)%Q)
  ∧ sample_get_api_key_with Sample.session_post_issued s1
    = (tick s1, Ok (VStr "t1"))
  ∧ renewals (log (sample_get_api_key_with Sample.session_post_issued s1).1)
    = renewals (log s1).
Proof.
  intros s s1.
  assert (H1 : sample_get_api_key_with Sample.session_post_issued s
               = (s1, Ok (VStr "t1"))) by (by vm_compute).
  assert (H2 : _api_data s1 !! "expires_at" = Some (VInt 1700003600))
    by (by vm_compute).
  assert (H3 : (Sample.clock (ticks s1) < inject_Z 1700003600)%Q)
    by (by vm_compute).
  split; [by split_and!|].
  exact (get_api_key_second_call_hits_cache Sample.int_of_str "api_key"
           "expires_at" "consumer_key" "consumer_secret" Sample.clock
           Sample.session_post_issued s s1 (VStr "t1") 1700003600 H1 H2 H3).
Defined.

Lemma synthesized_issue_time_never_caches_witness :
  let s := Sample.entity Sample.store_fresh [] in
  let s1 := (sample_renew Sample.session_post s).1 in
  (_api_data s !! "consumer_key" = Some (VStr "k")
   ∧ _api_data s !! "consumer_secret" = Some (VStr "s")
   ∧ Sample.session_post (VStr "k") (VStr "s") = Ok Sample.token_response
   ∧ Sample.token_response !! "issued_at" = None
   ∧ Sample.token_response !! "expires_in" = Some (VInt 3600)
   ∧ 2 * 3600 <= Qtrunc (Sample.clock (ticks s))
   ∧ sample_renew Sample.session_post s = (s1, Ok tt)
   ∧ (Sample.clock (ticks s) <= Sample.clock (ticks s1))%Q)
  ∧ expired "expires_at" Sample.clock s1
  ∧ renewals (log (sample_get_api_key s1).1) = S (renewals (log s1)).
Proof.
  intros s s1.
  assert (H7 : sample_renew Sample.session_post s = (s1, Ok tt))
    by (by vm_compute).
  assert (H8 : (Sample.clock (ticks s) <= Sample.clock (ticks s1))%Q)
    by (by vm_compute).
  assert (H6 : 2 * 3600 <= Qtrunc (Sample.clock (ticks s))) by (by vm_compute).
  split; [by split_and!|].
  exact (synthesized_issue_time_never_caches Sample.int_of_str "api_key"
           "expires_at" "consumer_key" "consumer_secret" Sample.clock
           Sample.session_post s s1 s1 (VStr "k") (VStr "s") (VInt 3600)
           Sample.token_response 3600 eq_refl eq_refl eq_refl eq_refl eq_refl
           eq_refl eq_refl H6 ltac:(discriminate) H7 eq_refl H8).
Defined.

Lemma merge_output_within_windows_witness :
  let data := forecast_document Scenario.shuffled [] [] in
  let out := (stamps sample_parse_hour [Sample.record "105"]).*2 in
  (utcoffset sample_now = Some 0
   ∧ (sample_merge sample_now data).2 = Ok out)
  ∧ (stamps sample_parse_hour Scenario.shuffled).*1
    = (λ h, h * usec_per_hour) <$> [105; 99; 113; 100]
  ∧ ∃ f hourly tri_hourly daily sh st,
      data !! "forecast" = Some f
      ∧ f !! "60minutes" = Some hourly
      ∧ f !! "hour" = Some tri_hourly
      ∧ f !! "day" = Some daily
      ∧ sh `prefix_of` filter (in_hourly_window (100 * usec_per_hour - 0)
                                 (100 * usec_per_hour - 0 + 12 * usec_per_hour))
                         (stamps sample_parse_hour hourly)
      ∧ st `prefix_of` filter (in_triple_window
                                 (100 * usec_per_hour - 0 + 12 * usec_per_hour)
                                 (wall (daily_cutoff sample_now) - 0))
                         (stamps sample_parse_hour tri_hourly)
      ∧ out = (sh ++ st ++ filter (in_daily_window
                                     (wall (daily_cutoff sample_now) - 0))
                             (stamps sample_parse_day daily)).*2.
Proof.
  intros data out.
  assert (Hm : (sample_merge sample_now data).2 = Ok out) by (by vm_compute).
  split; [by split|]. split; [by vm_compute|].
  exact (merge_output_within_windows Sample.int_of_str Sample.float_of_str
           Sample.fromisoformat Sample.isoformat sample_now 0 data out
           eq_refl Hm).
Defined.

Lemma merged_points_are_publishable_witness :
  let data :=
    forecast_document (Sample.record <$> ["100"; "101"])
      (Sample.record <$> ["114"]) (Sample.record <$> ["168"]) in
  let out := (sample_merge sample_now data).2 in
  (utcoffset sample_now = Some 0
   ∧ ∃ points, out = Ok points ∧ length points = 4%nat
               ∧ Forall publishable points).
Proof.
  intros data out.
  destruct out as [points|e] eqn:Hm; [|by vm_compute in Hm].
  split; [done|]. exists points. split; [done|]. split.
  - vm_compute in Hm. by injection Hm as <-.
  - exact (merged_points_are_publishable Sample.int_of_str Sample.float_of_str
             Sample.fromisoformat Sample.isoformat sample_now 0 data points
             eq_refl Hm).
Defined.

Lemma merge_raises_only_KeyError_TypeError_witness :
  let r := Sample.record "168" in
  let data := forecast_document [] [] [r] in
  (utcoffset sample_now = Some 0
   ∧ (sample_merge_naive sample_now data).2 = Raise TypeError)
  ∧ is_Exception TypeError = true
  ∧ ((TypeError = KeyError "forecast" ∧ data !! "forecast" = None)
     ∨ (∃ f src, data !! "forecast" = Some f ∧ f !! array_key src = None
                 ∧ TypeError = KeyError (array_key src))
     ∨ (TypeError = TypeError
        ∧ ∃ f src raws r l d p,
            data !! "forecast" = Some f
            ∧ f !! array_key src = Some raws
            ∧ r ∈ raws
            ∧ parse_of Sample.int_of_str Sample.float_of_str
                Scenario.fromisoformat_naive Sample.isoformat src r
              = (l, Ok (d, p))
            ∧ utcoffset d = None)).
Proof.
  intros r data.
  assert (Hm : (sample_merge_naive sample_now data).2 = Raise TypeError)
    by (by vm_compute).
  split; [by split|].
  exact (merge_raises_only_KeyError_TypeError Sample.int_of_str
           Sample.float_of_str Scenario.fromisoformat_naive Sample.isoformat
           sample_now 0 data TypeError eq_refl Hm).
Defined.

Lemma naive_daily_timestamp_aborts_merge_witness :
  let daily := [Sample.record "168"] in
  let f : gmap string (list raw) :=
    <["60minutes" := []]> (<["hour" := []]> {[ "day" := daily ]}) in
  let data := forecast_document [] [] daily in
  (utcoffset sample_now = Some 0
   ∧ data !! "forecast" = Some f
   ∧ f !! "60minutes" = Some []
   ∧ f !! "hour" = Some []
   ∧ f !! "day" = Some daily
   ∧ Sample.record "168" ∈ daily
   ∧ ∃ l d p,
       parse_forecast_day Sample.int_of_str Sample.float_of_str
         Scenario.fromisoformat_naive Sample.isoformat (Sample.record "168")
       = (l, Ok (d, p))
       ∧ utcoffset d = None)
  ∧ (sample_merge_naive sample_now data).2 = Raise TypeError.
Proof.
  intros daily f data.
  assert (Hin : Sample.record "168" ∈ daily) by apply list_elem_of_here.
  destruct (parse_forecast_day Sample.int_of_str Sample.float_of_str
              Scenario.fromisoformat_naive Sample.isoformat (Sample.record "168"))
    as [l [[d p]|e]] eqn:Hp; [|by vm_compute in Hp].
  assert (Hd : utcoffset d = None).
  { vm_compute in Hp. by injection Hp as _ <- _. }
  split.
  - split_and!; [done..|]. by exists l, d, p.
  - exact (naive_daily_timestamp_aborts_merge Sample.int_of_str
             Sample.float_of_str Scenario.fromisoformat_naive Sample.isoformat
             sample_now 0 data f [] [] daily (Sample.record "168") l d p
             eq_refl eq_refl eq_refl eq_refl eq_refl Hin Hp Hd).
Defined.

Lemma merge_failure_keeps_published_witness :
  let s := Sample.entity Sample.store_valid [Sample.point0] in
  (sample_get Scenario.session_get_no_forecast (_geolocation_id s) s
   = (tick s, Ok ∅)
   ∧ sample_merge (now_at Sample.localtime (ticks (tick s))) ∅
     = ([], Raise (KeyError "forecast")))
  ∧ sample_async_update Scenario.session_get_no_forecast s
    = (add_log [ExcUpdateFailed (KeyError "forecast")]
         (add_log [] (tick (tick s))), Ok tt)
  ∧ published (sample_async_update Scenario.session_get_no_forecast s).1
    = published s.
Proof.
  intros s.
  assert (Hget : sample_get Scenario.session_get_no_forecast (_geolocation_id s) s
                 = (tick s, Ok ∅)) by reflexivity.
  assert (Hm : sample_merge (now_at Sample.localtime (ticks (tick s))) ∅
               = ([], Raise (KeyError "forecast"))) by reflexivity.
  split; [by split|].
  exact (merge_failure_keeps_published Sample.int_of_str Sample.float_of_str
           Sample.fromisoformat Sample.isoformat Sample.fromtimestamp "api_key"
           "expires_at" "consumer_key" "consumer_secret" Sample.HTTP_OK
           Sample.clock Sample.localtime Sample.session_post
           Scenario.session_get_no_forecast s (tick s) ∅ []
           (KeyError "forecast") Hget Hm).
Defined.

Lemma missing_wind_bearing_half_publishes_witness :
  let s := Sample.entity Sample.store_valid [Sample.point0] in
  let data :=
    forecast_document [Scenario.calm_record "100"; Sample.record "101"] [] [] in
  let m := sample_merge (now_at Sample.localtime (ticks (tick s))) data in
  ∃ p rest,
    (sample_get Scenario.session_get_calm (_geolocation_id s) s
     = (tick s, Ok data)
     ∧ m = ([], Ok (p :: rest))
     ∧ p_wind_bearing p = None)
    ∧ ∃ t s',
        p_temperature p = Some t
        ∧ sample_async_update Scenario.session_get_calm s = (s', Ok tt)
        ∧ published s'
          = (Some (p_condition p), Some t, Some (p_wind_speed p),
             Some "S", {[ "symbol_id" := VInt 19 ]}, rest)
        ∧ log s' = log (tick s) ++ []
                   ++ [ExcUpdateFailed (KeyError "wind_bearing")]
        ∧ _api_data s' = _api_data (tick s).
Proof.
  intros s data m.
  assert (Hget : sample_get Scenario.session_get_calm (_geolocation_id s) s
                 = (tick s, Ok data)) by reflexivity.
  destruct m as [l [[|p rest]|e]] eqn:Hm; try (by vm_compute in Hm).
  assert (Hl : l = []).
  { vm_compute in Hm. by injection Hm as <- _. }
  subst l.
  assert (Hwb : p_wind_bearing p = None).
  { vm_compute in Hm. by injection Hm as <- _. }
  exists p, rest. split; [by split_and!|].
  exact (missing_wind_bearing_half_publishes Sample.int_of_str
           Sample.float_of_str Sample.fromisoformat Sample.isoformat
           Sample.fromtimestamp "api_key" "expires_at" "consumer_key"
           "consumer_secret" Sample.HTTP_OK Sample.clock Sample.localtime
           Sample.session_post Scenario.session_get_calm s (tick s) data []
           p rest Hget Hm Hwb).
Defined.

Lemma async_update_never_raises_witness :
  let s := Sample.entity Sample.store_fresh [] in
  ((∀ key secret, result_only_Exception (Sample.session_post key secret))
   ∧ (∀ geo tok, result_only_Exception (Sample.session_get_down geo tok))
   ∧ (∀ geo tok resp, Sample.session_get_down geo tok = Ok resp ->
                      result_only_Exception (json resp))
   ∧ (∀ t, result_only_Exception (Sample.fromtimestamp t)))
  ∧ (sample_async_update Sample.session_get_down s).2 = Ok tt.
Proof.
  intros s.
  assert (H1 : ∀ key secret,
            result_only_Exception (Sample.session_post key secret))
    by (intros ? ? e; discriminate).
  assert (H2 : ∀ geo tok,
            result_only_Exception (Sample.session_get_down geo tok))
    by (by intros ? ? e [= <-]).
  assert (H3 : ∀ geo tok resp, Sample.session_get_down geo tok = Ok resp ->
                               result_only_Exception (json resp))
    by (intros ? ? ?; discriminate).
  assert (H4 : ∀ t, result_only_Exception (Sample.fromtimestamp t))
    by (intros ? e; discriminate).
  split; [by split_and!|].
  exact (async_update_never_raises Sample.int_of_str Sample.float_of_str
           Sample.fromisoformat Sample.isoformat Sample.fromtimestamp "api_key"
           "expires_at" "consumer_key" "consumer_secret" Sample.HTTP_OK
           Sample.clock Sample.localtime Sample.session_post
           Sample.session_get_down H1 H2 H3 H4 s).
Defined.

Lemma cancelled_request_passes_through_witness :
  let s := Sample.entity Sample.store_valid [Sample.point0] in
  (sample_get_api_key s = (tick s, Ok (VStr "t0"))
   ∧ Scenario.session_get_cancelled (_geolocation_id s) (VStr "t0")
     = Raise CancelledError)
  ∧ sample_async_update Scenario.session_get_cancelled s
    = (tick s, Raise CancelledError)
  ∧ published (tick s) = published s
  ∧ (renewals (log (tick s)) ≤ S (renewals (log s)))%nat.
Proof.
  intros s.
  assert (Hkey : sample_get_api_key s = (tick s, Ok (VStr "t0")))
    by reflexivity.
  split; [by split|].
  exact (cancelled_request_passes_through Sample.int_of_str Sample.float_of_str
           Sample.fromisoformat Sample.isoformat Sample.fromtimestamp "api_key"
           "expires_at" "consumer_key" "consumer_secret" Sample.HTTP_OK
           Sample.clock Sample.localtime Sample.session_post
           Scenario.session_get_cancelled s (tick s) (VStr "t0") Hkey eq_refl).
Defined.

Lemma successful_cycle_publishes_witness :
  let s := Sample.entity Sample.store_valid [Sample.point0] in
  let data :=
    forecast_document (Sample.record <$> ["100"; "101"])
      (Sample.record <$> ["114"]) (Sample.record <$> ["168"]) in
  let m := sample_merge (now_at Sample.localtime (ticks (tick s))) data in
  ∃ p rest,
    (sample_get Scenario.session_get_forecast (_geolocation_id s) s
     = (tick s, Ok data)
     ∧ m = ([], Ok (p :: rest))
     ∧ p_wind_bearing p = Some 90)
    ∧ length rest = 3%nat
    ∧ ∃ t c s',
        p_temperature p = Some t
        ∧ deg_to_cardinal (NInt 90) = Ok c
        ∧ c ∈ CARDINALS
        ∧ sample_async_update Scenario.session_get_forecast s = (s', Ok tt)
        ∧ published s'
          = (Some (p_condition p), Some t, Some (p_wind_speed p), Some c,
             <["precipitation_probability" :=
                 VFloat (p_precipitation_probability p)]>
               (<["precipitation" := VFloat (p_precipitation p)]>
                  (<["symbol_id" := VInt (p_symbol_id p)]>
                     (<["wind_direction" := VInt 90]> (_state_attrs s)))),
             rest)
        ∧ log s' = log (tick s) ++ []
        ∧ _api_data s' = _api_data (tick s).
Proof.
  intros s data m.
  assert (Hget : sample_get Scenario.session_get_forecast (_geolocation_id s) s
                 = (tick s, Ok data)) by reflexivity.
  destruct m as [l [[|p rest]|e]] eqn:Hm; try (by vm_compute in Hm).
  assert (Hl : l = []).
  { vm_compute in Hm. by injection Hm as <- _. }
  subst l.
  assert (Hwb : p_wind_bearing p = Some 90).
  { vm_compute in Hm. by injection Hm as <- _. }
  assert (Hlen : length rest = 3%nat).
  { vm_compute in Hm. by injection Hm as _ <-. }
  exists p, rest. split; [by split_and!|]. split; [exact Hlen|].
  exact (successful_cycle_publishes Sample.int_of_str Sample.float_of_str
           Sample.fromisoformat Sample.isoformat Sample.fromtimestamp "api_key"
           "expires_at" "consumer_key" "consumer_secret" Sample.HTTP_OK
           Sample.clock Sample.localtime Sample.session_post
           Scenario.session_get_forecast s (tick s) data [] p rest 90
           Hget Hm Hwb).
Defined.
